(** * Reumav2: the process controller of the ETL pipeline

    A shallow embedding of [controller.py] (class [ProcessController]) and of
    the parts of [db_engine.py], [errors.py] and [log_printer.py] it calls.

    - A Python [dict] is an association list with unique keys, in insertion
      order ([Dict.set] overwrites in place or appends at the end).
    - A Python [str] is a Rocq [string] holding its UTF-8 bytes.
    - The controller's attributes and the collaborators it writes to (storage,
      translation service, exception log file, progress reporter) form one
      record [state]; a method is a function [state -> state * (exn + A)], so
      that what a method changed before it raised is kept, as in Python. *)

From Stdlib Require Import String Ascii List ZArith Bool Arith Lia.
Import ListNotations.
Local Open Scope string_scope.
Local Open Scope list_scope.

Set Implicit Arguments.

(** ** Scalar values held by rows *)

(** [VNone] is [None], [VNaN] the float [nan], [VInt] a number, [VDate] a
    [datetime.date] (as a day number) and [VDateTime] a [datetime] or pandas
    [Timestamp] (day number and time of day). *)
Inductive value : Type :=
| VNone
| VNaN
| VStr (s : string)
| VInt (n : Z)
| VDate (day : Z)
| VDateTime (day : Z) (time : Z).

Definition value_eqb (a b : value) : bool :=
  match a, b with
  | VNone, VNone => true
  | VNaN, VNaN => true
  | VStr s, VStr t => String.eqb s t
  | VInt n, VInt m => Z.eqb n m
  | VDate d, VDate e => Z.eqb d e
  | VDateTime d t, VDateTime e u => Z.eqb d e && Z.eqb t u
  | _, _ => false
  end.

(** Python's [==] on scalars: as [value_eqb], but [nan] differs from itself. *)
Definition py_eq (a b : value) : bool :=
  match a with
  | VNaN => false
  | _ => value_eqb a b
  end.

(** [pd.isna] / [pd.notna] on a scalar. *)
Definition pd_isna (v : value) : bool :=
  match v with
  | VNone | VNaN => true
  | _ => false
  end.

Definition pd_notna (v : value) : bool := negb (pd_isna v).

(** Python truthiness, as [not new_row[col]] reads it. *)
Definition truthy (v : value) : bool :=
  match v with
  | VNone => false
  | VNaN => true
  | VStr s => negb (String.eqb s "")
  | VInt n => negb (Z.eqb n 0)
  | VDate _ => true
  | VDateTime _ _ => true
  end.

(** [re.search('[א-ת]', value)]: the letters U+05D0..U+05EA are, in UTF-8, the
    byte 215 followed by a byte in 144..170. *)
Definition is_heb_pair (c d : ascii) : bool :=
  (nat_of_ascii c =? 215)%nat
  && (144 <=? nat_of_ascii d)%nat && (nat_of_ascii d <=? 170)%nat.

Fixpoint contains_hebrew (s : string) : bool :=
  match s with
  | String c (String d _ as rest) => is_heb_pair c d || contains_hebrew rest
  | _ => false
  end.

(** [isinstance(value, str) and re.search('[א-ת]', value)] *)
Definition is_hebrew_text (v : value) : bool :=
  match v with
  | VStr s => contains_hebrew s
  | _ => false
  end.

(** ** Python dictionaries *)

Module Dict.

Definition t (V : Type) : Type := list (string * V).

Definition keys {V} (d : t V) : list string := map fst d.

Fixpoint get {V} (k : string) (d : t V) : option V :=
  match d with
  | [] => None
  | (k', v) :: rest => if String.eqb k k' then Some v else get k rest
  end.

Definition mem {V} (k : string) (d : t V) : bool :=
  match get k d with
  | Some _ => true
  | None => false
  end.

(** [d[k] = v] *)
Fixpoint set {V} (k : string) (v : V) (d : t V) : t V :=
  match d with
  | [] => [(k, v)]
  | (k', v') :: rest =>
      if String.eqb k k' then (k, v) :: rest else (k', v') :: set k v rest
  end.

(** A well-formed dictionary has each key once. *)
Definition wf {V} (d : t V) : Prop := NoDup (keys d).

End Dict.

Definition row : Type := Dict.t value.

(** ** Exceptions ([errors.py] and the built-in ones the controller can meet) *)

Inductive exn : Type :=
| MandatoryFieldMissing (org_col_name : string)
| NotNullColumnIsMissing (not_null_col : string)
| OriginalDataFieldIsMissing (org_col_name : string)
| KeyError (key : string)
| AttributeError
| TypeError.

(** ** The data catalog *)

(** One row of [data_catalog]. The query of [get_data_catalog] keeps only rows
    whose [target_table] and [target_column] are not null; [concept_cd] and
    [modifier_cd] may be null. *)
Record catalog_rule : Type := Rule {
  table_name : string;
  column_name : string;
  target_table : string;
  target_column : string;
  concept_cd : option string;
  modifier_cd : option string
}.

Definition str_or_none (o : option string) : value :=
  match o with
  | Some s => VStr s
  | None => VNone
  end.

(** [modifier_cd == '@'] *)
Definition is_no_modifier (r : catalog_rule) : bool :=
  match modifier_cd r with
  | Some m => String.eqb m "@"
  | None => false
  end.

(** [modifier_cd.notna() & (modifier_cd != '@')] *)
Definition has_modifier (r : catalog_rule) : bool :=
  match modifier_cd r with
  | Some m => negb (String.eqb m "@")
  | None => false
  end.

(** [pd.isna(concept_cd) & pd.isna(modifier_cd)] *)
Definition is_mandatory (r : catalog_rule) : bool :=
  match concept_cd r, modifier_cd r with
  | None, None => true
  | _, _ => false
  end.

(** [Series.unique()]: the distinct entries, in order of first appearance. *)
Fixpoint unique (l : list string) : list string :=
  match l with
  | [] => []
  | x :: rest => x :: filter (fun y => negb (String.eqb y x)) (unique rest)
  end.

(** ** Table structure, as the inspector reports it ([db_engine.py]) *)

Record column_info : Type := Column {
  col_name : string;
  nullable : bool
}.

(** ** State of a run *)

Record state : Type := State {
  (* attributes of ProcessController *)
  dwh_dictionary : option (list (value * value));   (* columns he, en *)
  encounters : option (list (value * value));       (* columns date, encounter_num *)
  current_org_table_name : string;
  current_dwh_table_name : string;
  batch_que : Dict.t (list row);
  (* collaborators *)
  saved : list (string * list row);       (* calls of save_new_row_to_dwh *)
  translated : list string;               (* calls of the translation service *)
  log_file : string;                      (* today's exceptions log *)
  progress : list (string * bool)         (* calls of LogPrinter.dwh_row_process *)
}.

Definition initial_state : state :=
  State None None "" "" [] [] [] "" [].

(** ** The monad of controller methods *)

Definition M (A : Type) : Type := state -> state * (exn + A).

Definition ret {A} (a : A) : M A := fun s => (s, inr a).

Definition raise {A} (e : exn) : M A := fun s => (s, inl e).

Definition bind {A B} (m : M A) (f : A -> M B) : M B :=
  fun s =>
    match m s with
    | (s', inr a) => f a s'
    | (s', inl e) => (s', inl e)
    end.

Declare Scope ctl_scope.
Delimit Scope ctl_scope with ctl.
Notation "x <- m ;; k" := (bind m (fun x => k))
  (at level 100, m at next level, right associativity) : ctl_scope.
Notation "m ;; k" := (bind m (fun _ => k))
  (at level 100, right associativity) : ctl_scope.
Local Open Scope ctl_scope.

(** [try: m except <caught>: h] *)
Definition try_except {A} (m : M A) (caught : exn -> bool) (h : exn -> M A) : M A :=
  fun s =>
    match m s with
    | (s', inl e) => if caught e then h e s' else (s', inl e)
    | r => r
    end.

Definition lift {A} (r : exn + A) : M A :=
  match r with
  | inl e => raise e
  | inr a => ret a
  end.

Definition read {A} (f : state -> A) : M A := fun s => (s, inr (f s)).

Definition modify (f : state -> state) : M unit := fun s => (f s, inr tt).

(** [for x in l: body(x)] *)
Fixpoint for_each {A} (l : list A) (body : A -> M unit) : M unit :=
  match l with
  | [] => ret tt
  | x :: rest => body x ;; for_each rest body
  end.

Definition exec {A} (m : M A) (s : state) : state := fst (m s).
Definition outcome {A} (m : M A) (s : state) : exn + A := snd (m s).

(** Field updates. *)
Definition set_dwh_dictionary (d : list (value * value)) (s : state) : state :=
  State (Some d) (encounters s) (current_org_table_name s)
    (current_dwh_table_name s) (batch_que s) (saved s) (translated s)
    (log_file s) (progress s).

Definition set_encounters (e : list (value * value)) (s : state) : state :=
  State (dwh_dictionary s) (Some e) (current_org_table_name s)
    (current_dwh_table_name s) (batch_que s) (saved s) (translated s)
    (log_file s) (progress s).

Definition set_current_org_table_name (n : string) (s : state) : state :=
  State (dwh_dictionary s) (encounters s) n
    (current_dwh_table_name s) (batch_que s) (saved s) (translated s)
    (log_file s) (progress s).

Definition set_current_dwh_table_name (n : string) (s : state) : state :=
  State (dwh_dictionary s) (encounters s) (current_org_table_name s)
    n (batch_que s) (saved s) (translated s)
    (log_file s) (progress s).

Definition set_batch_que (q : Dict.t (list row)) (s : state) : state :=
  State (dwh_dictionary s) (encounters s) (current_org_table_name s)
    (current_dwh_table_name s) q (saved s) (translated s)
    (log_file s) (progress s).

Definition add_saved (t : string) (rows : list row) (s : state) : state :=
  State (dwh_dictionary s) (encounters s) (current_org_table_name s)
    (current_dwh_table_name s) (batch_que s) (saved s ++ [(t, rows)]) (translated s)
    (log_file s) (progress s).

Definition add_translated (w : string) (s : state) : state :=
  State (dwh_dictionary s) (encounters s) (current_org_table_name s)
    (current_dwh_table_name s) (batch_que s) (saved s) (translated s ++ [w])
    (log_file s) (progress s).

Definition set_log_file (f : string) (s : state) : state :=
  State (dwh_dictionary s) (encounters s) (current_org_table_name s)
    (current_dwh_table_name s) (batch_que s) (saved s) (translated s)
    f (progress s).

Definition add_progress (t : string) (failed : bool) (s : state) : state :=
  State (dwh_dictionary s) (encounters s) (current_org_table_name s)
    (current_dwh_table_name s) (batch_que s) (saved s) (translated s)
    (log_file s) (progress s ++ [(t, failed)]).


(** ** The progress printer ([log_printer.py]) *)

Module LogPrinter.

(** What a method of the printer can raise: one of the exceptions above,
    or [ZeroDivisionError]. *)
Inductive error : Type :=
| Raised (e : exn)
| ZeroDivisionError.

(** The attributes of a printer. A start time is modelled by whether one
    has been recorded ([None] otherwise); what is printed is left out. *)
Record t : Type := Make {
  ttl_org_data_rows_count : nat;
  ttl_org_data_rows_processed : nat;
  tables_process_start_time : bool;
  specific_table_process_start_time : bool;
  org_table_currently_processing : string;
  ttl_table_rows_processed : nat;
  ttl_table_rows_to_process : Dict.t nat;
  dwh_rows_successfully_saved : Dict.t (Dict.t nat);
  dwh_rows_failed_to_save : Dict.t (Dict.t nat)
}.

(** [LogPrinter(ttl_org_data_rows_count)]. The three dictionaries are
    attributes of the class, which its instances share: a new printer finds
    in them what earlier printers left. *)
Definition init (ttl_org_data_rows_count : nat) (to_process : Dict.t nat)
    (successfully_saved failed_to_save : Dict.t (Dict.t nat)) : t :=
  Make ttl_org_data_rows_count 0 false false "" 0
    to_process successfully_saved failed_to_save.

Definition tables_process_started (p : t) : t :=
  Make (ttl_org_data_rows_count p) (ttl_org_data_rows_processed p)
    true (specific_table_process_start_time p)
    (org_table_currently_processing p) (ttl_table_rows_processed p)
    (ttl_table_rows_to_process p) (dwh_rows_successfully_saved p)
    (dwh_rows_failed_to_save p).

Definition specific_table_process_started (org_table_name : string)
    (rows_to_process : nat) (p : t) : t :=
  Make (ttl_org_data_rows_count p) (ttl_org_data_rows_processed p)
    (tables_process_start_time p) true
    org_table_name 0
    (Dict.set org_table_name rows_to_process (ttl_table_rows_to_process p))
    (Dict.set org_table_name [] (dwh_rows_successfully_saved p))
    (Dict.set org_table_name [] (dwh_rows_failed_to_save p)).

(** [if t in dic: dic[t] = dic[t] + 1 else: dic[t] = 1] *)
Definition count_row (dwh_table_name : string) (dic_to_save : Dict.t nat)
    : Dict.t nat :=
  match Dict.get dwh_table_name dic_to_save with
  | Some n => Dict.set dwh_table_name (n + 1) dic_to_save
  | None => Dict.set dwh_table_name 1 dic_to_save
  end.

(** The dictionary of counts [dwh_row_process] picks for a status. *)
Definition rows_dict (failed : bool) (p : t) : Dict.t (Dict.t nat) :=
  if failed then dwh_rows_failed_to_save p else dwh_rows_successfully_saved p.

Definition set_rows_dict (failed : bool) (d : Dict.t (Dict.t nat)) (p : t) : t :=
  Make (ttl_org_data_rows_count p) (ttl_org_data_rows_processed p)
    (tables_process_start_time p) (specific_table_process_start_time p)
    (org_table_currently_processing p) (ttl_table_rows_processed p)
    (ttl_table_rows_to_process p)
    (if failed then dwh_rows_successfully_saved p else d)
    (if failed then d else dwh_rows_failed_to_save p).

Definition dwh_row_process (dwh_table_name : string) (failed : bool) (p : t)
    : error + t :=
  let org := org_table_currently_processing p in
  match Dict.get org (rows_dict failed p) with
  | None => inl (Raised (KeyError org))
  | Some dic_to_save =>
      inr (set_rows_dict failed
             (Dict.set org (count_row dwh_table_name dic_to_save) (rows_dict failed p))
             p)
  end.

Definition row_processed (p : t) : error + t :=
  let ttl_org_data_rows_processed := ttl_org_data_rows_processed p + 1 in
  let ttl_table_rows_processed := ttl_table_rows_processed p + 1 in
  match Dict.get (org_table_currently_processing p) (ttl_table_rows_to_process p) with
  | None => inl (Raised (KeyError (org_table_currently_processing p)))
  | Some rows_to_process =>
      if negb (tables_process_start_time p) then inl (Raised TypeError)
      else if (ttl_org_data_rows_count p =? 0)%nat then inl ZeroDivisionError
      else if (rows_to_process =? 0)%nat then inl ZeroDivisionError
      else
        inr (Make (ttl_org_data_rows_count p) ttl_org_data_rows_processed
               (tables_process_start_time p) (specific_table_process_start_time p)
               (org_table_currently_processing p) ttl_table_rows_processed
               (ttl_table_rows_to_process p) (dwh_rows_successfully_saved p)
               (dwh_rows_failed_to_save p))
  end.

(** [sum(dwh_tables_rows.values())]: the total the summary of a table
    reports for a status. *)
Definition ttl_rows (dwh_tables_rows : Dict.t nat) : nat :=
  list_sum (map snd dwh_tables_rows).

Definition specific_table_process_ended (org_table_name : string) (p : t)
    : error + t :=
  match Dict.get org_table_name (ttl_table_rows_to_process p) with
  | None => inl (Raised (KeyError org_table_name))
  | Some _ =>
      if negb (specific_table_process_start_time p) then inl (Raised TypeError)
      else
        match Dict.get org_table_name (dwh_rows_successfully_saved p),
              Dict.get org_table_name (dwh_rows_failed_to_save p) with
        | Some _, Some _ =>
            if (ttl_org_data_rows_count p =? 0)%nat then inl ZeroDivisionError
            else
              inr (Make (ttl_org_data_rows_count p) (ttl_org_data_rows_processed p)
                     (tables_process_start_time p) false
                     (org_table_currently_processing p) (ttl_table_rows_processed p)
                     (ttl_table_rows_to_process p) (dwh_rows_successfully_saved p)
                     (dwh_rows_failed_to_save p))
        | _, _ => inl (Raised (KeyError org_table_name))
        end
  end.

Definition tables_process_ended (p : t) : error + t :=
  if negb (tables_process_start_time p) then inl (Raised TypeError)
  else
    inr (Make (ttl_org_data_rows_count p) (ttl_org_data_rows_processed p)
           false (specific_table_process_start_time p)
           (org_table_currently_processing p) (ttl_table_rows_processed p)
           (ttl_table_rows_to_process p) (dwh_rows_successfully_saved p)
           (dwh_rows_failed_to_save p)).

(** The calls a run makes to its printer. *)
Inductive call : Type :=
| TablesProcessStarted
| SpecificTableProcessStarted (org_table_name : string) (rows_to_process : nat)
| DwhRowProcess (dwh_table_name : string) (failed : bool)
| RowProcessed
| SpecificTableProcessEnded (org_table_name : string)
| TablesProcessEnded.

Definition step (c : call) (p : t) : error + t :=
  match c with
  | TablesProcessStarted => inr (tables_process_started p)
  | SpecificTableProcessStarted org_table_name rows_to_process =>
      inr (specific_table_process_started org_table_name rows_to_process p)
  | DwhRowProcess dwh_table_name failed => dwh_row_process dwh_table_name failed p
  | RowProcessed => row_processed p
  | SpecificTableProcessEnded org_table_name =>
      specific_table_process_ended org_table_name p
  | TablesProcessEnded => tables_process_ended p
  end.

Fixpoint replay (calls : list call) (p : t) : error + t :=
  match calls with
  | [] => inr p
  | c :: rest =>
      match step c p with
      | inl e => inl e
      | inr p' => replay rest p'
      end
  end.

(** The reports [add_row_to_batch] makes while one source row is processed. *)
Definition reports (events : list (string * bool)) : list call :=
  map (fun event => DwhRowProcess (fst event) (snd event)) events.

(** The calls of [process_org_tables_into_dwh] for one source table, each
    of its rows given by the reports made while it is processed. *)
Definition calls_of_table (org_table_name : string)
    (org_table : list (list (string * bool))) : list call :=
  SpecificTableProcessStarted org_table_name (length org_table)
  :: concat (map (fun events => reports events ++ [RowProcessed]) org_table)
  ++ [SpecificTableProcessEnded org_table_name].

(** The calls of a whole run that no source row interrupts. *)
Definition calls_of_run (org_tables : Dict.t (list (list (string * bool))))
    : list call :=
  TablesProcessStarted
  :: concat (map (fun entry => calls_of_table (fst entry) (snd entry)) org_tables)
  ++ [TablesProcessEnded].

(** [sum(len(table) for table in org_tables.values())] *)
Definition total_rows (org_tables : Dict.t (list (list (string * bool)))) : nat :=
  list_sum (map (fun entry => length (snd entry)) org_tables).

(** The printer a run creates. *)
Definition printer_of_run (org_tables : Dict.t (list (list (string * bool))))
    (to_process : Dict.t nat) (successfully_saved failed_to_save : Dict.t (Dict.t nat))
    : t :=
  init (total_rows org_tables) to_process successfully_saved failed_to_save.

(** The number of reports for a table with a status. *)
Definition count_reports (dwh_table_name : string) (failed : bool)
    (events : list (string * bool)) : nat :=
  length (filter (fun event => String.eqb (fst event) dwh_table_name
                               && Bool.eqb (snd event) failed) events).

(** The count a dictionary of counts holds for a table. *)
Definition count_of (dwh_table_name : string) (dic : Dict.t nat) : nat :=
  match Dict.get dwh_table_name dic with
  | Some n => n
  | None => 0
  end.

(** The printer has been started, for the run and for the source table
    [org_table_name] with [rows_to_process] rows. *)
Definition working_on (org_table_name : string) (rows_to_process : nat) (p : t)
    : Prop :=
  tables_process_start_time p = true
  /\ specific_table_process_start_time p = true
  /\ org_table_currently_processing p = org_table_name
  /\ Dict.get org_table_name (ttl_table_rows_to_process p) = Some rows_to_process
  /\ Dict.mem org_table_name (dwh_rows_successfully_saved p) = true
  /\ Dict.mem org_table_name (dwh_rows_failed_to_save p) = true.

End LogPrinter.

(** ** A small warehouse, for worked examples *)

Module Demo.

(** The Hebrew word for pain: U+05DB U+05D0 U+05D1, in UTF-8. *)
Definition pain : string :=
  String "215" (String "155" (String "215" (String "144"
    (String "215" (String "145" EmptyString))))).

Definition catalog : list catalog_rule :=
  [ Rule "visits" "patient_id" "observation_fact" "patient_num" None None;
    Rule "visits" "Entry_Date" "observation_fact" "start_date" None None;
    Rule "visits" "complaint" "observation_fact" "tval_char" (Some "COMPLAINT") (Some "@");
    Rule "visits" "weight" "observation_fact" "nval_num" (Some "WEIGHT") (Some "KG");
    Rule "visits" "height" "observation_fact" "nval_num" (Some "HEIGHT") None;
    Rule "visits" "patient_id" "patient_dimension" "patient_num" None None;
    Rule "visits" "complaint" "concept_dimension" "concept_desc" None None ].

(** The same rules in the order in which [get_data_catalog] hands them to a
    run: sorted by target table. *)
Definition sorted_catalog : list catalog_rule :=
  [ Rule "visits" "complaint" "concept_dimension" "concept_desc" None None;
    Rule "visits" "patient_id" "observation_fact" "patient_num" None None;
    Rule "visits" "Entry_Date" "observation_fact" "start_date" None None;
    Rule "visits" "complaint" "observation_fact" "tval_char" (Some "COMPLAINT") (Some "@");
    Rule "visits" "weight" "observation_fact" "nval_num" (Some "WEIGHT") (Some "KG");
    Rule "visits" "height" "observation_fact" "nval_num" (Some "HEIGHT") None;
    Rule "visits" "patient_id" "patient_dimension" "patient_num" None None ].

(** The sorted catalog without its rule for the height. *)
Definition catalog_without_height : list catalog_rule :=
  [ Rule "visits" "complaint" "concept_dimension" "concept_desc" None None;
    Rule "visits" "patient_id" "observation_fact" "patient_num" None None;
    Rule "visits" "Entry_Date" "observation_fact" "start_date" None None;
    Rule "visits" "complaint" "observation_fact" "tval_char" (Some "COMPLAINT") (Some "@");
    Rule "visits" "weight" "observation_fact" "nval_num" (Some "WEIGHT") (Some "KG");
    Rule "visits" "patient_id" "patient_dimension" "patient_num" None None ].

(** A catalog whose rule for the weight writes the [encounter_num] column. *)
Definition catalog_writing_encounter_num : list catalog_rule :=
  [ Rule "visits" "patient_id" "observation_fact" "patient_num" None None;
    Rule "visits" "Entry_Date" "observation_fact" "start_date" None None;
    Rule "visits" "complaint" "observation_fact" "tval_char" (Some "COMPLAINT") (Some "@");
    Rule "visits" "weight" "observation_fact" "encounter_num" (Some "WEIGHT") (Some "KG") ].

Definition table_columns (table : string) : list column_info :=
  if String.eqb table "observation_fact" then
    [ Column "encounter_num" false; Column "patient_num" false;
      Column "concept_cd" false; Column "start_date" false;
      Column "modifier_cd" false; Column "valtype_cd" true;
      Column "tval_char" true; Column "nval_num" true ]
  else if String.eqb table "patient_dimension" then
    [ Column "patient_num" false; Column "sex_cd" true;
      Column "update_date" true; Column "download_date" true;
      Column "import_date" true; Column "sourcesystem_cd" true;
      Column "upload_id" true ]
  else if String.eqb table "concept_dimension" then
    [ Column "concept_path" true; Column "concept_cd" true;
      Column "name_char" true; Column "update_date" true;
      Column "download_date" true; Column "import_date" true;
      Column "sourcesystem_cd" true; Column "upload_id" true ]
  else if String.eqb table "encounters" then
    [ Column "date" false; Column "encounter_num" false ]
  else if String.eqb table "dictionary" then
    [ Column "he" false; Column "en" true ]
  else if String.eqb table "exceptions" then
    [ Column "log_file_id" true; Column "target_table" true;
      Column "org_table" true; Column "target_col" true;
      Column "org_col" true; Column "row_json" true ]
  else [].

Definition translate (heb_word : string) : string := "pain".

Definition now : value := VDateTime 739100 0.

Definition str_of_value (v : value) : string :=
  match v with
  | VStr s => s
  | VNone => "None"
  | VNaN => "nan"
  | _ => "#"
  end.

Definition repr_row (r : row) : string := "{}".

Definition json_dumps (r : row) : string := "{}".

(** The lines a reading of the file in text mode yields: a line ends at a
    line feed, at a carriage return or at the two in a row, and what follows
    the last line end is one more line unless it is empty. [pending] tells
    whether the line being read holds a character. *)
Fixpoint lines_from (pending : bool) (file : string) : nat :=
  match file with
  | EmptyString => if pending then 1 else 0
  | String c rest =>
      if (nat_of_ascii c =? 10)%nat then S (lines_from false rest)
      else if (nat_of_ascii c =? 13)%nat then
        match rest with
        | String c' rest' =>
            if (nat_of_ascii c' =? 10)%nat then S (lines_from false rest')
            else S (lines_from false rest)
        | EmptyString => 1
        end
      else lines_from true rest
  end.

Definition count_lines (file : string) : nat := lines_from false file.

(** A visit with a weight, a height and a complaint in Hebrew. *)
Definition visit : row :=
  [ ("patient_id", VInt 7); ("Entry_Date", VDateTime 738900 0);
    ("complaint", VStr pain); ("weight", VInt 70); ("height", VInt 180) ].

(** The same visit, the weight not filled in. *)
Definition visit_without_weight : row :=
  [ ("patient_id", VInt 7); ("Entry_Date", VDateTime 738900 0);
    ("complaint", VStr pain); ("weight", VNone); ("height", VInt 180) ].

(** The same visit, the patient not filled in. *)
Definition visit_without_patient : row :=
  [ ("patient_id", VNone); ("Entry_Date", VDateTime 738900 0);
    ("complaint", VStr pain); ("weight", VInt 70); ("height", VInt 180) ].

(** A row of a source table that has no [patient_id] column. *)
Definition visit_of_other_table : row :=
  [ ("Entry_Date", VDateTime 738900 0); ("complaint", VStr pain);
    ("weight", VInt 70); ("height", VInt 180) ].

(** A row of the same table, the complaint not filled in. *)
Definition visit_of_other_table_without_complaint : row :=
  [ ("Entry_Date", VDateTime 738900 0); ("complaint", VNaN);
    ("weight", VInt 70); ("height", VInt 180) ].

(** The visit without a weight of the patient numbered 0. *)
Definition visit_of_patient_zero : row :=
  [ ("patient_id", VInt 0); ("Entry_Date", VDateTime 738900 0);
    ("complaint", VStr pain); ("weight", VNone); ("height", VInt 180) ].

(** The mandatory columns of a visit on 2024-01-01. *)
Definition new_year_visit : row :=
  [ ("patient_num", VInt 7); ("start_date", VDateTime 738886 0) ].

Definition weight_rule : catalog_rule :=
  Rule "visits" "weight" "observation_fact" "nval_num" (Some "WEIGHT") (Some "KG").

Definition height_rule : catalog_rule :=
  Rule "visits" "height" "observation_fact" "nval_num" (Some "HEIGHT") None.

Definition complaint_rule : catalog_rule :=
  Rule "visits" "complaint" "observation_fact" "tval_char" (Some "COMPLAINT") (Some "@").

Definition patient_rule : catalog_rule :=
  Rule "visits" "patient_id" "observation_fact" "patient_num" None None.

Definition date_rule : catalog_rule :=
  Rule "visits" "Entry_Date" "observation_fact" "start_date" None None.

(** A state in which the observation table is being filled. *)
Definition filling_observations : state :=
  set_current_dwh_table_name "observation_fact"
    (set_current_org_table_name "visits" initial_state).

End Demo.
(** ** The controller *)

Section Controller.

Set Default Proof Using "Type".

(** What the run is given: the catalog ([get_data_catalog], loaded once),
    the structure and the content of the warehouse when it is first read,
    and the library calls whose results the controller only passes on. *)
Variable data_catalog : list catalog_rule.
Variable inspector_columns : string -> list column_info.
Variable stored_dictionary : list (value * value).
Variable stored_encounters : list (value * value).
Variable translate : string -> string.        (* translator.translate *)
Variable now : value.              (* datetime.now(), one instant for all readings *)
Variable str_of_value : value -> string.      (* f"{val}" *)
Variable repr_row : row -> string.            (* f"{new_row}" *)
Variable json_dumps : row -> string.          (* json.dumps(new_row, default=...) *)
Variable count_lines : string -> nat.         (* sum(1 for _ in log_file) *)

(** *** db_engine.py *)

Definition get_columns (table : string) : list string :=
  map col_name (inspector_columns table).

Definition get_not_null_columns (table : string) : list string :=
  map col_name (filter (fun c => negb (nullable c)) (inspector_columns table)).

Definition save_new_row_to_dwh (rows : list row) (table : string) : M unit :=
  modify (add_saved table rows).

(** *** log_printer.py *)

Definition write_to_log_file (error_message : string) : M Z :=
  fun s =>
    let row_index := (Z.of_nat (count_lines (log_file s)) + 1)%Z in
    (set_log_file
       (log_file s ++ str_of_value (VInt row_index) ++ ". " ++ error_message)%string s,
     inr row_index).

Definition dwh_row_process (table : string) (failed : bool) : M unit :=
  modify (add_progress table failed).

(** *** add_row_to_batch *)

Definition que_limit : nat := 100.

(** [for col in table_cols: if col not in new_row: new_row[col] = None] *)
Fixpoint fill_missing (table_cols : list string) (new_row : row) : row :=
  match table_cols with
  | [] => new_row
  | col :: rest =>
      fill_missing rest
        (if Dict.mem col new_row then new_row else Dict.set col VNone new_row)
  end.

Definition add_row_to_batch (new_row : row) (table : string) : M unit :=
  cur <- read current_dwh_table_name ;;
  (if negb (String.eqb table "exceptions")
   then dwh_row_process table false
   else dwh_row_process cur true) ;;
  let new_row := fill_missing (get_columns table) new_row in
  que <- read batch_que ;;
  let rows :=
    match Dict.get table que with
    | None => [new_row]
    | Some table_que => table_que ++ [new_row]
    end in
  modify (set_batch_que (Dict.set table rows que)) ;;
  if (que_limit <=? length rows)%nat
  then
    save_new_row_to_dwh rows table ;;
    que <- read batch_que ;;
    modify (set_batch_que (Dict.set table [] que))
  else ret tt.

(** *** save_all_rows_in_que *)

Definition save_all_rows_in_que : M unit :=
  que <- read batch_que ;;
  for_each que (fun entry =>
    if (0 <? length (snd entry))%nat
    then save_new_row_to_dwh (snd entry) (fst entry)
    else ret tt).

(** *** validate_row *)

Fixpoint check_not_null (cols : list string) (new_row : row) : exn + unit :=
  match cols with
  | [] => inr tt
  | not_null_col :: rest =>
      match Dict.get not_null_col new_row with
      | None => inl (NotNullColumnIsMissing not_null_col)
      | Some v =>
          if truthy v then check_not_null rest new_row
          else inl (NotNullColumnIsMissing not_null_col)
      end
  end.

Definition validate_row (new_row : row) : M unit :=
  dwh_table_name <- read current_dwh_table_name ;;
  lift (check_not_null (get_not_null_columns dwh_table_name) new_row).

(** *** handle_exception *)

Definition org_row_string (org_row : row) : string :=
  String.concat ", "
    (map (fun cv => (fst cv ++ ": " ++ str_of_value (snd cv))%string) org_row).

(** The row written to the [exceptions] table. *)
Definition exception_record (log_file_id : Z) (dwh_table_name org_table_name : string)
    (target_col org_col : value) (new_row : row) : row :=
  [("log_file_id", VInt log_file_id);
   ("target_table", VStr dwh_table_name);
   ("org_table", VStr org_table_name);
   ("target_col", target_col);
   ("org_col", org_col);
   ("row_json", VStr (json_dumps new_row))].

Definition missing_message (dwh_table_name field_type org_col org_table_name : string)
    (org_row : row) : string :=
  ("For '" ++ dwh_table_name ++ "', the " ++ field_type ++ " '" ++ org_col
   ++ "' is missing in: Table: '" ++ org_table_name
   ++ "' Original row: (" ++ org_row_string org_row ++ ")" ++ String "010" "")%string.

Definition validation_message (dwh_table_name target_col : string) (new_row : row)
    : string :=
  ("Validation failed for '" ++ dwh_table_name ++ "', '" ++ target_col
   ++ "' is missing: " ++ repr_row new_row ++ String "010" "")%string.

Definition handle_exception (org_row new_row : row) (e : exn) : M unit :=
  dwh_table_name <- read current_dwh_table_name ;;
  org_table_name <- read current_org_table_name ;;
  entry <-
    match e with
    | MandatoryFieldMissing org_col =>
        log_file_id <- write_to_log_file
          (missing_message dwh_table_name "mandatory field" org_col org_table_name
             org_row) ;;
        ret (Some log_file_id, VNone, VStr org_col)
    | OriginalDataFieldIsMissing org_col =>
        log_file_id <- write_to_log_file
          (missing_message dwh_table_name "field" org_col org_table_name org_row) ;;
        ret (Some log_file_id, VNone, VStr org_col)
    | NotNullColumnIsMissing target_col =>
        log_file_id <- write_to_log_file
          (validation_message dwh_table_name target_col new_row) ;;
        ret (Some log_file_id, VStr target_col, VNone)
    | _ => ret (None, VNone, VNone)
    end ;;
  match entry with
  | (Some log_file_id, target_col, org_col) =>
      add_row_to_batch
        (exception_record log_file_id dwh_table_name org_table_name target_col
           org_col new_row)
        "exceptions"
  | (None, _, _) => ret tt
  end.

(** *** translate_heb_words *)

Definition column {A B} (f : A * B -> value) (table : list (A * B)) : list value :=
  map f table.

(** [table.loc[table[key] == x, other].iloc[0]], for an [x] that is there *)
Fixpoint first_match (x : value) (table : list (value * value)) : value :=
  match table with
  | [] => VNone
  | (k, v) :: rest => if py_eq k x then v else first_match x rest
  end.

(** [x in table[key].values] *)
Definition is_in (x : value) (table : list (value * value)) : bool :=
  existsb (fun entry => py_eq (fst entry) x) table.

Definition load_dictionary : M (list (value * value)) :=
  d <- read dwh_dictionary ;;
  match d with
  | Some dictionary => ret dictionary
  | None => modify (set_dwh_dictionary stored_dictionary) ;; ret stored_dictionary
  end.

(** The body of the loop, for a value that is Hebrew text. *)
Definition translate_word (heb_word : string) : M value :=
  dictionary <- load_dictionary ;;
  if is_in (VStr heb_word) dictionary
  then ret (first_match (VStr heb_word) dictionary)
  else
    modify (add_translated heb_word) ;;
    let english_translation := VStr (translate heb_word) in
    add_row_to_batch [("he", VStr heb_word); ("en", english_translation)] "dictionary" ;;
    modify (set_dwh_dictionary (dictionary ++ [(VStr heb_word, english_translation)])) ;;
    ret english_translation.

(** The value stored under [key] in [translated_row]. *)
Definition translate_value (v : value) : M value :=
  match v with
  | VStr heb_word => if contains_hebrew heb_word then translate_word heb_word else ret v
  | _ => ret v
  end.

(** [for key, value in row.items(): translated_row[key] = ...] *)
Fixpoint translate_items (items : row) (translated_row : row) : M row :=
  match items with
  | [] => ret translated_row
  | (key, v) :: rest =>
      v' <- translate_value v ;;
      translate_items rest (Dict.set key v' translated_row)
  end.

Definition translate_heb_words (r : row) : M row := translate_items r [].

(** *** add_encounter_num *)

Definition load_encounters : M (list (value * value)) :=
  e <- read encounters ;;
  match e with
  | Some table => ret table
  | None => modify (set_encounters stored_encounters) ;; ret stored_encounters
  end.

(** [Series.max()]: missing entries are skipped, and the maximum of no entry
    is [nan]; entries that are not numbers cannot be compared. *)
Fixpoint series_max (l : list value) : exn + value :=
  match l with
  | [] => inr VNaN
  | v :: rest =>
      match series_max rest with
      | inl e => inl e
      | inr m =>
          match v, m with
          | VNone, _ | VNaN, _ => inr m
          | VInt n, VInt k => inr (VInt (Z.max n k))
          | VInt n, _ => inr (VInt n)
          | _, _ => inl TypeError
          end
      end
  end.

(** [x + 1] *)
Definition plus_one (v : value) : exn + value :=
  match v with
  | VInt n => inr (VInt (n + 1))
  | VNaN => inr VNaN
  | _ => inl TypeError
  end.

(** [mandatory_cols['start_date'].date()] *)
Definition start_date_of (mandatory_cols : row) : exn + value :=
  match Dict.get "start_date" mandatory_cols with
  | None => inl (KeyError "start_date")
  | Some (VDateTime day _) => inr (VDate day)
  | Some _ => inl AttributeError
  end.

Definition add_encounter_num (mandatory_cols : row) : M row :=
  table <- load_encounters ;;
  encounter_date <- lift (start_date_of mandatory_cols) ;;
  encounter_num <-
    (if is_in encounter_date table
     then ret (first_match encounter_date table)
     else
       top <- lift (series_max (column snd table)) ;;
       encounter_num <- lift (plus_one top) ;;
       add_row_to_batch
         [("date", encounter_date); ("encounter_num", encounter_num)] "encounters" ;;
       modify (set_encounters (table ++ [(encounter_date, encounter_num)])) ;;
       ret encounter_num) ;;
  ret (Dict.set "encounter_num" encounter_num mandatory_cols).

(** *** get_mandatory_cols *)

Definition seed_cols : row :=
  [("update_date", now); ("download_date", now); ("import_date", now);
   ("sourcesystem_cd", VStr "reuma_v2"); ("upload_id", VInt 1)].

(** [org_row[org_col_name]] *)
Definition org_value (org_row : row) (org_col_name : string) : exn + value :=
  match Dict.get org_col_name org_row with
  | Some v => inr v
  | None => inl (KeyError org_col_name)
  end.

Fixpoint fill_mandatory (mandatory_rows : list catalog_rule) (org_row : row)
    (mandatory_cols : row) : exn + row :=
  match mandatory_rows with
  | [] => inr mandatory_cols
  | catalog_row :: rest =>
      match org_value org_row (column_name catalog_row) with
      | inl e => inl e
      | inr v =>
          if pd_notna v
          then fill_mandatory rest org_row
                 (Dict.set (target_column catalog_row) v mandatory_cols)
          else inl (MandatoryFieldMissing (column_name catalog_row))
      end
  end.

Definition get_mandatory_cols (org_dwh_tbl_cat : list catalog_rule) (org_row : row)
    : exn + row :=
  fill_mandatory (filter is_mandatory org_dwh_tbl_cat) org_row seed_cols.

(** *** The three transformers *)

Definition is_not_null_missing (e : exn) : bool :=
  match e with
  | NotNullColumnIsMissing _ => true
  | _ => false
  end.

(** [try: validate_row(r); add_row_to_batch(r, current table)
     except NotNullColumnIsMissing as e: handle_exception(org_row, r, e)] *)
(** [self.add_row_to_batch(new_row, self.current_dwh_table_name)] *)
Definition add_row_to_current_batch (new_row : row) : M unit :=
  dwh_table_name <- read current_dwh_table_name ;;
  add_row_to_batch new_row dwh_table_name.

Definition validate_and_queue (org_row new_row : row) : M unit :=
  try_except
    (validate_row new_row ;; add_row_to_current_batch new_row)
    is_not_null_missing
    (handle_exception org_row new_row).

Definition concept_dimension_process (mandatory_cols org_row : row) : M unit :=
  let mandatory_cols :=
    match Dict.get "concept_desc" mandatory_cols with
    | Some desc => Dict.set "name_char" desc mandatory_cols
    | None => mandatory_cols
    end in
  mandatory_cols <- translate_heb_words mandatory_cols ;;
  validate_and_queue org_row mandatory_cols.

Fixpoint merge_no_modifier (no_modifier_rows : list catalog_rule) (org_row : row)
    (mandatory_cols : row) : exn + row :=
  match no_modifier_rows with
  | [] => inr mandatory_cols
  | catalog_row :: rest =>
      match org_value org_row (column_name catalog_row) with
      | inl e => inl e
      | inr v =>
          merge_no_modifier rest org_row
            (if pd_notna v
             then Dict.set (target_column catalog_row) v mandatory_cols
             else mandatory_cols)
      end
  end.

Definition patient_dimension_process (mandatory_cols org_row : row)
    (org_dwh_tbl_cat : list catalog_rule) : M unit :=
  mandatory_cols <-
    lift (merge_no_modifier (filter is_no_modifier org_dwh_tbl_cat) org_row
            mandatory_cols) ;;
  mandatory_cols <- translate_heb_words mandatory_cols ;;
  validate_and_queue org_row mandatory_cols.

(** The row a fan-out rule assembles from a non-null source value. *)
Definition assemble (mandatory_cols : row) (catalog_row : catalog_rule) (v : value)
    : row :=
  let new_row := Dict.set (target_column catalog_row) v mandatory_cols in
  let new_row := Dict.set "concept_cd" (str_or_none (concept_cd catalog_row)) new_row in
  let new_row := Dict.set "modifier_cd" (str_or_none (modifier_cd catalog_row)) new_row in
  if Dict.mem "tval_char" new_row then Dict.set "valtype_cd" (VStr "t") new_row
  else if Dict.mem "nval_num" new_row then Dict.set "valtype_cd" (VStr "n") new_row
  else new_row.

(** The handler of the [try] sees [new_row] as it is when the exception is
    raised: the copy of [mandatory_cols] for a missing source value, the
    translated row for a failed validation. *)
Definition process_row_by_observation_fact_rules (mandatory_cols org_row : row)
    (catalog_row : catalog_rule) : M unit :=
  let org_col_name := column_name catalog_row in
  v <- lift (org_value org_row org_col_name) ;;
  if pd_isna v
  then handle_exception org_row mandatory_cols (OriginalDataFieldIsMissing org_col_name)
  else
    new_row <- translate_heb_words (assemble mandatory_cols catalog_row v) ;;
    validate_and_queue org_row new_row.

Definition observation_fact_process (mandatory_cols org_row : row)
    (org_dwh_tbl_cat : list catalog_rule) : M unit :=
  mandatory_cols <- add_encounter_num mandatory_cols ;;
  for_each (filter is_no_modifier org_dwh_tbl_cat)
    (process_row_by_observation_fact_rules mandatory_cols org_row) ;;
  for_each (filter has_modifier org_dwh_tbl_cat)
    (process_row_by_observation_fact_rules mandatory_cols org_row).

(** *** Orchestration *)

Definition rules_of_table (org_table_name : string) : list catalog_rule :=
  filter (fun r => String.eqb (table_name r) org_table_name) data_catalog.

Definition rules_of_pair (org_table_name dwh_table_name : string) : list catalog_rule :=
  filter (fun r => String.eqb (target_table r) dwh_table_name)
    (rules_of_table org_table_name).

Definition dispatch (dwh_table_name : string) (mandatory_cols org_row : row)
    (org_dwh_tbl_cat : list catalog_rule) : M unit :=
  if String.eqb dwh_table_name "concept_dimension"
  then concept_dimension_process mandatory_cols org_row
  else if String.eqb dwh_table_name "patient_dimension"
  then patient_dimension_process mandatory_cols org_row org_dwh_tbl_cat
  else if String.eqb dwh_table_name "observation_fact"
  then observation_fact_process mandatory_cols org_row org_dwh_tbl_cat
  else ret tt.

(** The body of the loop over the target tables of one source row. *)
Definition process_pair (org_row : row) (org_table_name dwh_table_name : string)
    : M unit :=
  modify (set_current_dwh_table_name dwh_table_name) ;;
  let org_dwh_tbl_cat := rules_of_pair org_table_name dwh_table_name in
  match get_mandatory_cols org_dwh_tbl_cat org_row with
  | inl (MandatoryFieldMissing c) =>
      handle_exception org_row [] (MandatoryFieldMissing c)
  | inl e => raise e
  | inr mandatory_cols => dispatch dwh_table_name mandatory_cols org_row org_dwh_tbl_cat
  end.

Definition target_tables (org_table_name : string) : list string :=
  unique (map target_table (rules_of_table org_table_name)).

Definition process_org_row_into_dwh (org_row : row) : M unit :=
  org_table_name <- read current_org_table_name ;;
  for_each (target_tables org_table_name) (process_pair org_row org_table_name).

Definition process_org_tables_into_dwh (org_tables : Dict.t (list row)) : M unit :=
  for_each org_tables (fun entry =>
    modify (set_current_org_table_name (fst entry)) ;;
    for_each (snd entry) process_org_row_into_dwh) ;;
  save_all_rows_in_que.

(** *** What a table has been given so far *)

(** The rows written to [table] by the storage calls made so far. *)
Definition written (table : string) (s : state) : list row :=
  concat (map snd (filter (fun w => String.eqb (fst w) table) (saved s))).

(** The rows still waiting in the queue of [table]. *)
Definition queued (table : string) (s : state) : list row :=
  match Dict.get table (batch_que s) with
  | Some rows => rows
  | None => []
  end.

(** Every row enqueued for [table] so far, in order: those already flushed
    and those still waiting. *)
Definition enqueued (table : string) (s : state) : list row :=
  written table s ++ queued table s.


(** *** Notions used to state the properties *)

(** The index [write_to_log_file] gives to the next line of the log. *)
Definition next_log_index (s : state) : Z :=
  (Z.of_nat (count_lines (log_file s)) + 1)%Z.

Definition recoverable (e : exn) : bool :=
  match e with
  | MandatoryFieldMissing _ | NotNullColumnIsMissing _
  | OriginalDataFieldIsMissing _ => true
  | _ => false
  end.

Definition org_col_of (e : exn) : value :=
  match e with
  | MandatoryFieldMissing c | OriginalDataFieldIsMissing c => VStr c
  | _ => VNone
  end.

Definition target_col_of (e : exn) : value :=
  match e with
  | NotNullColumnIsMissing c => VStr c
  | _ => VNone
  end.

(** The exception record [handle_exception] enqueues in state [s]. *)
Definition recorded (s : state) (new_row : row) (e : exn) : row :=
  fill_missing (get_columns "exceptions")
    (exception_record (next_log_index s) (current_dwh_table_name s)
       (current_org_table_name s) (target_col_of e) (org_col_of e) new_row).

(** Two states that differ at most in what concerns the [exceptions] table
    (its queue, its writes, the log file and the progress counts). *)
Definition same_but_exceptions (s1 s2 : state) : Prop :=
  dwh_dictionary s1 = dwh_dictionary s2
  /\ encounters s1 = encounters s2
  /\ current_org_table_name s1 = current_org_table_name s2
  /\ current_dwh_table_name s1 = current_dwh_table_name s2
  /\ translated s1 = translated s2
  /\ forall t, t <> "exceptions" ->
       Dict.get t (batch_que s1) = Dict.get t (batch_que s2)
       /\ written t s1 = written t s2.

(** [m] cannot tell such states apart. *)
Definition blind_to_exceptions {A} (m : M A) : Prop :=
  forall s1 s2, same_but_exceptions s1 s2 ->
    same_but_exceptions (exec m s1) (exec m s2) /\ outcome m s1 = outcome m s2.

(** The in-memory dictionary of [s2] is that of [s1], with entries added. *)
Definition dictionary_extends (s1 s2 : state) : Prop :=
  forall d, dwh_dictionary s1 = Some d ->
    exists extra, dwh_dictionary s2 = Some (d ++ extra).

(** The dictionary a lookup in state [s] consults. *)
Definition loaded_dictionary (s : state) : list (value * value) :=
  match dwh_dictionary s with
  | Some d => d
  | None => stored_dictionary
  end.

(** The encounter table a request in state [s] consults. *)
Definition loaded_encounters (s : state) : list (value * value) :=
  match encounters s with
  | Some e => e
  | None => stored_encounters
  end.

(** [s'] differs from [s] at most in the dictionary and its queue. *)
Definition only_dictionary (s s' : state) : Prop :=
  current_dwh_table_name s' = current_dwh_table_name s
  /\ current_org_table_name s' = current_org_table_name s
  /\ encounters s' = encounters s
  /\ forall t, t <> "dictionary" -> enqueued t s' = enqueued t s.

(** The rule loops of [observation_fact_process], in the order they run. *)
Definition evaluated_rules (org_dwh_tbl_cat : list catalog_rule) : list catalog_rule :=
  filter is_no_modifier org_dwh_tbl_cat ++ filter has_modifier org_dwh_tbl_cat.

(** The rows a fan-out rule enqueues for the current target table, from the
    row [new_row] that translation returned: the completed row when it
    passes validation, none otherwise. *)
Definition fan_out_rows (table : string) (new_row : row) : list row :=
  match check_not_null (get_not_null_columns table) new_row with
  | inr _ => [fill_missing (get_columns table) new_row]
  | inl _ => []
  end.

(** An entry of the [encounter_num] column that [Series.max] can read. *)
Definition number_or_missing (v : value) : bool :=
  match v with
  | VNone | VNaN | VInt _ => true
  | _ => false
  end.

(** [encounters['encounter_num'].max() + 1] *)
Definition next_encounter_num (table : list (value * value)) : value :=
  match series_max (column snd table) with
  | inr (VInt n) => VInt (n + 1)
  | _ => VNaN
  end.

(** [new_row[c]] is there and truthy. *)
Definition populated (new_row : row) (c : string) : bool :=
  match Dict.get c new_row with
  | Some v => truthy v
  | None => false
  end.

(** What translation may do to an item: the key stays, and so does a value
    that is not Hebrew text. *)
Definition translated_item (item item' : string * value) : Prop :=
  fst item' = fst item
  /\ (is_hebrew_text (snd item) = false -> snd item' = snd item).

(** [r] is [r0] completed for [table]: every column of the table is a key,
    the entries of [r0] are kept, the columns [r0] lacks hold [None], and
    [r] has no key besides those of [r0] and the columns. *)
Definition completes (table : string) (r0 r : row) : Prop :=
  r = fill_missing (get_columns table) r0
  /\ (forall c, In c (get_columns table) -> Dict.mem c r = true)
  /\ (forall k v, Dict.get k r0 = Some v -> Dict.get k r = Some v)
  /\ (forall c, In c (get_columns table) -> Dict.mem c r0 = false ->
        Dict.get c r = Some VNone)
  /\ (forall k, Dict.mem k r = true -> Dict.mem k r0 = true \/ In k (get_columns table)).

(** A row that went through the completion of [add_row_to_batch]. *)
Definition completed (table : string) (r : row) : Prop :=
  exists r0, r = fill_missing (get_columns table) r0.

(** Every row handed to storage, and every row waiting in a queue, went
    through the completion for its table. *)
Definition rows_completed (s : state) : Prop :=
  (forall t rows, In (t, rows) (saved s) -> Forall (completed t) rows)
  /\ (forall t rows, In (t, rows) (batch_que s) -> Forall (completed t) rows).

Definition queues_below_limit (s : state) : Prop :=
  forall t, (length (queued t s) < que_limit)%nat.

(** [m] takes any state to one related to it by [R]. *)
Definition ensures {A} (R : state -> state -> Prop) (m : M A) : Prop :=
  forall s, R s (exec m s).

Definition preserved (I : state -> Prop) (s s' : state) : Prop := I s -> I s'.

(** *** Further notions *)

(** The loops of [process_org_tables_into_dwh], without the flush that ends
    the run. *)
Definition process_rows_of_tables (org_tables : Dict.t (list row)) : M unit :=
  for_each org_tables (fun entry =>
    modify (set_current_org_table_name (fst entry)) ;;
    for_each (snd entry) process_org_row_into_dwh).

(** Every storage call made so far handed over a full batch. *)
Definition full_batches (s : state) : Prop :=
  Forall (fun call => length (snd call) = que_limit) (saved s).

(** The storage calls of the flush that ends the run: the queues that hold
    a row, in the order of the queue dictionary. *)
Definition waiting_batches (s : state) : list (string * list row) :=
  filter (fun entry => (0 <? length (snd entry))%nat) (batch_que s).

(** What translation makes of a value in state [s]: a string with a Hebrew
    letter becomes the entry the dictionary in memory has for it or, when
    it has none, the answer of the translation service. *)
Definition translation_of (s : state) (v : value) : value :=
  match v with
  | VStr w =>
      if contains_hebrew w
      then if is_in v (loaded_dictionary s)
           then first_match v (loaded_dictionary s)
           else VStr (translate w)
      else v
  | _ => v
  end.

Definition translated_row (s : state) (r : row) : row :=
  map (fun item => (fst item, translation_of s (snd item))) r.

(** The dictionary in memory is the stored one followed by one entry per
    call of the translation service, in the order of the calls; no text was
    sent twice, and none that the stored dictionary has. *)
Definition remote_calls_recorded (s : state) : Prop :=
  loaded_dictionary s
  = stored_dictionary
    ++ map (fun w => (VStr w, VStr (translate w))) (translated s)
  /\ NoDup (translated s)
  /\ forall w, In w (translated s) -> is_in (VStr w) stored_dictionary = false.

(** The tables the controller keeps for itself; their rows are enqueued
    without validation. *)
Definition bookkeeping_table (t : string) : bool :=
  String.eqb t "dictionary" || String.eqb t "encounters"
  || String.eqb t "exceptions".

Definition satisfies_not_null (t : string) (r : row) : Prop :=
  forall c, In c (get_not_null_columns t) ->
    exists v, Dict.get c r = Some v /\ truthy v = true.

(** Every row handed to storage or waiting in a queue satisfies [P] for
    its table. *)
Definition rows_satisfy (P : string -> row -> Prop) (s : state) : Prop :=
  (forall t rows, In (t, rows) (saved s) -> Forall (P t) rows)
  /\ (forall t rows, In (t, rows) (batch_que s) -> Forall (P t) rows).

Definition validated (t : string) (r : row) : Prop :=
  bookkeeping_table t = false -> satisfies_not_null t r.

(** The rows a transformer enqueues from the translated row [new_row]. *)
Definition queued_or_recorded (new_row : row) (table : string) (s s' : state)
    : Prop :=
  match check_not_null (get_not_null_columns table) new_row with
  | inr _ =>
      enqueued table s'
      = enqueued table s ++ [fill_missing (get_columns table) new_row]
      /\ enqueued "exceptions" s' = enqueued "exceptions" s
  | inl e =>
      enqueued table s' = enqueued table s
      /\ exists record,
           enqueued "exceptions" s' = enqueued "exceptions" s ++ [record]
           /\ Dict.get "target_col" record = Some (target_col_of e)
           /\ Dict.get "target_table" record = Some (VStr table)
  end.

(** The number of reports the progress printer got for a table with a
    status. *)
Definition reported (table : string) (failed : bool) (s : state) : nat :=
  LogPrinter.count_reports table failed (progress s).

(** The progress reports agree with the queues: each table other than
    [exceptions] has one success per row enqueued for it, the [exceptions]
    table has none, and there is one failure per exception record. *)
Definition reports_match_queues (s : state) : Prop :=
  (forall t, t <> "exceptions" -> reported t false s = length (enqueued t s))
  /\ reported "exceptions" false s = 0%nat
  /\ length (filter snd (progress s)) = length (enqueued "exceptions" s).

(** *** db_engine.py: the cache of inspected tables *)

(** [table_inspector_columns], and the calls made to the inspector. *)
Record engine : Type := Engine {
  table_inspector_columns : Dict.t (list column_info);
  inspected : list string
}.

(** [if table_name not in self.table_inspector_columns: ... ] followed by
    the reading of [self.table_inspector_columns[table_name]]. *)
Definition cached_columns (table_name : string) (e : engine)
    : engine * list column_info :=
  match Dict.get table_name (table_inspector_columns e) with
  | Some cols => (e, cols)
  | None =>
      let cols := inspector_columns table_name in
      (Engine (Dict.set table_name cols (table_inspector_columns e))
         (inspected e ++ [table_name]),
       cols)
  end.

Definition engine_get_columns (table_name : string) (e : engine)
    : engine * list string :=
  let (e', cols) := cached_columns table_name e in
  (e', map col_name cols).

Definition engine_get_not_null_columns (table_name : string) (e : engine)
    : engine * list string :=
  let (e', cols) := cached_columns table_name e in
  (e', map col_name (filter (fun col => negb (nullable col)) cols)).

(** A sequence of calls of the two methods ([true] for
    [get_not_null_columns]), with their results. *)
Fixpoint engine_calls (calls : list (bool * string)) (e : engine)
    : engine * list (list string) :=
  match calls with
  | [] => (e, [])
  | (not_null, table_name) :: rest =>
      let (e1, result) :=
        if not_null then engine_get_not_null_columns table_name e
        else engine_get_columns table_name e in
      let (e2, results) := engine_calls rest e1 in
      (e2, result :: results)
  end.

(** The cache holds what the inspector says, for the tables inspected. *)
Definition engine_ok (e : engine) : Prop :=
  (forall t cols, Dict.get t (table_inspector_columns e) = Some cols ->
     cols = inspector_columns t)
  /\ NoDup (inspected e)
  /\ forall t, In t (inspected e) <-> Dict.mem t (table_inspector_columns e) = true.

(** The row enqueued for the [dictionary] table after a call of the
    translation service, and the row enqueued for the [encounters] table
    with a new entry of the encounter table. *)
Definition dictionary_row (heb_word : string) : row :=
  fill_missing (get_columns "dictionary")
    [("he", VStr heb_word); ("en", VStr (translate heb_word))].

Definition encounter_row (entry : value * value) : row :=
  fill_missing (get_columns "encounters")
    [("date", fst entry); ("encounter_num", snd entry)].

(** The two tables in memory and their queues go together: the
    [dictionary] table has been given one row per call of the translation
    service, and the [encounters] table one row per entry added to the
    encounter table in memory; the dates of that table stay pairwise
    different if those of the stored table are. *)
Definition bookkeeping_consistent (s : state) : Prop :=
  enqueued "dictionary" s = map dictionary_row (translated s)
  /\ (exists added,
        loaded_encounters s = stored_encounters ++ added
        /\ enqueued "encounters" s = map encounter_row added)
  /\ (NoDup (column fst stored_encounters) ->
      NoDup (column fst (loaded_encounters s))).

(** The current target table is neither of the two. *)
Definition feeds_warehouse_table (s : state) : bool :=
  negb (String.eqb (current_dwh_table_name s) "dictionary")
  && negb (String.eqb (current_dwh_table_name s) "encounters").

Definition keeps_bookkeeping (s s' : state) : Prop :=
  feeds_warehouse_table s = true -> bookkeeping_consistent s ->
  bookkeeping_consistent s' /\ feeds_warehouse_table s' = true.

(** *** Notions for the rows of a run *)

(** The text [handle_exception] hands to [write_to_log_file] in state [s]. *)
Definition exception_message (s : state) (org_row new_row : row) (e : exn) : string :=
  match e with
  | MandatoryFieldMissing org_col =>
      missing_message (current_dwh_table_name s) "mandatory field" org_col
        (current_org_table_name s) org_row
  | OriginalDataFieldIsMissing org_col =>
      missing_message (current_dwh_table_name s) "field" org_col
        (current_org_table_name s) org_row
  | NotNullColumnIsMissing target_col =>
      validation_message (current_dwh_table_name s) target_col new_row
  | _ => ""
  end.

(** [modifier_cd.notna()] *)
Definition has_modifier_cd (r : catalog_rule) : bool :=
  match modifier_cd r with
  | Some _ => true
  | None => false
  end.

(** The rows a fan-out rule gives the observation table for a source row,
    in a state [s]: none when its source value is null and, when it is not,
    the row it assembles, translated, if that row passes validation. *)
Definition rows_of_rule (s : state) (mandatory_cols org_row : row)
    (catalog_row : catalog_rule) : list row :=
  match Dict.get (column_name catalog_row) org_row with
  | Some v =>
      if pd_isna v then []
      else fan_out_rows "observation_fact"
             (translated_row s (assemble mandatory_cols catalog_row v))
  | None => []
  end.

(** The mandatory columns as the concept transformer describes them:
    [name_char] repeats [concept_desc]. *)
Definition described (mandatory_cols : row) : row :=
  match Dict.get "concept_desc" mandatory_cols with
  | Some desc => Dict.set "name_char" desc mandatory_cols
  | None => mandatory_cols
  end.

(** The rows the controller builds and hands to [add_row_to_batch] in a
    run over [org_tables], table by table: the pair sent to the translation
    service, the new entry of the encounter table, the record of a failure,
    and the row each of the three transformers makes of a source row of the
    run with the catalog rules of its pair, once translated. *)
Inductive built (org_tables : Dict.t (list row)) : string -> row -> Prop :=
| built_dictionary (heb_word : string) :
    built org_tables "dictionary"
      [("he", VStr heb_word); ("en", VStr (translate heb_word))]
| built_encounter (encounter_date encounter_num : value) :
    built org_tables "encounters"
      [("date", encounter_date); ("encounter_num", encounter_num)]
| built_exception (log_file_id : Z) (dwh_table_name org_table_name : string)
    (target_col org_col : value) (new_row : row) :
    built org_tables "exceptions"
      (exception_record log_file_id dwh_table_name org_table_name target_col
         org_col new_row)
| built_concept (org_table_name : string) (org_table : list row)
    (org_row mandatory_cols : row) (s : state) :
    In (org_table_name, org_table) org_tables -> In org_row org_table ->
    get_mandatory_cols (rules_of_pair org_table_name "concept_dimension") org_row
    = inr mandatory_cols ->
    built org_tables "concept_dimension" (translated_row s (described mandatory_cols))
| built_patient (org_table_name : string) (org_table : list row)
    (org_row mandatory_cols merged : row) (s : state) :
    In (org_table_name, org_table) org_tables -> In org_row org_table ->
    get_mandatory_cols (rules_of_pair org_table_name "patient_dimension") org_row
    = inr mandatory_cols ->
    merge_no_modifier
      (filter is_no_modifier (rules_of_pair org_table_name "patient_dimension"))
      org_row mandatory_cols = inr merged ->
    built org_tables "patient_dimension" (translated_row s merged)
| built_observation (org_table_name : string) (org_table : list row)
    (org_row mandatory_cols : row) (encounter_num : value)
    (catalog_row : catalog_rule) (v : value) (s : state) :
    In (org_table_name, org_table) org_tables -> In org_row org_table ->
    get_mandatory_cols (rules_of_pair org_table_name "observation_fact") org_row
    = inr mandatory_cols ->
    In catalog_row
      (evaluated_rules (rules_of_pair org_table_name "observation_fact")) ->
    Dict.get (column_name catalog_row) org_row = Some v ->
    pd_isna v = false ->
    built org_tables "observation_fact"
      (translated_row s
         (assemble (Dict.set "encounter_num" encounter_num mandatory_cols)
            catalog_row v)).

(** [r] is the completion of a row built for [table]. *)
Definition built_and_completed (org_tables : Dict.t (list row)) (table : string)
    (r : row) : Prop :=
  exists r0, built org_tables table r0 /\ r = fill_missing (get_columns table) r0.

(** Every row handed to storage or waiting in a queue is the completion of
    a row built for its table. *)
Definition rows_built (org_tables : Dict.t (list row)) (s : state) : Prop :=
  rows_satisfy (built_and_completed org_tables) s.

(** ** Facts about values *)

(** A string has a Hebrew letter when some two consecutive bytes of it
    encode one. *)
Lemma contains_hebrew_spec (s : string) :
  contains_hebrew s = true
  <-> exists pre c d post,
        s = (pre ++ String c (String d post))%string /\ is_heb_pair c d = true.
Proof.
  induction s as [|c s IH].
  - simpl. split; [discriminate|].
    intros (pre & c & d & post & E & _). destruct pre; discriminate.
  - destruct s as [|d rest].
    + simpl. split; [discriminate|].
      intros (pre & c' & d' & post & E & _).
      destruct pre as [|a [|b pre]]; discriminate.
    + change (contains_hebrew (String c (String d rest)))
        with (is_heb_pair c d || contains_hebrew (String d rest)).
      rewrite orb_true_iff, IH. split.
      * intros [H | (pre & c' & d' & post & E & H)].
        -- exists EmptyString, c, d, rest. split; [reflexivity | exact H].
        -- exists (String c pre), c', d', post. simpl. rewrite <- E.
           split; [reflexivity | exact H].
      * intros (pre & c' & d' & post & E & H). destruct pre as [|a pre]; simpl in E.
        -- injection E as -> -> ->. left. exact H.
        -- injection E as -> E. right. exists pre, c', d', post.
           split; [exact E | exact H].
Qed.

(** ** Facts about dictionaries *)

Lemma get_set_same {V} (k : string) (v : V) (d : Dict.t V) :
  Dict.get k (Dict.set k v d) = Some v.
Proof.
  induction d as [|[k' v'] d IH]; simpl.
  - now rewrite String.eqb_refl.
  - destruct (String.eqb k k') eqn:E; simpl; rewrite ?String.eqb_refl, ?E; auto.
Qed.

Lemma get_set_other {V} (k k' : string) (v : V) (d : Dict.t V) :
  k <> k' -> Dict.get k (Dict.set k' v d) = Dict.get k d.
Proof.
  intros N. induction d as [|[k0 v0] d IH]; simpl.
  - apply String.eqb_neq in N. now rewrite N.
  - destruct (String.eqb k' k0) eqn:E; simpl.
    + apply String.eqb_eq in E. subst k0.
      apply String.eqb_neq in N. now rewrite N.
    + destruct (String.eqb k k0); auto.
Qed.

Lemma get_set {V} (k k' : string) (v : V) (d : Dict.t V) :
  Dict.get k (Dict.set k' v d) = if String.eqb k k' then Some v else Dict.get k d.
Proof.
  destruct (String.eqb k k') eqn:E.
  - apply String.eqb_eq in E. subst. apply get_set_same.
  - apply String.eqb_neq in E. now apply get_set_other.
Qed.

Lemma mem_set {V} (k k' : string) (v : V) (d : Dict.t V) :
  Dict.mem k (Dict.set k' v d) = String.eqb k k' || Dict.mem k d.
Proof.
  unfold Dict.mem. rewrite get_set. now destruct (String.eqb k k').
Qed.

Lemma mem_In_keys {V} (k : string) (d : Dict.t V) :
  Dict.mem k d = true <-> In k (Dict.keys d).
Proof.
  unfold Dict.mem, Dict.keys. induction d as [|[k' v'] d IH]; simpl.
  - split; [discriminate | intros []].
  - destruct (String.eqb k k') eqn:E.
    + apply String.eqb_eq in E. subst. split; [intros _; now left | reflexivity].
    + apply String.eqb_neq in E. rewrite IH.
      split; [intros H; now right | intros [H|H]; [congruence | exact H]].
Qed.

Lemma keys_set_old {V} (k : string) (v : V) (d : Dict.t V) :
  Dict.mem k d = true -> Dict.keys (Dict.set k v d) = Dict.keys d.
Proof.
  unfold Dict.mem, Dict.keys. induction d as [|[k' v'] d IH]; simpl.
  - discriminate.
  - destruct (String.eqb k k') eqn:E; simpl.
    + apply String.eqb_eq in E. now subst.
    + intros H. now rewrite IH.
Qed.

Lemma keys_set_new {V} (k : string) (v : V) (d : Dict.t V) :
  Dict.mem k d = false -> Dict.keys (Dict.set k v d) = Dict.keys d ++ [k].
Proof.
  unfold Dict.mem, Dict.keys. induction d as [|[k' v'] d IH]; simpl; auto.
  destruct (String.eqb k k') eqn:E; simpl.
  - discriminate.
  - intros H. now rewrite IH.
Qed.

Lemma wf_set {V} (k : string) (v : V) (d : Dict.t V) :
  Dict.wf d -> Dict.wf (Dict.set k v d).
Proof.
  unfold Dict.wf. intros W. destruct (Dict.mem k d) eqn:E.
  - now rewrite keys_set_old.
  - rewrite keys_set_new by assumption.
    apply NoDup_app; auto.
    + constructor; [intros [] | constructor].
    + intros x Hx [<-|[]]. apply mem_In_keys in Hx. congruence.
Qed.

(** Appending a fresh key at the end. *)
Lemma set_snoc {V} (k : string) (v : V) (d : Dict.t V) :
  Dict.mem k d = false -> Dict.set k v d = d ++ [(k, v)].
Proof.
  unfold Dict.mem. induction d as [|[k' v'] d IH]; simpl; auto.
  destruct (String.eqb k k'); [discriminate|].
  intros H. now rewrite IH.
Qed.

(** ** Facts about the monad *)

Local Arguments Nat.leb : simpl never.
Local Arguments Nat.ltb : simpl never.
Local Arguments String.eqb : simpl never.

Ltac run :=
  unfold exec, outcome, bind, read, modify, ret, raise, lift, try_except; simpl.

Ltac case_limit :=
  try match goal with
      | |- context [(?a <=? ?b)%nat] => destruct (a <=? b)%nat eqn:?
      end.

Lemma bind_ok {A B} (m : M A) (f : A -> M B) (s s1 : state) (a : A) :
  m s = (s1, inr a) -> bind m f s = f a s1.
Proof. intros H. unfold bind. now rewrite H. Qed.

Lemma for_each_app {A} (l1 l2 : list A) (body : A -> M unit) (s : state) :
  for_each (l1 ++ l2) body s = (for_each l1 body ;; for_each l2 body) s.
Proof.
  revert s. induction l1 as [|x l1 IH]; intros s; simpl.
  - reflexivity.
  - unfold bind in *. destruct (body x s) as [s1 [e|[]]]; auto.
Qed.

(** ** The batch writer *)

Lemma add_row_to_batch_returns (r : row) (t : string) (s : state) :
  outcome (add_row_to_batch r t) s = inr tt.
Proof.
  unfold add_row_to_batch. run.
  destruct (negb (t =? "exceptions")%string); simpl;
    case_limit; reflexivity.
Qed.

Lemma queued_add_row (r : row) (t t' : string) (s : state) :
  queued t' (exec (add_row_to_batch r t) s)
  = if String.eqb t' t
    then let rows := queued t s ++ [fill_missing (get_columns t) r] in
         if (que_limit <=? length rows)%nat then [] else rows
    else queued t' s.
Proof.
  unfold add_row_to_batch, queued. run.
  destruct (negb (t =? "exceptions")%string); simpl;
    destruct (Dict.get t (batch_que s)) as [q|] eqn:G; simpl;
    case_limit; simpl;
    rewrite ?get_set; destruct (String.eqb t' t); simpl; auto.
Qed.

Lemma written_add_row (r : row) (t t' : string) (s : state) :
  written t' (exec (add_row_to_batch r t) s)
  = if String.eqb t' t
    then let rows := queued t s ++ [fill_missing (get_columns t) r] in
         written t s ++ (if (que_limit <=? length rows)%nat then rows else [])
    else written t' s.
Proof.
  unfold add_row_to_batch, queued, written. run.
  destruct (negb (t =? "exceptions")%string); simpl;
    destruct (Dict.get t (batch_que s)) as [q|] eqn:G; simpl;
    case_limit; simpl;
    rewrite ?filter_app, ?map_app, ?concat_app; simpl;
    rewrite ?(String.eqb_sym t t');
    destruct (String.eqb t' t) eqn:E; simpl; rewrite ?app_nil_r; auto;
    apply String.eqb_eq in E; subst; auto.
Qed.

(** Enqueuing a row adds it, completed with its missing columns, to what
    its table has been given, and nothing to any other table. *)
Lemma enqueued_add_row (r : row) (t t' : string) (s : state) :
  enqueued t' (exec (add_row_to_batch r t) s)
  = if String.eqb t' t
    then enqueued t s ++ [fill_missing (get_columns t) r]
    else enqueued t' s.
Proof.
  unfold enqueued. rewrite written_add_row, queued_add_row.
  destruct (String.eqb t' t); auto. simpl.
  case_limit; now rewrite ?app_nil_r, ?app_assoc.
Qed.

Lemma add_row_keeps (r : row) (t : string) (s : state) :
  let s' := exec (add_row_to_batch r t) s in
  dwh_dictionary s' = dwh_dictionary s /\ encounters s' = encounters s
  /\ current_org_table_name s' = current_org_table_name s
  /\ current_dwh_table_name s' = current_dwh_table_name s
  /\ translated s' = translated s /\ log_file s' = log_file s.
Proof.
  unfold add_row_to_batch. run.
  destruct (negb (t =? "exceptions")%string); simpl;
    case_limit; simpl; auto 10.
Qed.

Lemma get_que_add_row (r : row) (t t' : string) (s : state) :
  t' <> t ->
  Dict.get t' (batch_que (exec (add_row_to_batch r t) s)) = Dict.get t' (batch_que s).
Proof.
  intros N. unfold add_row_to_batch. run.
  destruct (negb (t =? "exceptions")%string); simpl;
    case_limit; simpl;
    now rewrite ?get_set_other by assumption.
Qed.

(** ** Composing guarantees over the controller's methods *)

Section Ensures.

Variable R : state -> state -> Prop.
Hypothesis R_refl : forall s, R s s.
Hypothesis R_trans : forall s1 s2 s3, R s1 s2 -> R s2 s3 -> R s1 s3.

Lemma ensures_ret {A} (a : A) : ensures R (ret a).
Proof using R R_refl. intros s. apply R_refl. Qed.

Lemma ensures_raise {A} (e : exn) : ensures R (@raise A e).
Proof using R R_refl. intros s. apply R_refl. Qed.

Lemma ensures_lift {A} (r : exn + A) : ensures R (lift r).
Proof using R R_refl. destruct r; [apply ensures_raise | apply ensures_ret].
  Qed.

Lemma ensures_read {A} (f : state -> A) : ensures R (read f).
Proof using R R_refl. intros s. apply R_refl. Qed.

Lemma ensures_bind {A B} (m : M A) (f : A -> M B) :
  ensures R m -> (forall a, ensures R (f a)) -> ensures R (bind m f).
Proof using R R_trans.
  intros Hm Hf s. specialize (Hm s). unfold exec, bind in *.
  destruct (m s) as [s1 [e|a]]; simpl in *; auto.
  eapply R_trans; [exact Hm | apply Hf].
Qed.

Lemma ensures_try_except {A} (m : M A) (caught : exn -> bool) (h : exn -> M A) :
  ensures R m -> (forall e, ensures R (h e)) -> ensures R (try_except m caught h).
Proof using R R_trans.
  intros Hm Hh s. specialize (Hm s). unfold exec, try_except in *.
  destruct (m s) as [s1 [e|a]]; simpl in *; auto.
  destruct (caught e); simpl; auto.
  eapply R_trans; [exact Hm | apply Hh].
Qed.

Lemma ensures_for_each {A} (l : list A) (body : A -> M unit) :
  (forall x, ensures R (body x)) -> ensures R (for_each l body).
Proof using R R_refl R_trans.
  intros Hb. induction l as [|x l IH]; simpl.
  - apply ensures_ret.
  - apply ensures_bind; auto.
Qed.

Lemma ensures_validate_row (r : row) : ensures R (validate_row r).
Proof using R R_refl R_trans inspector_columns.
  unfold validate_row. apply ensures_bind; [apply ensures_read|].
  intros t. apply ensures_lift.
Qed.

(** The steps that write to a queue, a table in memory or the log. *)
Hypothesis R_add_current : forall r, ensures R (add_row_to_current_batch r).
Hypothesis R_add_exceptions : forall r, ensures R (add_row_to_batch r "exceptions").
Hypothesis R_log : forall msg, ensures R (write_to_log_file msg).
Hypothesis R_translate_word : forall w, ensures R (translate_word w).
Hypothesis R_add_encounter_num : forall mc, ensures R (add_encounter_num mc).
Hypothesis R_set_dwh_table :
  forall t, ensures R (modify (set_current_dwh_table_name t)).

Lemma ensures_handle_exception (org_row new_row : row) (e : exn) :
  ensures R (handle_exception org_row new_row e).
Proof using R R_add_exceptions R_log R_refl R_trans count_lines
  inspector_columns json_dumps repr_row str_of_value.
  unfold handle_exception.
  apply ensures_bind; [apply ensures_read | intros dwh].
  apply ensures_bind; [apply ensures_read | intros org].
  apply ensures_bind.
  - destruct e; try apply ensures_ret;
      (apply ensures_bind; [apply R_log | intros; apply ensures_ret]).
  - intros [[[id|] tc] oc]; [apply R_add_exceptions | apply ensures_ret].
Qed.

Lemma ensures_validate_and_queue (org_row new_row : row) :
  ensures R (validate_and_queue org_row new_row).
Proof using R R_add_current R_add_exceptions R_log R_refl R_trans count_lines
  inspector_columns json_dumps repr_row str_of_value.
  unfold validate_and_queue. apply ensures_try_except.
  - apply ensures_bind; [apply ensures_validate_row | intros; apply R_add_current].
  - intros e. apply ensures_handle_exception.
Qed.

Lemma ensures_translate_items (items acc : row) :
  ensures R (translate_items items acc).
Proof using R R_refl R_trans R_translate_word inspector_columns
  stored_dictionary translate.
  revert acc. induction items as [|[k v] items IH]; intros acc; simpl.
  - apply ensures_ret.
  - apply ensures_bind; [|intros; apply IH].
    unfold translate_value. destruct v; try apply ensures_ret.
    destruct (contains_hebrew s); [apply R_translate_word | apply ensures_ret].
Qed.

Lemma ensures_translate_heb_words (r : row) : ensures R (translate_heb_words r).
Proof using R R_refl R_trans R_translate_word inspector_columns
  stored_dictionary translate. apply ensures_translate_items. Qed.

Lemma ensures_concept_dimension_process (mandatory_cols org_row : row) :
  ensures R (concept_dimension_process mandatory_cols org_row).
Proof using R R_add_current R_add_exceptions R_log R_refl R_trans
  R_translate_word count_lines inspector_columns json_dumps repr_row
  stored_dictionary str_of_value translate.
  unfold concept_dimension_process.
  apply ensures_bind; [apply ensures_translate_heb_words|].
  intros; apply ensures_validate_and_queue.
Qed.

Lemma ensures_patient_dimension_process (mandatory_cols org_row : row)
    (cat : list catalog_rule) :
  ensures R (patient_dimension_process mandatory_cols org_row cat).
Proof using R R_add_current R_add_exceptions R_log R_refl R_trans
  R_translate_word count_lines inspector_columns json_dumps repr_row
  stored_dictionary str_of_value translate.
  unfold patient_dimension_process.
  apply ensures_bind; [apply ensures_lift | intros].
  apply ensures_bind; [apply ensures_translate_heb_words|].
  intros; apply ensures_validate_and_queue.
Qed.

Lemma ensures_process_row_by_observation_fact_rules (mandatory_cols org_row : row)
    (catalog_row : catalog_rule) :
  ensures R (process_row_by_observation_fact_rules mandatory_cols org_row catalog_row).
Proof using R R_add_current R_add_exceptions R_log R_refl R_trans
  R_translate_word count_lines inspector_columns json_dumps repr_row
  stored_dictionary str_of_value translate.
  unfold process_row_by_observation_fact_rules.
  apply ensures_bind; [apply ensures_lift | intros v].
  destruct (pd_isna v).
  - apply ensures_handle_exception.
  - apply ensures_bind; [apply ensures_translate_heb_words|].
    intros; apply ensures_validate_and_queue.
Qed.

Lemma ensures_observation_fact_process (mandatory_cols org_row : row)
    (cat : list catalog_rule) :
  ensures R (observation_fact_process mandatory_cols org_row cat).
Proof using R R_add_current R_add_encounter_num R_add_exceptions R_log R_refl
  R_trans R_translate_word count_lines inspector_columns json_dumps repr_row
  stored_dictionary stored_encounters str_of_value translate.
  unfold observation_fact_process.
  apply ensures_bind; [apply R_add_encounter_num | intros mc].
  apply ensures_bind; intros;
    apply ensures_for_each; intros;
    apply ensures_process_row_by_observation_fact_rules.
Qed.

Lemma ensures_process_pair (org_row : row) (org_table dwh_table : string) :
  ensures R (process_pair org_row org_table dwh_table).
Proof using R R_add_current R_add_encounter_num R_add_exceptions R_log R_refl
  R_set_dwh_table R_trans R_translate_word count_lines data_catalog
  inspector_columns json_dumps now repr_row stored_dictionary
  stored_encounters str_of_value translate.
  unfold process_pair.
  apply ensures_bind; [apply R_set_dwh_table | intros _].
  destruct (get_mandatory_cols _ _) as [e|mc].
  - destruct e; try apply ensures_raise. apply ensures_handle_exception.
  - unfold dispatch.
    destruct (String.eqb dwh_table "concept_dimension");
      [apply ensures_concept_dimension_process|].
    destruct (String.eqb dwh_table "patient_dimension");
      [apply ensures_patient_dimension_process|].
    destruct (String.eqb dwh_table "observation_fact");
      [apply ensures_observation_fact_process | apply ensures_ret].
Qed.

Lemma ensures_process_org_row_into_dwh (org_row : row) :
  ensures R (process_org_row_into_dwh org_row).
Proof using R R_add_current R_add_encounter_num R_add_exceptions R_log R_refl
  R_set_dwh_table R_trans R_translate_word count_lines data_catalog
  inspector_columns json_dumps now repr_row stored_dictionary
  stored_encounters str_of_value translate.
  unfold process_org_row_into_dwh.
  apply ensures_bind; [apply ensures_read | intros].
  apply ensures_for_each. intros; apply ensures_process_pair.
Qed.

Hypothesis R_set_org_table :
  forall t, ensures R (modify (set_current_org_table_name t)).
Hypothesis R_save_all : ensures R save_all_rows_in_que.

Lemma ensures_process_org_tables_into_dwh (org_tables : Dict.t (list row)) :
  ensures R (process_org_tables_into_dwh org_tables).
Proof using R R_add_current R_add_encounter_num R_add_exceptions R_log R_refl
  R_save_all R_set_dwh_table R_set_org_table R_trans R_translate_word
  count_lines data_catalog inspector_columns json_dumps now repr_row
  stored_dictionary stored_encounters str_of_value translate.
  unfold process_org_tables_into_dwh.
  apply ensures_bind; [| intros; apply R_save_all].
  apply ensures_for_each. intros [name table]. simpl.
  apply ensures_bind; [apply R_set_org_table | intros].
  apply ensures_for_each. intros; apply ensures_process_org_row_into_dwh.
Qed.

End Ensures.

(** Guarantees that depend on the queues and the storage calls only. *)

Section QueueGuarantee.

Variable R : state -> state -> Prop.
Hypothesis R_refl : forall s, R s s.
Hypothesis R_trans : forall s1 s2 s3, R s1 s2 -> R s2 s3 -> R s1 s3.
Hypothesis R_frame :
  forall s s', saved s' = saved s -> batch_que s' = batch_que s -> R s s'.
Hypothesis R_add_row : forall r t, ensures R (add_row_to_batch r t).

Lemma queue_guarantee_modify (f : state -> state) :
  (forall s, saved (f s) = saved s /\ batch_que (f s) = batch_que s) ->
  ensures R (modify f).
Proof using R R_frame. intros H s. apply R_frame; apply H. Qed.

Lemma queue_guarantee_log (msg : string) : ensures R (write_to_log_file msg).
Proof using R R_frame count_lines str_of_value. intros s. apply R_frame;
  reflexivity. Qed.

Lemma queue_guarantee_add_current (r : row) : ensures R (add_row_to_current_batch r).
Proof using R R_add_row R_refl R_trans inspector_columns.
  apply ensures_bind; [exact R_trans | apply ensures_read; exact R_refl |].
  intros; apply R_add_row.
Qed.

Ltac queue_step :=
  first
    [ apply ensures_ret; exact R_refl
    | apply ensures_read; exact R_refl
    | apply ensures_lift; exact R_refl
    | apply R_add_row
    | apply queue_guarantee_modify; now split
    | apply ensures_bind; [exact R_trans | | intros] ].

Lemma queue_guarantee_translate_word (w : string) : ensures R (translate_word w).
Proof using R R_add_row R_frame R_refl R_trans inspector_columns
  stored_dictionary translate.
  unfold translate_word, load_dictionary.
  queue_step.
  - queue_step; [queue_step|]. destruct a; repeat queue_step.
  - destruct (is_in _ _); repeat queue_step.
Qed.

Lemma queue_guarantee_add_encounter_num (mc : row) : ensures R (add_encounter_num mc).
Proof using R R_add_row R_frame R_refl R_trans inspector_columns
  stored_encounters.
  unfold add_encounter_num, load_encounters.
  queue_step.
  - queue_step; [queue_step|]. destruct a; repeat queue_step.
  - queue_step; [queue_step|]. queue_step; [|queue_step].
    destruct (is_in _ _); repeat queue_step.
Qed.

Lemma queue_guarantee_row (org_row : row) :
  ensures R (process_org_row_into_dwh org_row).
Proof using R R_add_row R_frame R_refl R_trans count_lines data_catalog
  inspector_columns json_dumps now repr_row stored_dictionary
  stored_encounters str_of_value translate.
  apply ensures_process_org_row_into_dwh; auto.
  - apply queue_guarantee_add_current.
  - apply queue_guarantee_log.
  - apply queue_guarantee_translate_word.
  - apply queue_guarantee_add_encounter_num.
  - intros t. apply queue_guarantee_modify. now split.
Qed.

Hypothesis R_save_all : ensures R save_all_rows_in_que.

Lemma queue_guarantee_run (org_tables : Dict.t (list row)) :
  ensures R (process_org_tables_into_dwh org_tables).
Proof using R R_add_row R_frame R_refl R_save_all R_trans count_lines
  data_catalog inspector_columns json_dumps now repr_row stored_dictionary
  stored_encounters str_of_value translate.
  apply ensures_process_org_tables_into_dwh; auto.
  - apply queue_guarantee_add_current.
  - apply queue_guarantee_log.
  - apply queue_guarantee_translate_word.
  - apply queue_guarantee_add_encounter_num.
  - intros t. apply queue_guarantee_modify. now split.
  - intros t. apply queue_guarantee_modify. now split.
Qed.

End QueueGuarantee.

(** *** The queues stay below the flush threshold *)

Lemma below_limit_add_row (r : row) (t : string) :
  ensures (preserved queues_below_limit) (add_row_to_batch r t).
Proof.
  intros s I t'. rewrite queued_add_row.
  destruct (String.eqb t' t); [|apply I]. simpl.
  case_limit; simpl.
  - unfold que_limit. lia.
  - apply Nat.leb_gt in Heqb. exact Heqb.
Qed.

Lemma flush_entries_keeps_queues (l : Dict.t (list row)) (s : state) :
  let flush := for_each l (fun entry =>
    if (0 <? length (snd entry))%nat
    then save_new_row_to_dwh (snd entry) (fst entry)
    else ret tt) in
  batch_que (exec flush s) = batch_que s /\ outcome flush s = inr tt.
Proof.
  simpl. revert s. induction l as [|[t rows] l IH]; intros s; simpl; auto.
  unfold exec, outcome, bind in *. simpl.
  destruct (0 <? length rows)%nat; simpl.
  - apply (IH (add_saved t rows s)).
  - apply IH.
Qed.

Lemma save_all_keeps_queues (s : state) :
  batch_que (exec save_all_rows_in_que s) = batch_que s
  /\ outcome save_all_rows_in_que s = inr tt.
Proof.
  unfold save_all_rows_in_que.
  pose proof (flush_entries_keeps_queues (batch_que s) s) as H.
  unfold exec, outcome, bind, read in *. exact H.
Qed.

Lemma below_limit_run (org_tables : Dict.t (list row)) :
  queues_below_limit (exec (process_org_tables_into_dwh org_tables) initial_state).
Proof.
  apply (queue_guarantee_run (R := preserved queues_below_limit)).
  - intros s I; exact I.
  - intros s1 s2 s3 H1 H2 I. auto.
  - intros s s' _ Hq I t. unfold queued. rewrite Hq. apply I.
  - apply below_limit_add_row.
  - intros s I t. unfold queued.
    rewrite (proj1 (save_all_keeps_queues s)). apply I.
  - intros t. unfold queued, que_limit. simpl. lia.
Qed.

(** *** Completion of rows *)

Lemma fill_missing_keeps (cols : list string) (r : row) (k : string) (v : value) :
  Dict.get k r = Some v -> Dict.get k (fill_missing cols r) = Some v.
Proof.
  revert r. induction cols as [|c cols IH]; intros r G; simpl; auto.
  apply IH. destruct (Dict.mem c r) eqn:E; auto.
  rewrite get_set. destruct (String.eqb k c) eqn:Ek; auto.
  apply String.eqb_eq in Ek. subst. unfold Dict.mem in E. now rewrite G in E.
Qed.

Lemma fill_missing_mem (cols : list string) (r : row) (k : string) :
  Dict.mem k (fill_missing cols r) = Dict.mem k r || existsb (String.eqb k) cols.
Proof.
  revert r. induction cols as [|c cols IH]; intros r; simpl.
  - now rewrite orb_false_r.
  - rewrite IH. destruct (Dict.mem c r) eqn:E.
    + destruct (String.eqb k c) eqn:Ek; auto.
      apply String.eqb_eq in Ek. subst. now rewrite E.
    + rewrite mem_set. now rewrite orb_assoc, (orb_comm (String.eqb k c)).
Qed.

Lemma existsb_eqb_In (k : string) (l : list string) :
  existsb (String.eqb k) l = true <-> In k l.
Proof.
  rewrite existsb_exists. split.
  - intros [x [Hx E]]. apply String.eqb_eq in E. now subst.
  - intros H. exists k. split; auto. apply String.eqb_refl.
Qed.

Lemma fill_missing_has_columns (cols : list string) (r : row) (c : string) :
  In c cols -> Dict.mem c (fill_missing cols r) = true.
Proof.
  intros H. rewrite fill_missing_mem. apply existsb_eqb_In in H.
  rewrite H. apply orb_true_r.
Qed.

Lemma fill_missing_none (cols : list string) (r : row) (c : string) :
  In c cols -> Dict.mem c r = false -> Dict.get c (fill_missing cols r) = Some VNone.
Proof.
  revert r. induction cols as [|c' cols IH]; intros r H E; simpl in H |- *;
    [destruct H|].
  destruct H as [<-|H].
  - rewrite E. apply fill_missing_keeps, get_set_same.
  - destruct (Dict.mem c' r) eqn:E'; [now apply IH|].
    destruct (String.eqb c c') eqn:Ec.
    + apply String.eqb_eq in Ec. subst. apply fill_missing_keeps, get_set_same.
    + apply IH; auto. now rewrite mem_set, Ec, E.
Qed.

Lemma fill_missing_wf (cols : list string) (r : row) :
  Dict.wf r -> Dict.wf (fill_missing cols r).
Proof.
  revert r. induction cols as [|c cols IH]; intros r W; simpl; auto.
  apply IH. destruct (Dict.mem c r); auto. now apply wf_set.
Qed.

Lemma get_In {V} (k : string) (v : V) (d : Dict.t V) :
  Dict.get k d = Some v -> In (k, v) d.
Proof.
  induction d as [|[k' v'] d IH]; simpl; [discriminate|].
  destruct (String.eqb k k') eqn:E.
  - apply String.eqb_eq in E. intros [= ->]. subst. now left.
  - intros G. right. auto.
Qed.

Lemma In_set {V} (k k' : string) (v v' : V) (d : Dict.t V) :
  In (k', v') (Dict.set k v d) -> (k', v') = (k, v) \/ In (k', v') d.
Proof.
  induction d as [|[k0 v0] d IH]; simpl.
  - intros [H|[]]; auto.
  - destruct (String.eqb k k0); simpl; intros [H|H]; auto.
    destruct (IH H) as [K|K]; auto.
Qed.

Lemma completed_add_row (r : row) (t : string) :
  ensures (preserved rows_completed) (add_row_to_batch r t).
Proof.
  intros s [Is Iq].
  assert (Hrows : Forall (completed t) (queued t s ++ [fill_missing (get_columns t) r])).
  { apply Forall_app. split.
    - unfold queued. destruct (Dict.get t (batch_que s)) eqn:G; [|constructor].
      apply Iq. now apply get_In.
    - constructor; [now exists r | constructor]. }
  unfold queued in Hrows.
  unfold add_row_to_batch. run.
  destruct (negb (t =? "exceptions")%string); simpl;
    destruct (Dict.get t (batch_que s)) as [q|] eqn:G; simpl;
    case_limit; simpl; (split; simpl; intros t' rows' H);
    try apply in_app_or in H;
    repeat match goal with
           | H : In _ (Dict.set _ _ _) |- _ => apply In_set in H
           | H : _ \/ _ |- _ => destruct H
           | H : (_, _) = (_, _) |- _ => injection H as ? ?; subst
           | H : In _ [_] |- _ => destruct H as [H|[]]
           end;
    eauto.
Qed.

Lemma completed_flush_entries (l : Dict.t (list row)) (s : state) :
  (forall t rows, In (t, rows) l -> Forall (completed t) rows) ->
  rows_completed s ->
  rows_completed (exec (for_each l (fun entry =>
    if (0 <? length (snd entry))%nat
    then save_new_row_to_dwh (snd entry) (fst entry)
    else ret tt)) s).
Proof.
  revert s. induction l as [|[t rows] l IH]; intros s Hl I; simpl; auto.
  unfold exec, bind in *. simpl.
  destruct (0 <? length rows)%nat; simpl.
  - apply IH; [intros; apply Hl; now right|].
    destruct I as [Is Iq]. split; simpl; auto.
    intros t' rows' H. apply in_app_or in H. destruct H as [H|[[= <- <-]|[]]]; auto.
    apply Hl. now left.
  - apply IH; auto. intros; apply Hl; now right.
Qed.

Lemma completed_save_all : ensures (preserved rows_completed) save_all_rows_in_que.
Proof.
  intros s I. unfold save_all_rows_in_que.
  pose proof (@completed_flush_entries (batch_que s) s (proj2 I) I) as H.
  unfold exec, bind, read in *. exact H.
Qed.

Lemma completed_run (org_tables : Dict.t (list row)) :
  rows_completed (exec (process_org_tables_into_dwh org_tables) initial_state).
Proof.
  apply (queue_guarantee_run (R := preserved rows_completed)).
  - intros s I; exact I.
  - intros s1 s2 s3 H1 H2 I. auto.
  - intros s s' Hs Hq [Is Iq]. split; intros t rows H.
    + rewrite Hs in H. eauto.
    + rewrite Hq in H. eauto.
  - apply completed_add_row.
  - apply completed_save_all.
  - split; simpl; intros t rows [].
Qed.

(** *** The validator *)

Lemma check_not_null_ok (cols : list string) (new_row : row) :
  check_not_null cols new_row = inr tt
  <-> forall c, In c cols -> populated new_row c = true.
Proof.
  unfold populated. induction cols as [|c cols IH]; simpl.
  - split; [intros _ c [] | reflexivity].
  - destruct (Dict.get c new_row) as [v|] eqn:G.
    + destruct (truthy v) eqn:T.
      * rewrite IH. split.
        -- intros H c' [<-|Hc]; [now rewrite G | auto].
        -- intros H c' Hc. apply H. now right.
      * split; [discriminate|]. intros H.
        specialize (H c (or_introl eq_refl)). rewrite G in H. congruence.
    + split; [discriminate|]. intros H.
      specialize (H c (or_introl eq_refl)). rewrite G in H. congruence.
Qed.

Lemma check_not_null_first (cols : list string) (new_row : row) (c : string) :
  check_not_null cols new_row = inl (NotNullColumnIsMissing c)
  <-> exists before after,
        cols = before ++ c :: after
        /\ (forall b, In b before -> populated new_row b = true)
        /\ populated new_row c = false.
Proof.
  unfold populated. induction cols as [|c0 cols IH]; simpl.
  - split; [discriminate|]. intros [[|b before] [after [E _]]]; discriminate.
  - destruct (Dict.get c0 new_row) as [v|] eqn:G; [destruct (truthy v) eqn:T|].
    + rewrite IH. split.
      * intros [before [after [-> [Hb Hc]]]]. exists (c0 :: before), after.
        repeat split; auto. intros b [<-|Hin]; [now rewrite G | auto].
      * intros [[|b before] [after [E [Hb Hc]]]]; injection E as -> ->.
        -- rewrite G in Hc. congruence.
        -- exists before, after. repeat split; auto. intros; apply Hb; now right.
    + split.
      * intros [= <-]. exists [], cols. repeat split; [intros b []|].
        now rewrite G.
      * intros [[|b before] [after [E [Hb Hc]]]]; injection E as -> ->; auto.
        specialize (Hb b (or_introl eq_refl)). rewrite G in Hb. congruence.
    + split.
      * intros [= <-]. exists [], cols. repeat split; [intros b []|].
        now rewrite G.
      * intros [[|b before] [after [E [Hb Hc]]]]; injection E as -> ->; auto.
        specialize (Hb b (or_introl eq_refl)). rewrite G in Hb. congruence.
Qed.

Lemma check_not_null_cases (cols : list string) (new_row : row) :
  check_not_null cols new_row = inr tt
  \/ exists c, In c cols /\ check_not_null cols new_row = inl (NotNullColumnIsMissing c).
Proof.
  induction cols as [|c cols IH]; simpl; auto.
  destruct (Dict.get c new_row) as [v|]; [destruct (truthy v)|]; eauto.
  destruct IH as [H|[c' [Hin H]]]; eauto.
Qed.

Lemma validate_row_run (new_row : row) (s : state) :
  validate_row new_row s
  = (s, check_not_null (get_not_null_columns (current_dwh_table_name s)) new_row).
Proof.
  unfold validate_row. run.
  now destruct (check_not_null _ _).
Qed.

(** *** The translation cache *)

Local Arguments add_row_to_batch : simpl never.
Local Arguments fill_missing : simpl never.

Lemma is_in_app (x : value) (d l : list (value * value)) :
  is_in x (d ++ l) = is_in x d || is_in x l.
Proof. apply existsb_app. Qed.

Lemma first_match_app_hit (x : value) (d l : list (value * value)) :
  is_in x d = true -> first_match x (d ++ l) = first_match x d.
Proof.
  unfold is_in. induction d as [|[k v] d IH]; simpl; [discriminate|].
  destruct (py_eq k x); auto.
Qed.

Lemma first_match_app_miss (x : value) (d l : list (value * value)) :
  is_in x d = false -> first_match x (d ++ l) = first_match x l.
Proof.
  unfold is_in. induction d as [|[k v] d IH]; simpl; auto.
  destruct (py_eq k x); [discriminate | auto].
Qed.

Lemma py_eq_str_refl (w : string) : py_eq (VStr w) (VStr w) = true.
Proof. apply String.eqb_refl. Qed.

(** A word found in the dictionary in memory: nothing changes. *)
Lemma translate_word_hit (w : string) (s : state) (d : list (value * value)) :
  dwh_dictionary s = Some d -> is_in (VStr w) d = true ->
  translate_word w s = (s, inr (first_match (VStr w) d)).
Proof.
  intros Hd Hin. unfold translate_word, load_dictionary. run.
  rewrite Hd. simpl. now rewrite Hin.
Qed.

(** Replaces a call of [add_row_to_batch] by the state it leaves, keeping
    what is known of that state. *)
Ltac run_add_row :=
  match goal with
  | |- context [add_row_to_batch ?r ?t ?s] =>
      let s' := fresh "s" in
      let Hret := fresh "Hret" in
      let Henq := fresh "Henq" in
      let Hkeep := fresh "Hkeep" in
      let Hque := fresh "Hque" in
      let Hwri := fresh "Hwri" in
      pose proof (add_row_to_batch_returns r t s) as Hret;
      pose proof (fun t' => enqueued_add_row r t t' s) as Henq;
      pose proof (add_row_keeps r t s) as Hkeep;
      pose proof (fun t' => @get_que_add_row r t t' s) as Hque;
      pose proof (fun t' => written_add_row r t t' s) as Hwri;
      unfold exec, outcome in Hret, Henq, Hkeep, Hque, Hwri;
      destruct (add_row_to_batch r t s) as [s' [?|[]]];
      cbn [fst snd] in Hret, Henq, Hkeep, Hque, Hwri; [discriminate Hret|];
      clear Hret;
      destruct Hkeep as (?Hdic & ?Henc & ?Horg & ?Hdwh & ?Htra & ?Hlog)
  end.

Lemma load_dictionary_run (s : state) :
  load_dictionary s
  = (match dwh_dictionary s with
     | Some _ => s
     | None => set_dwh_dictionary stored_dictionary s
     end, inr (loaded_dictionary s)).
Proof.
  unfold load_dictionary, loaded_dictionary. run.
  now destruct (dwh_dictionary s).
Qed.

(** What a lookup does, by whether the dictionary it consults has the word. *)
Lemma translate_word_run (w : string) (s : state) :
  let d := loaded_dictionary s in
  let s' := exec (translate_word w) s in
  if is_in (VStr w) d
  then outcome (translate_word w) s = inr (first_match (VStr w) d)
       /\ dwh_dictionary s' = Some d
       /\ translated s' = translated s
       /\ (forall t, enqueued t s' = enqueued t s)
  else outcome (translate_word w) s = inr (VStr (translate w))
       /\ dwh_dictionary s' = Some (d ++ [(VStr w, VStr (translate w))])
       /\ translated s' = translated s ++ [w]
       /\ (forall t, enqueued t s'
             = if String.eqb t "dictionary"
               then enqueued "dictionary" s
                    ++ [fill_missing (get_columns "dictionary")
                          [("he", VStr w); ("en", VStr (translate w))]]
               else enqueued t s).
Proof.
  cbv zeta. unfold translate_word, exec, outcome.
  rewrite !(@bind_ok _ _ _ _ _ _ _ (load_dictionary_run s)).
  destruct (is_in (VStr w) (loaded_dictionary s)) eqn:Hin.
  - unfold loaded_dictionary. destruct (dwh_dictionary s) eqn:Hd; simpl; auto.
  - unfold bind, modify. run_add_row. cbn [fst snd ret].
    unfold loaded_dictionary in *.
    destruct (dwh_dictionary s) eqn:Hd; simpl in *; repeat split; auto;
      intros t; rewrite Henq; destruct (String.eqb t "dictionary"); auto.
Qed.

Lemma translate_word_keeps (w : string) (s : state) :
  let s' := exec (translate_word w) s in
  current_dwh_table_name s' = current_dwh_table_name s
  /\ current_org_table_name s' = current_org_table_name s
  /\ encounters s' = encounters s.
Proof.
  cbv zeta. unfold translate_word, exec.
  rewrite !(@bind_ok _ _ _ _ _ _ _ (load_dictionary_run s)).
  destruct (is_in (VStr w) (loaded_dictionary s)) eqn:Hin.
  - destruct (dwh_dictionary s); simpl; auto.
  - unfold bind, modify. run_add_row. cbn [fst snd ret].
    destruct (dwh_dictionary s); simpl in *; auto.
Qed.

Lemma translate_word_returns (w : string) (s : state) :
  exists e, outcome (translate_word w) s = inr e.
Proof.
  pose proof (translate_word_run w s) as H. cbv zeta in H.
  destruct (is_in _ _); destruct H as [H _]; eauto.
Qed.

Lemma translate_value_returns (v : value) (s : state) :
  exists v', outcome (translate_value v) s = inr v'
             /\ (is_hebrew_text v = false -> v' = v).
Proof.
  unfold translate_value.
  destruct v as [| |w|n|d|d t]; simpl; try (eexists; split; reflexivity).
  destruct (contains_hebrew w).
  - destruct (translate_word_returns w s) as [e H]. exists e. split; [auto | discriminate].
  - eexists; split; reflexivity.
Qed.

Lemma translate_items_run (items acc : row) (s : state) :
  NoDup (Dict.keys acc ++ Dict.keys items) ->
  exists items',
    outcome (translate_items items acc) s = inr (acc ++ items')
    /\ Forall2 translated_item items items'.
Proof.
  revert acc s. induction items as [|[k v] items IH]; intros acc s ND; simpl.
  - exists []. rewrite app_nil_r. split; [reflexivity | constructor].
  - destruct (translate_value_returns v s) as [v' [Hv Hkeep]].
    unfold outcome in Hv, IH |- *. unfold bind.
    destruct (translate_value v s) as [s1 r]. simpl in Hv. subst r.
    assert (Hfresh : Dict.mem k acc = false).
    { destruct (Dict.mem k acc) eqn:E; auto. apply mem_In_keys in E.
      simpl in ND. apply NoDup_remove_2 in ND. exfalso. apply ND.
      apply in_or_app. now left. }
    rewrite (set_snoc k v' acc Hfresh).
    destruct (IH (acc ++ [(k, v')]) s1) as [items' [Hrun Hitems]].
    { unfold Dict.keys in ND |- *. rewrite map_app. simpl. now rewrite <- app_assoc. }
    exists ((k, v') :: items'). rewrite Hrun. split.
    + now rewrite <- app_assoc.
    + constructor; auto. split; auto.
Qed.

Lemma translated_items_keys (items items' : row) :
  Forall2 translated_item items items' -> Dict.keys items' = Dict.keys items.
Proof.
  unfold Dict.keys. induction 1 as [|x y l l' [Hk _] _ IH]; simpl; congruence.
Qed.

Lemma translated_items_get (items items' : row) (k : string) (v : value) :
  Forall2 translated_item items items' ->
  Dict.get k items = Some v -> is_hebrew_text v = false ->
  Dict.get k items' = Some v.
Proof.
  induction 1 as [|[k0 v0] [k1 v1] l l' [Hk Hv] _ IH]; simpl; auto.
  simpl in Hk, Hv. subst k1.
  destruct (String.eqb k k0); auto.
  intros [= ->] Hh. now rewrite Hv.
Qed.

(** Later states of a run only add entries to the dictionary in memory. *)
Lemma dictionary_extends_refl (s : state) : dictionary_extends s s.
Proof. intros d H. exists []. now rewrite app_nil_r. Qed.

Lemma dictionary_extends_trans (s1 s2 s3 : state) :
  dictionary_extends s1 s2 -> dictionary_extends s2 s3 -> dictionary_extends s1 s3.
Proof.
  intros H12 H23 d Hd. destruct (H12 d Hd) as [x Hx].
  destruct (H23 _ Hx) as [y Hy]. exists (x ++ y). now rewrite app_assoc.
Qed.

Lemma dictionary_extends_same (s s' : state) :
  dwh_dictionary s' = dwh_dictionary s -> dictionary_extends s s'.
Proof. intros E d H. exists []. now rewrite app_nil_r, E. Qed.

Lemma dictionary_extends_translate_word (w : string) :
  ensures dictionary_extends (translate_word w).
Proof.
  intros s d Hd. pose proof (translate_word_run w s) as H. cbv zeta in H.
  unfold loaded_dictionary in H. rewrite Hd in H.
  destruct (is_in _ _); destruct H as (_ & H & _); rewrite H.
  - exists []. now rewrite app_nil_r.
  - eauto.
Qed.

Lemma dictionary_extends_add_row (r : row) (t : string) :
  ensures dictionary_extends (add_row_to_batch r t).
Proof. intros s. apply dictionary_extends_same, add_row_keeps. Qed.

Lemma dictionary_extends_row (org_row : row) :
  ensures dictionary_extends (process_org_row_into_dwh org_row).
Proof.
  apply ensures_process_org_row_into_dwh.
  - apply dictionary_extends_refl.
  - apply dictionary_extends_trans.
  - intros r. apply ensures_bind;
      [apply dictionary_extends_trans | apply ensures_read, dictionary_extends_refl |].
    intros; apply dictionary_extends_add_row.
  - intros; apply dictionary_extends_add_row.
  - intros msg s. now apply dictionary_extends_same.
  - apply dictionary_extends_translate_word.
  - intros mc. unfold add_encounter_num, load_encounters.
    repeat first
      [ apply ensures_ret; exact dictionary_extends_refl
      | apply ensures_read; exact dictionary_extends_refl
      | apply ensures_lift; exact dictionary_extends_refl
      | apply dictionary_extends_add_row
      | (intros s; now apply dictionary_extends_same)
      | apply ensures_bind; [exact dictionary_extends_trans | | intros]
      | match goal with |- ensures _ (match ?x with _ => _ end) => destruct x end ].
  - intros t s. now apply dictionary_extends_same.
Qed.

(** *** The exception recorder *)

Lemma write_to_log_file_run (msg : string) (s : state) :
  write_to_log_file msg s
  = (set_log_file
       (log_file s ++ str_of_value (VInt (next_log_index s)) ++ ". " ++ msg)%string s,
     inr (next_log_index s)).
Proof. reflexivity. Qed.

(** Recording a failure enqueues one record for the [exceptions] table and
    leaves every other table, the dictionary and the encounters alone. *)
Lemma handle_exception_run (org_row new_row : row) (e : exn) (s : state) :
  recoverable e = true ->
  let s' := exec (handle_exception org_row new_row e) s in
  outcome (handle_exception org_row new_row e) s = inr tt
  /\ (forall t, enqueued t s'
        = if String.eqb t "exceptions"
          then enqueued "exceptions" s ++ [recorded s new_row e]
          else enqueued t s)
  /\ same_but_exceptions s' s.
Proof.
  intros Hrec. cbv zeta. unfold handle_exception, exec, outcome, recorded.
  unfold bind, read. destruct e; try discriminate Hrec;
    rewrite write_to_log_file_run; cbn [ret fst snd];
    run_add_row; cbn [fst snd]; simpl in *;
    (split; [reflexivity|]); (split; [exact Henq|]);
    unfold same_but_exceptions; simpl; repeat split; auto;
    rewrite Hwri; apply String.eqb_neq in H; now rewrite H.
Qed.

Lemma handle_exception_only_exceptions (org_row new_row : row) (e : exn) (s : state) :
  same_but_exceptions (exec (handle_exception org_row new_row e) s) s
  /\ outcome (handle_exception org_row new_row e) s = inr tt.
Proof.
  destruct (recoverable e) eqn:Hrec.
  - destruct (handle_exception_run org_row new_row e s Hrec) as (H1 & _ & H3). auto.
  - unfold handle_exception, exec, outcome, bind, read.
    destruct e; try discriminate Hrec; simpl;
      unfold same_but_exceptions; auto 10.
Qed.

(** *** States that differ in the exceptions only *)

Lemma same_but_exceptions_refl (s : state) : same_but_exceptions s s.
Proof. unfold same_but_exceptions. auto 10. Qed.

Lemma same_but_exceptions_sym (s1 s2 : state) :
  same_but_exceptions s1 s2 -> same_but_exceptions s2 s1.
Proof.
  unfold same_but_exceptions. intros (H1 & H2 & H3 & H4 & H5 & H6).
  repeat split; auto; destruct (H6 t H); auto.
Qed.

Lemma same_but_exceptions_trans (s1 s2 s3 : state) :
  same_but_exceptions s1 s2 -> same_but_exceptions s2 s3 -> same_but_exceptions s1 s3.
Proof.
  unfold same_but_exceptions.
  intros (H1 & H2 & H3 & H4 & H5 & H6) (K1 & K2 & K3 & K4 & K5 & K6).
  repeat split; try congruence;
    destruct (H6 t H), (K6 t H); congruence.
Qed.

Lemma blind_ret {A} (a : A) : blind_to_exceptions (ret a).
Proof. intros s1 s2 H. auto. Qed.

Lemma blind_raise {A} (e : exn) : blind_to_exceptions (@raise A e).
Proof. intros s1 s2 H. auto. Qed.

Lemma blind_lift {A} (r : exn + A) : blind_to_exceptions (lift r).
Proof. destruct r; [apply blind_raise | apply blind_ret]. Qed.

Lemma blind_read {A} (f : state -> A) :
  (forall s1 s2, same_but_exceptions s1 s2 -> f s1 = f s2) ->
  blind_to_exceptions (read f).
Proof.
  intros Hf s1 s2 H. split; [exact H|].
  unfold outcome, read. simpl. f_equal. auto.
Qed.

Lemma blind_modify (f : state -> state) :
  (forall s1 s2, same_but_exceptions s1 s2 -> same_but_exceptions (f s1) (f s2)) ->
  blind_to_exceptions (modify f).
Proof. intros Hf s1 s2 H. split; [now apply Hf | reflexivity]. Qed.

Lemma blind_bind {A B} (m : M A) (f : A -> M B) :
  blind_to_exceptions m -> (forall a, blind_to_exceptions (f a)) ->
  blind_to_exceptions (bind m f).
Proof.
  intros Hm Hf s1 s2 H. destruct (Hm s1 s2 H) as [Hs Ho].
  unfold exec, outcome, bind in *.
  destruct (m s1) as [s1' [e1|a1]], (m s2) as [s2' [e2|a2]];
    simpl in *; try discriminate; injection Ho as <-.
  - auto.
  - now apply Hf.
Qed.

Lemma blind_try_except {A} (m : M A) (caught : exn -> bool) (h : exn -> M A) :
  blind_to_exceptions m -> (forall e, blind_to_exceptions (h e)) ->
  blind_to_exceptions (try_except m caught h).
Proof.
  intros Hm Hh s1 s2 H. destruct (Hm s1 s2 H) as [Hs Ho].
  unfold exec, outcome, try_except in *.
  destruct (m s1) as [s1' [e1|a1]], (m s2) as [s2' [e2|a2]];
    simpl in *; try discriminate; injection Ho as <-.
  - destruct (caught e1); auto. now apply Hh.
  - auto.
Qed.

Lemma blind_for_each {A} (l : list A) (body : A -> M unit) :
  (forall x, blind_to_exceptions (body x)) -> blind_to_exceptions (for_each l body).
Proof.
  intros Hb. induction l as [|x l IH]; simpl.
  - apply blind_ret.
  - apply blind_bind; auto.
Qed.

Lemma get_que_add_row_same (r : row) (t : string) (s : state) :
  Dict.get t (batch_que (exec (add_row_to_batch r t) s))
  = Some (let rows := queued t s ++ [fill_missing (get_columns t) r] in
          if (que_limit <=? length rows)%nat then [] else rows).
Proof.
  unfold add_row_to_batch, queued. run.
  destruct (negb (t =? "exceptions")%string); simpl;
    destruct (Dict.get t (batch_que s)) as [q|] eqn:G; simpl;
    case_limit; simpl; now rewrite ?get_set_same.
Qed.

Lemma add_row_exceptions_only (r : row) (s : state) :
  same_but_exceptions (exec (add_row_to_batch r "exceptions") s) s.
Proof.
  destruct (add_row_keeps r "exceptions" s) as (H1 & H2 & H3 & H4 & H5 & _).
  unfold same_but_exceptions. repeat split; auto.
  - now apply get_que_add_row.
  - rewrite written_add_row. apply String.eqb_neq in H. now rewrite H.
Qed.

Lemma blind_add_row (r : row) (t : string) : blind_to_exceptions (add_row_to_batch r t).
Proof.
  intros s1 s2 H. rewrite !add_row_to_batch_returns. split; auto.
  destruct (String.eqb t "exceptions") eqn:E.
  - apply String.eqb_eq in E. subst t.
    eapply same_but_exceptions_trans; [apply add_row_exceptions_only|].
    eapply same_but_exceptions_trans; [exact H|].
    apply same_but_exceptions_sym, add_row_exceptions_only.
  - apply String.eqb_neq in E.
    destruct (add_row_keeps r t s1) as (A1 & A2 & A3 & A4 & A5 & _).
    destruct (add_row_keeps r t s2) as (B1 & B2 & B3 & B4 & B5 & _).
    destruct H as (H1 & H2 & H3 & H4 & H5 & H6).
    unfold same_but_exceptions. repeat split; try congruence.
    + destruct (String.eqb t0 t) eqn:Et.
      * apply String.eqb_eq in Et. subst t0.
        rewrite !get_que_add_row_same. unfold queued.
        destruct (H6 t E) as [-> _]. reflexivity.
      * apply String.eqb_neq in Et. rewrite !get_que_add_row by assumption.
        now apply H6.
    + rewrite !written_add_row. destruct (String.eqb t0 t) eqn:Et.
      * unfold queued. destruct (H6 t E) as [-> ->]. reflexivity.
      * now apply H6.
Qed.

Lemma blind_handle_exception (org_row new_row : row) (e : exn) :
  blind_to_exceptions (handle_exception org_row new_row e).
Proof.
  intros s1 s2 H.
  destruct (handle_exception_only_exceptions org_row new_row e s1) as [A1 ->].
  destruct (handle_exception_only_exceptions org_row new_row e s2) as [A2 ->].
  split; auto.
  eapply same_but_exceptions_trans; [exact A1|].
  eapply same_but_exceptions_trans; [exact H|].
  now apply same_but_exceptions_sym.
Qed.

Ltac same_fields :=
  let H := fresh in
  intros ? ? H; unfold same_but_exceptions in *;
  destruct H as (? & ? & ? & ? & ? & ?); simpl; repeat split; auto; try congruence;
  unfold written; simpl;
  match goal with
  | Hq : forall t, t <> _ -> _, N : _ <> _ |- _ =>
      destruct (Hq _ N) as [? ?]; unfold written in *; assumption
  end.

Ltac blind_step :=
  first
    [ apply blind_ret
    | apply blind_raise
    | apply blind_lift
    | apply blind_add_row
    | apply blind_handle_exception
    | apply blind_read; same_fields
    | apply blind_modify; same_fields
    | apply blind_bind; [|intros]
    | match goal with
      | |- blind_to_exceptions (match ?x with _ => _ end) => destruct x
      end ].

Lemma blind_translate_word (w : string) : blind_to_exceptions (translate_word w).
Proof. unfold translate_word, load_dictionary. repeat blind_step. Qed.

Lemma blind_translate_items (items acc : row) :
  blind_to_exceptions (translate_items items acc).
Proof.
  revert acc. induction items as [|[k v] items IH]; intros acc; simpl.
  - apply blind_ret.
  - apply blind_bind; [|intros; apply IH].
    unfold translate_value. destruct v; try apply blind_ret.
    destruct (contains_hebrew s); [apply blind_translate_word | apply blind_ret].
Qed.

Lemma blind_validate_and_queue (org_row new_row : row) :
  blind_to_exceptions (validate_and_queue org_row new_row).
Proof.
  unfold validate_and_queue, validate_row, add_row_to_current_batch.
  apply blind_try_except; repeat blind_step.
Qed.

Lemma blind_process_row_by_observation_fact_rules (mandatory_cols org_row : row)
    (catalog_row : catalog_rule) :
  blind_to_exceptions
    (process_row_by_observation_fact_rules mandatory_cols org_row catalog_row).
Proof.
  unfold process_row_by_observation_fact_rules.
  apply blind_bind; [apply blind_lift | intros v].
  destruct (pd_isna v); [apply blind_handle_exception|].
  apply blind_bind; [apply blind_translate_items | intros].
  apply blind_validate_and_queue.
Qed.

Lemma same_but_exceptions_enqueued (s1 s2 : state) (t : string) :
  same_but_exceptions s1 s2 -> t <> "exceptions" -> enqueued t s1 = enqueued t s2.
Proof.
  intros (_ & _ & _ & _ & _ & H) N. destruct (H t N) as [Hq Hw].
  unfold enqueued, queued. now rewrite Hq, Hw.
Qed.

(** A fan-out rule whose source value is missing only records the failure. *)
Lemma missing_source_value_run (mandatory_cols org_row : row)
    (catalog_row : catalog_rule) (v : value) (s : state) :
  Dict.get (column_name catalog_row) org_row = Some v -> pd_isna v = true ->
  process_row_by_observation_fact_rules mandatory_cols org_row catalog_row s
  = handle_exception org_row mandatory_cols
      (OriginalDataFieldIsMissing (column_name catalog_row)) s.
Proof.
  intros G N. unfold process_row_by_observation_fact_rules, org_value.
  rewrite G. unfold lift, bind, ret. now rewrite N.
Qed.

(** ** The properties of the specification *)

(** C7. The validator leaves the state alone and succeeds exactly when every
    NOT-NULL column the storage reports for the current target table is in
    the row with a truthy value; otherwise it raises
    [NotNullColumnIsMissing] for the first such column, in the reported
    order, that is absent or falsy. The empty string and the number zero
    are falsy. *)
Theorem validate_row_first_missing (new_row : row) (s : state) :
  let table := current_dwh_table_name s in
  let cols := get_not_null_columns table in
  (forall c, In c cols <->
     exists info, In info (inspector_columns table)
                  /\ col_name info = c /\ nullable info = false)
  /\ exec (validate_row new_row) s = s
  /\ (outcome (validate_row new_row) s = inr tt
      <-> forall c, In c cols ->
            exists v, Dict.get c new_row = Some v /\ truthy v = true)
  /\ (forall c,
        outcome (validate_row new_row) s = inl (NotNullColumnIsMissing c)
        <-> exists before after,
              cols = before ++ c :: after
              /\ (forall b, In b before -> populated new_row b = true)
              /\ populated new_row c = false)
  /\ (outcome (validate_row new_row) s = inr tt
      \/ exists c, In c cols
           /\ outcome (validate_row new_row) s = inl (NotNullColumnIsMissing c))
  /\ truthy (VStr "") = false
  /\ truthy (VInt 0) = false.
Proof.
  cbv zeta. unfold exec, outcome. rewrite validate_row_run. cbn [fst snd].
  split; [|split; [reflexivity|split; [|split; [|split; [|split; reflexivity]]]]].
  - intros c. unfold get_not_null_columns. rewrite in_map_iff. split.
    + intros [info [E H]]. apply filter_In in H. destruct H as [H N].
      exists info. repeat split; auto. now destruct (nullable info).
    + intros [info [H [E N]]]. exists info. split; auto.
      apply filter_In. split; auto. now rewrite N.
  - rewrite check_not_null_ok. unfold populated. split; intros H c Hc.
    + specialize (H c Hc). destruct (Dict.get c new_row); [eauto | discriminate].
    + destruct (H c Hc) as [v [-> T]]. exact T.
  - intros c. apply check_not_null_first.
  - apply check_not_null_cases.
Qed.

(** C9. [translate_heb_words] never fails and returns a row with the keys
    of its input, in the same order; a value that is not a string with a
    Hebrew letter is returned unchanged under its key. *)
Theorem translate_heb_words_frame (r : row) (s : state) :
  Dict.wf r ->
  exists r',
    outcome (translate_heb_words r) s = inr r'
    /\ Dict.keys r' = Dict.keys r
    /\ Forall2 translated_item r r'
    /\ forall k v, Dict.get k r = Some v -> is_hebrew_text v = false ->
         Dict.get k r' = Some v.
Proof.
  intros W. destruct (@translate_items_run r [] s W) as [r' [Hrun Hitems]].
  exists r'. repeat split; auto.
  - now apply translated_items_keys.
  - intros k v. now apply translated_items_get.
Qed.

(** C8. Translating a Hebrew text calls the remote service at most once, and
    only when the dictionary in memory lacks the text; the pair is then
    added at the end of that dictionary and enqueued for the [dictionary]
    table. Any later translation of the same text in the run finds it in
    memory: it returns the same result and changes nothing, so it neither
    calls the service nor enqueues a row. *)
Theorem translation_called_once (w k k' : string) (s : state) :
  contains_hebrew w = true ->
  let first := translate_heb_words [(k, VStr w)] in
  let s1 := exec first s in
  let d := loaded_dictionary s in
  exists e,
    outcome first s = inr [(k, e)]
    /\ (if is_in (VStr w) d
        then e = first_match (VStr w) d
             /\ translated s1 = translated s
             /\ dwh_dictionary s1 = Some d
             /\ enqueued "dictionary" s1 = enqueued "dictionary" s
        else e = VStr (translate w)
             /\ translated s1 = translated s ++ [w]
             /\ dwh_dictionary s1 = Some (d ++ [(VStr w, e)])
             /\ enqueued "dictionary" s1
                = enqueued "dictionary" s
                  ++ [fill_missing (get_columns "dictionary")
                        [("he", VStr w); ("en", e)]])
    /\ forall s2, dictionary_extends s1 s2 ->
         translate_heb_words [(k', VStr w)] s2 = (s2, inr [(k', e)]).
Proof.
  intros Hw. cbv zeta.
  unfold translate_heb_words, translate_items, translate_value. rewrite Hw.
  pose proof (translate_word_run w s) as H. cbv zeta in H.
  unfold exec, outcome, bind in *.
  destruct (translate_word w s) as [s1 [x|e]] eqn:Hrun; cbn [fst snd] in *.
  { destruct (is_in _ _); destruct H as [H _]; discriminate H. }
  exists e. split; [reflexivity|].
  assert (Hmem : exists d1, dwh_dictionary s1 = Some d1
                            /\ is_in (VStr w) d1 = true
                            /\ first_match (VStr w) d1 = e).
  { destruct (is_in (VStr w) (loaded_dictionary s)) eqn:Hin;
      destruct H as (He & Hd & _); injection He as ->; eexists; split; eauto.
    split.
    - rewrite is_in_app. simpl. rewrite ?py_eq_str_refl, ?String.eqb_refl.
      apply orb_true_r.
    - rewrite first_match_app_miss by assumption. simpl.
      now rewrite ?py_eq_str_refl, ?String.eqb_refl. }
  split.
  - destruct (is_in (VStr w) (loaded_dictionary s));
      destruct H as (He & Hd & Ht & Hq); injection He as ->;
      repeat split; auto; now rewrite Hq.
  - intros s2 Hext. destruct Hmem as (d1 & Hd1 & Hin & Hfirst).
    destruct (Hext d1 Hd1) as [extra Hd2].
    rewrite (@translate_word_hit w s2 (d1 ++ extra) Hd2).
    + cbn [ret]. rewrite first_match_app_hit by assumption. now rewrite Hfirst.
    + rewrite is_in_app, Hin. reflexivity.
Qed.

Lemma recorded_org_col (s : state) (new_row : row) (e : exn) :
  Dict.get "org_col" (recorded s new_row e) = Some (org_col_of e)
  /\ Dict.get "target_col" (recorded s new_row e) = Some (target_col_of e)
  /\ Dict.get "target_table" (recorded s new_row e)
     = Some (VStr (current_dwh_table_name s)).
Proof.
  unfold recorded. repeat split; apply fill_missing_keeps; reflexivity.
Qed.

Lemma skipping_missing_source_value (mandatory_cols org_row : row)
    (before after : list catalog_rule) (catalog_row : catalog_rule) (v : value)
    (s : state) :
  Dict.get (column_name catalog_row) org_row = Some v -> pd_isna v = true ->
  let rule := process_row_by_observation_fact_rules mandatory_cols org_row in
  same_but_exceptions
    (exec (for_each (before ++ catalog_row :: after) rule) s)
    (exec (for_each (before ++ after) rule) s)
  /\ outcome (for_each (before ++ catalog_row :: after) rule) s
     = outcome (for_each (before ++ after) rule) s.
Proof.
  intros G N rule. unfold exec, outcome. rewrite !for_each_app. unfold bind.
  destruct (for_each before rule s) as [s1 [e|[]]]; cbn [fst snd].
  - split; [apply same_but_exceptions_refl | reflexivity].
  - assert (Hr : exists s2, rule catalog_row s1 = (s2, inr tt)
                            /\ same_but_exceptions s2 s1).
    { unfold rule.
      rewrite (missing_source_value_run mandatory_cols org_row catalog_row s1 G N).
      destruct (handle_exception_only_exceptions org_row mandatory_cols
                  (OriginalDataFieldIsMissing (column_name catalog_row)) s1)
        as [Hs Ho].
      unfold exec, outcome in Hs, Ho.
      destruct (handle_exception _ _ _ s1) as [s2 [e|[]]]; cbn [fst snd] in *;
        [discriminate Ho|]. eauto. }
    destruct Hr as (s2 & Hr & Hs).
    simpl for_each. unfold bind. rewrite Hr.
    apply (blind_for_each after rule); auto.
    intros x. apply blind_process_row_by_observation_fact_rules.
Qed.

(** A fan-out rule whose source field is null records
    [OriginalDataFieldIsMissing] for that field, as one row for the
    [exceptions] table, and enqueues nothing else; the rules before and
    after it enqueue, in every table but [exceptions], exactly the rows they
    enqueue when the rule is not there, and the run over the rules ends the
    same way. *)
Lemma null_rule_is_skipped (mandatory_cols org_row : row)
    (before after : list catalog_rule) (catalog_row : catalog_rule) (v : value)
    (s : state) :
  Dict.get (column_name catalog_row) org_row = Some v -> pd_isna v = true ->
  let rule := process_row_by_observation_fact_rules mandatory_cols org_row in
  let failure := OriginalDataFieldIsMissing (column_name catalog_row) in
  (forall s0,
     outcome (rule catalog_row) s0 = inr tt
     /\ Dict.get "org_col" (recorded s0 mandatory_cols failure)
        = Some (VStr (column_name catalog_row))
     /\ forall t, enqueued t (exec (rule catalog_row) s0)
          = if String.eqb t "exceptions"
            then enqueued "exceptions" s0 ++ [recorded s0 mandatory_cols failure]
            else enqueued t s0)
  /\ outcome (for_each (before ++ catalog_row :: after) rule) s
     = outcome (for_each (before ++ after) rule) s
  /\ forall t, t <> "exceptions" ->
       enqueued t (exec (for_each (before ++ catalog_row :: after) rule) s)
       = enqueued t (exec (for_each (before ++ after) rule) s).
Proof.
  intros G N rule failure. split; [|split].
  - intros s0. unfold rule, exec, outcome.
    rewrite (missing_source_value_run mandatory_cols org_row catalog_row s0 G N).
    destruct (@handle_exception_run org_row mandatory_cols failure s0 eq_refl)
      as (Ho & Henq & _).
    split; [exact Ho|]. split; [apply recorded_org_col | exact Henq].
  - apply (skipping_missing_source_value mandatory_cols org_row before after
             catalog_row s G N).
  - intros t Ht. apply same_but_exceptions_enqueued; auto.
    apply (skipping_missing_source_value mandatory_cols org_row before after
             catalog_row s G N).
Qed.

(** *** Mandatory columns *)

Lemma fill_mandatory_first_missing (before after : list catalog_rule)
    (catalog_row : catalog_rule) (org_row acc : row) (v : value) :
  (forall b, In b before ->
     exists w, Dict.get (column_name b) org_row = Some w /\ pd_notna w = true) ->
  Dict.get (column_name catalog_row) org_row = Some v -> pd_isna v = true ->
  fill_mandatory (before ++ catalog_row :: after) org_row acc
  = inl (MandatoryFieldMissing (column_name catalog_row)).
Proof.
  intros Hb G N. revert acc. induction before as [|b before IH]; intros acc; simpl.
  - unfold org_value. rewrite G. unfold pd_notna. now rewrite N.
  - destruct (Hb b (or_introl eq_refl)) as [w [Gw Nw]].
    unfold org_value. rewrite Gw, Nw. apply IH. intros; apply Hb; now right.
Qed.

Lemma fill_mandatory_wf (rules : list catalog_rule) (org_row acc acc' : row) :
  Dict.wf acc -> fill_mandatory rules org_row acc = inr acc' -> Dict.wf acc'.
Proof.
  revert acc. induction rules as [|r rules IH]; intros acc W; simpl.
  - now intros [= <-].
  - destruct (org_value org_row (column_name r)) as [e|v]; [discriminate|].
    destruct (pd_notna v); [|discriminate].
    apply IH. now apply wf_set.
Qed.

Lemma process_pair_missing (org_row : row) (org_table dwh_table c : string)
    (s : state) :
  get_mandatory_cols (rules_of_pair org_table dwh_table) org_row
  = inl (MandatoryFieldMissing c) ->
  process_pair org_row org_table dwh_table s
  = handle_exception org_row [] (MandatoryFieldMissing c)
      (set_current_dwh_table_name dwh_table s).
Proof.
  intros H. unfold process_pair. rewrite H. reflexivity.
Qed.

(** When the first mandatory rule of a (source table, target table) pair
    whose source column holds a null value ([None] or [nan]) is
    [catalog_row], [get_mandatory_cols] raises [MandatoryFieldMissing]
    naming that column; the pair then enqueues one record for the
    [exceptions] table, naming the column and the target table, and no row
    for any other table; it ends normally, so that the loop over the target
    tables of the source row goes on with the remaining tables. *)
Lemma null_mandatory_field_skips_pair (org_row : row) (org_table dwh_table : string)
    (before after : list catalog_rule) (catalog_row : catalog_rule) (v : value) :
  filter is_mandatory (rules_of_pair org_table dwh_table)
  = before ++ catalog_row :: after ->
  (forall b, In b before ->
     exists w, Dict.get (column_name b) org_row = Some w /\ pd_notna w = true) ->
  Dict.get (column_name catalog_row) org_row = Some v -> pd_isna v = true ->
  let failure := MandatoryFieldMissing (column_name catalog_row) in
  let pair := process_pair org_row org_table in
  get_mandatory_cols (rules_of_pair org_table dwh_table) org_row = inl failure
  /\ (forall s,
        let record := recorded (set_current_dwh_table_name dwh_table s) [] failure in
        outcome (pair dwh_table) s = inr tt
        /\ Dict.get "org_col" record = Some (VStr (column_name catalog_row))
        /\ Dict.get "target_table" record = Some (VStr dwh_table)
        /\ forall t, enqueued t (exec (pair dwh_table) s)
             = if String.eqb t "exceptions"
               then enqueued "exceptions" s ++ [record]
               else enqueued t s)
  /\ (forall done rest s,
        current_org_table_name s = org_table ->
        target_tables org_table = done ++ dwh_table :: rest ->
        outcome (for_each done pair) s = inr tt ->
        process_org_row_into_dwh org_row s
        = for_each rest pair (exec (pair dwh_table) (exec (for_each done pair) s))).
Proof.
  intros Hrules Hb G N failure pair.
  assert (Hfail : get_mandatory_cols (rules_of_pair org_table dwh_table) org_row
                  = inl failure).
  { unfold get_mandatory_cols. rewrite Hrules.
    now apply fill_mandatory_first_missing with (v := v). }
  assert (Hpair : forall s,
             let record := recorded (set_current_dwh_table_name dwh_table s) [] failure in
             outcome (pair dwh_table) s = inr tt
             /\ Dict.get "org_col" record = Some (VStr (column_name catalog_row))
             /\ Dict.get "target_table" record = Some (VStr dwh_table)
             /\ forall t, enqueued t (exec (pair dwh_table) s)
                  = if String.eqb t "exceptions"
                    then enqueued "exceptions" s ++ [record]
                    else enqueued t s).
  { intros s record. unfold pair, exec, outcome.
    rewrite (process_pair_missing org_row org_table dwh_table s Hfail).
    destruct (@handle_exception_run org_row [] failure
                (set_current_dwh_table_name dwh_table s) eq_refl) as (Ho & Henq & _).
    split; [exact Ho|]. split; [apply recorded_org_col|].
    split; [apply recorded_org_col | exact Henq]. }
  split; [exact Hfail | split; [exact Hpair|]].
  intros done rest s Horg Htables Hdone.
  unfold process_org_row_into_dwh, bind at 1, read. cbn [fst snd].
  rewrite Horg, Htables, for_each_app. fold pair.
  unfold bind at 1. unfold exec, outcome in *.
  destruct (for_each done pair s) as [s1 [e|[]]]; cbn [fst snd] in *;
    [discriminate Hdone|].
  simpl for_each. unfold bind at 1.
  destruct (Hpair s1) as [Ho _]. unfold outcome in Ho.
  destruct (pair dwh_table s1) as [s2 [e|[]]]; cbn [fst snd] in *;
    [discriminate Ho | reflexivity].
Qed.

(** *** The fan-out rules of the observation transformer *)

Lemma validate_and_queue_run (org_row new_row : row) (s : state) :
  validate_and_queue org_row new_row s
  = match check_not_null (get_not_null_columns (current_dwh_table_name s)) new_row with
    | inr _ => add_row_to_batch new_row (current_dwh_table_name s) s
    | inl e => handle_exception org_row new_row e s
    end.
Proof.
  unfold validate_and_queue, try_except, bind, add_row_to_current_batch.
  rewrite validate_row_run. unfold read, bind.
  destruct (check_not_null_cases
              (get_not_null_columns (current_dwh_table_name s)) new_row)
    as [H|[c [_ H]]]; rewrite H; cbn [fst snd]; auto.
  pose proof (add_row_to_batch_returns new_row (current_dwh_table_name s) s) as Hr.
  unfold outcome in Hr.
  destruct (add_row_to_batch new_row (current_dwh_table_name s) s) as [s1 [e|[]]];
    [discriminate Hr | reflexivity].
Qed.

Lemma translate_heb_words_only_dictionary (r : row) :
  ensures only_dictionary (translate_heb_words r).
Proof.
  apply ensures_translate_heb_words.
  - intros s. unfold only_dictionary. auto.
  - intros s1 s2 s3 (A1 & A2 & A3 & A4) (B1 & B2 & B3 & B4).
    unfold only_dictionary. repeat split; try congruence.
    intros t Ht. rewrite B4, A4; auto.
  - intros w s. pose proof (translate_word_run w s) as H. cbv zeta in H.
    destruct (translate_word_keeps w s) as (K1 & K2 & K3).
    repeat split; auto.
    intros t Ht. apply String.eqb_neq in Ht.
    destruct (is_in (VStr w) (loaded_dictionary s));
      destruct H as (_ & _ & _ & H); rewrite H; auto. now rewrite Ht.
Qed.

Lemma translate_heb_words_returns (r : row) (s : state) :
  exists r', outcome (translate_heb_words r) s = inr r'.
Proof.
  unfold translate_heb_words. generalize (@nil (string * value)) as acc.
  revert s. induction r as [|[k v] r IH]; intros s acc; simpl.
  - eexists. reflexivity.
  - destruct (translate_value_returns v s) as [v' [Hv _]].
    unfold outcome, bind in *.
    destruct (translate_value v s) as [s1 x]. simpl in Hv. subst x. apply IH.
Qed.

Lemma handle_exception_keeps_current (org_row new_row : row) (e : exn) (s : state) :
  current_dwh_table_name (exec (handle_exception org_row new_row e) s)
  = current_dwh_table_name s.
Proof.
  destruct (handle_exception_only_exceptions org_row new_row e s)
    as [(_ & _ & _ & H & _) _]. exact H.
Qed.

Lemma handle_exception_enqueued (org_row new_row : row) (e : exn) (s : state)
    (t : string) :
  t <> "exceptions" ->
  enqueued t (exec (handle_exception org_row new_row e) s) = enqueued t s.
Proof.
  intros Ht. apply same_but_exceptions_enqueued; auto.
  apply handle_exception_only_exceptions.
Qed.

Lemma handle_exception_returns (org_row new_row : row) (e : exn) (s : state) :
  outcome (handle_exception org_row new_row e) s = inr tt.
Proof. apply handle_exception_only_exceptions. Qed.

(** A fan-out rule with a source value: the assembled row is translated,
    and enqueued for the observation table when it passes validation. *)
Lemma fan_out_rule_run (mandatory_cols org_row : row) (catalog_row : catalog_rule)
    (v : value) (s : state) :
  Dict.get (column_name catalog_row) org_row = Some v -> pd_isna v = false ->
  current_dwh_table_name s = "observation_fact" ->
  let rule := process_row_by_observation_fact_rules mandatory_cols org_row catalog_row in
  exists new_row,
    outcome (translate_heb_words (assemble mandatory_cols catalog_row v)) s
    = inr new_row
    /\ outcome rule s = inr tt
    /\ current_dwh_table_name (exec rule s) = "observation_fact"
    /\ enqueued "encounters" (exec rule s) = enqueued "encounters" s
    /\ enqueued "observation_fact" (exec rule s)
       = enqueued "observation_fact" s ++ fan_out_rows "observation_fact" new_row.
Proof.
  intros G N Hcur. cbv zeta.
  destruct (translate_heb_words_returns (assemble mandatory_cols catalog_row v) s)
    as [new_row Hnew].
  exists new_row. split; [exact Hnew|].
  unfold process_row_by_observation_fact_rules, org_value. rewrite G.
  unfold exec, outcome, lift, bind at 1 3 5 7, ret at 1 2 3 4. rewrite N.
  unfold bind.
  destruct (translate_heb_words_only_dictionary (assemble mandatory_cols catalog_row v) s)
    as (K1 & K2 & K3 & K4).
  unfold exec, outcome in *.
  destruct (translate_heb_words (assemble mandatory_cols catalog_row v) s)
    as [s1 [e|x]]; cbn [fst snd] in *; [discriminate Hnew|].
  injection Hnew as ->.
  rewrite validate_and_queue_run, K1, Hcur. unfold fan_out_rows.
  destruct (check_not_null (get_not_null_columns "observation_fact") new_row) as [e|[]].
  - pose proof (handle_exception_returns org_row new_row e s1) as Ho.
    pose proof (handle_exception_keeps_current org_row new_row e s1) as Hc.
    pose proof (fun t => @handle_exception_enqueued org_row new_row e s1 t) as Hq.
    unfold exec, outcome in Ho, Hc, Hq.
    rewrite Ho, Hc, !Hq by discriminate.
    rewrite !K4 by discriminate. rewrite app_nil_r. repeat split; congruence.
  - run_add_row. cbn [fst snd]. rewrite !Henq. cbn.
    rewrite !K4 by discriminate. repeat split; congruence.
Qed.

(** Whatever a fan-out rule does, it enqueues at most one row for the
    observation table, the completed translation of the row it assembled,
    and none for the encounters table. *)
Lemma fan_out_rule_rows (mandatory_cols org_row : row) (catalog_row : catalog_rule)
    (s : state) :
  current_dwh_table_name s = "observation_fact" ->
  let rule := process_row_by_observation_fact_rules mandatory_cols org_row catalog_row in
  current_dwh_table_name (exec rule s) = "observation_fact"
  /\ enqueued "encounters" (exec rule s) = enqueued "encounters" s
  /\ exists rows,
       enqueued "observation_fact" (exec rule s) = enqueued "observation_fact" s ++ rows
       /\ (length rows <= 1)%nat
       /\ forall x, In x rows ->
            exists v new_row,
              Dict.get (column_name catalog_row) org_row = Some v
              /\ pd_isna v = false
              /\ outcome (translate_heb_words (assemble mandatory_cols catalog_row v)) s
                 = inr new_row
              /\ x = fill_missing (get_columns "observation_fact") new_row.
Proof.
  intros Hcur. cbv zeta.
  destruct (Dict.get (column_name catalog_row) org_row) as [v|] eqn:G.
  - destruct (pd_isna v) eqn:N.
    + unfold exec.
      rewrite (missing_source_value_run mandatory_cols org_row catalog_row s G N).
      fold (exec (handle_exception org_row mandatory_cols
                    (OriginalDataFieldIsMissing (column_name catalog_row))) s).
      rewrite handle_exception_keeps_current, !handle_exception_enqueued by discriminate.
      repeat split; auto. exists []. rewrite app_nil_r. repeat split; auto.
      intros x [].
    + destruct (fan_out_rule_run mandatory_cols org_row catalog_row s G N Hcur)
        as (new_row & Hnew & _ & H1 & H2 & H3).
      repeat split; auto. exists (fan_out_rows "observation_fact" new_row).
      split; [exact H3|]. unfold fan_out_rows.
      destruct (check_not_null _ new_row); simpl; split; auto.
      * intros x [].
      * intros x [<-|[]]. exists v, new_row. auto.
  - unfold process_row_by_observation_fact_rules, org_value, exec. rewrite G.
    simpl. repeat split; auto. exists []. rewrite app_nil_r. repeat split; auto.
    intros x [].
Qed.

Lemma fan_out_rules_rows (mandatory_cols org_row : row) (rules : list catalog_rule)
    (P : row -> Prop) (s : state) :
  current_dwh_table_name s = "observation_fact" ->
  (forall catalog_row v new_row s0,
     In catalog_row rules ->
     Dict.get (column_name catalog_row) org_row = Some v -> pd_isna v = false ->
     outcome (translate_heb_words (assemble mandatory_cols catalog_row v)) s0
     = inr new_row ->
     P (fill_missing (get_columns "observation_fact") new_row)) ->
  let run := for_each rules (process_row_by_observation_fact_rules mandatory_cols org_row) in
  current_dwh_table_name (exec run s) = "observation_fact"
  /\ enqueued "encounters" (exec run s) = enqueued "encounters" s
  /\ exists rows,
       enqueued "observation_fact" (exec run s) = enqueued "observation_fact" s ++ rows
       /\ (length rows <= length rules)%nat
       /\ forall x, In x rows -> P x.
Proof.
  cbv zeta. revert s. induction rules as [|r rules IH]; intros s Hcur HP; simpl.
  - split; [exact Hcur | split; [reflexivity|]].
    exists []. rewrite app_nil_r. split; [reflexivity | split; [simpl; lia|]].
    intros x [].
  - destruct (fan_out_rule_rows mandatory_cols org_row r s Hcur)
      as (H1 & H2 & rows1 & H3 & H4 & H5).
    unfold exec, bind in *.
    destruct (process_row_by_observation_fact_rules mandatory_cols org_row r s)
      as [s1 [e|[]]]; cbn [fst snd] in *.
    + split; [exact H1 | split; [exact H2|]].
      exists rows1. split; [exact H3 | split; [simpl; lia|]].
      intros x Hx. destruct (H5 x Hx) as (v & new_row & G & N & T & ->).
      eapply HP; eauto. now left.
    + destruct (IH s1 H1) as (K1 & K2 & rows2 & K3 & K4 & K5).
      { intros c v new_row s0 Hin. apply HP. now right. }
      split; [exact K1 | split; [congruence|]].
      exists (rows1 ++ rows2). rewrite app_assoc, <- H3, K3.
      split; [reflexivity | split].
      * rewrite length_app. simpl. lia.
      * intros x Hx. apply in_app_or in Hx. destruct Hx as [Hx|Hx]; auto.
        destruct (H5 x Hx) as (v & new_row & G & N & T & ->).
        eapply HP; eauto. now left.
Qed.

Lemma observation_fact_process_run (mandatory_cols org_row : row)
    (org_dwh_tbl_cat : list catalog_rule) (s : state) :
  observation_fact_process mandatory_cols org_row org_dwh_tbl_cat s
  = (mandatory_cols <- add_encounter_num mandatory_cols ;;
     for_each (evaluated_rules org_dwh_tbl_cat)
       (process_row_by_observation_fact_rules mandatory_cols org_row)) s.
Proof.
  unfold observation_fact_process, evaluated_rules. unfold bind at 1 3.
  destruct (add_encounter_num mandatory_cols s) as [s1 [e|mc]]; auto.
  now rewrite for_each_app.
Qed.

Lemma In_evaluated_rules (cat : list catalog_rule) (r : catalog_rule) :
  In r (evaluated_rules cat)
  <-> In r cat /\ exists m, modifier_cd r = Some m.
Proof.
  unfold evaluated_rules. rewrite in_app_iff, !filter_In.
  unfold is_no_modifier, has_modifier. split.
  - intros [[H E]|[H E]]; split; auto; destruct (modifier_cd r); eauto; discriminate.
  - intros [H [m E]]. rewrite E. destruct (String.eqb m "@"); auto.
Qed.

Lemma filter_filter_implied {A} (f p : A -> bool) (l : list A) :
  (forall x, f x = true -> p x = true) -> filter f (filter p l) = filter f l.
Proof.
  intros H. induction l as [|x l IH]; simpl; [reflexivity|].
  destruct (p x) eqn:P; simpl.
  - now rewrite IH.
  - destruct (f x) eqn:F; [|exact IH]. apply H in F. congruence.
Qed.

(** The rules that have no modifier code could as well not be in the
    catalog. *)
Lemma rules_without_modifier_are_ignored (mandatory_cols org_row : row)
    (org_dwh_tbl_cat : list catalog_rule) (s : state) :
  observation_fact_process mandatory_cols org_row
    (filter has_modifier_cd org_dwh_tbl_cat) s
  = observation_fact_process mandatory_cols org_row org_dwh_tbl_cat s.
Proof.
  unfold observation_fact_process.
  rewrite !filter_filter_implied; [reflexivity | |];
    intros r; unfold has_modifier, is_no_modifier, has_modifier_cd;
    destruct (modifier_cd r); auto.
Qed.

(** X23. The order of evaluation. The observation transformer first asks
    for the encounter number, then evaluates the rules whose modifier code
    is ['@'], then those whose modifier code is present and differs from
    ['@'], each once and in catalog order. A rule whose modifier code is
    absent is not evaluated, whether its concept code is present or not.
    An evaluated rule whose source value is not null enqueues exactly one
    row for the observation table when the translated row passes
    validation, and none otherwise; the rules together enqueue at most one
    row each. *)
Theorem observation_rows_per_evaluated_rule (mandatory_cols org_row : row)
    (org_dwh_tbl_cat : list catalog_rule) :
  let rule := fun mc => process_row_by_observation_fact_rules mc org_row in
  (forall s,
     observation_fact_process mandatory_cols org_row org_dwh_tbl_cat s
     = (mc <- add_encounter_num mandatory_cols ;;
        for_each (filter is_no_modifier org_dwh_tbl_cat
                  ++ filter has_modifier org_dwh_tbl_cat) (rule mc)) s)
  /\ (forall r, In r (filter is_no_modifier org_dwh_tbl_cat)
        <-> In r org_dwh_tbl_cat /\ modifier_cd r = Some "@")
  /\ (forall r, In r (filter has_modifier org_dwh_tbl_cat)
        <-> In r org_dwh_tbl_cat /\ exists m, modifier_cd r = Some m /\ m <> "@")
  /\ (forall r, modifier_cd r = None -> ~ In r (evaluated_rules org_dwh_tbl_cat))
  /\ (forall mc r v s,
        Dict.get (column_name r) org_row = Some v -> pd_isna v = false ->
        current_dwh_table_name s = "observation_fact" ->
        exists new_row,
          outcome (translate_heb_words (assemble mc r v)) s = inr new_row
          /\ outcome (rule mc r) s = inr tt
          /\ enqueued "observation_fact" (exec (rule mc r) s)
             = enqueued "observation_fact" s
               ++ match check_not_null (get_not_null_columns "observation_fact")
                          new_row with
                  | inr _ => [fill_missing (get_columns "observation_fact") new_row]
                  | inl _ => []
                  end)
  /\ (forall mc s,
        current_dwh_table_name s = "observation_fact" ->
        exists rows,
          enqueued "observation_fact"
            (exec (for_each (evaluated_rules org_dwh_tbl_cat) (rule mc)) s)
          = enqueued "observation_fact" s ++ rows
          /\ (length rows <= length (evaluated_rules org_dwh_tbl_cat))%nat).
Proof.
  cbv zeta. split; [|split; [|split; [|split; [|split]]]].
  - intros s. apply observation_fact_process_run.
  - intros r. rewrite filter_In. unfold is_no_modifier.
    split; intros [H E]; split; auto.
    + destruct (modifier_cd r) as [m|]; [|discriminate].
      apply String.eqb_eq in E. now subst.
    + now rewrite E.
  - intros r. rewrite filter_In. unfold has_modifier.
    split; intros [H E]; split; auto.
    + destruct (modifier_cd r) as [m|]; [|discriminate]. exists m. split; auto.
      intros ->. discriminate.
    + destruct E as [m [-> N]]. apply String.eqb_neq in N. now rewrite N.
  - intros r E H. apply In_evaluated_rules in H. destruct H as [_ [m H]]. congruence.
  - intros mc r v s G N Hcur.
    destruct (fan_out_rule_run mc org_row r s G N Hcur)
      as (new_row & H1 & H2 & _ & _ & H3).
    exists new_row. auto.
  - intros mc s Hcur.
    destruct (@fan_out_rules_rows mc org_row (evaluated_rules org_dwh_tbl_cat)
                (fun _ => True) s Hcur) as (_ & _ & rows & H1 & H2 & _); eauto.
Qed.

(** *** The encounter registrar *)

Lemma load_encounters_run (s : state) :
  load_encounters s
  = (match encounters s with
     | Some _ => s
     | None => set_encounters stored_encounters s
     end, inr (loaded_encounters s)).
Proof.
  unfold load_encounters, loaded_encounters. run.
  now destruct (encounters s).
Qed.

Lemma series_max_numbers (l : list value) :
  forallb number_or_missing l = true ->
  series_max l = inr VNaN \/ exists n, series_max l = inr (VInt n).
Proof.
  induction l as [|v l IH]; simpl; auto.
  intros H. apply andb_prop in H. destruct H as [Hv Hl].
  destruct (IH Hl) as [->|[n ->]]; destruct v; try discriminate; eauto.
Qed.

Lemma next_encounter_num_run (table : list (value * value)) :
  forallb number_or_missing (column snd table) = true ->
  exists top, series_max (column snd table) = inr top
              /\ plus_one top = inr (next_encounter_num table)
              /\ is_hebrew_text (next_encounter_num table) = false.
Proof.
  intros H. unfold next_encounter_num.
  destruct (series_max_numbers _ H) as [->|[n ->]]; eexists; repeat split.
Qed.

(** A date the table has: its number is returned and nothing is enqueued. *)
Lemma add_encounter_num_known (mandatory_cols : row) (day time : Z) (s : state) :
  Dict.get "start_date" mandatory_cols = Some (VDateTime day time) ->
  is_in (VDate day) (loaded_encounters s) = true ->
  let s' := exec (add_encounter_num mandatory_cols) s in
  outcome (add_encounter_num mandatory_cols) s
  = inr (Dict.set "encounter_num" (first_match (VDate day) (loaded_encounters s))
           mandatory_cols)
  /\ encounters s' = Some (loaded_encounters s)
  /\ saved s' = saved s /\ batch_que s' = batch_que s
  /\ (forall table, encounters s = Some table -> s' = s).
Proof.
  intros G Hin. cbv zeta. unfold add_encounter_num, exec, outcome.
  rewrite !(@bind_ok _ _ _ _ _ _ _ (load_encounters_run s)).
  unfold start_date_of. rewrite G. unfold lift, bind, ret. rewrite Hin.
  unfold loaded_encounters.
  destruct (encounters s) eqn:E; simpl; repeat split; auto. discriminate.
Qed.

(** A date the table lacks: the next number is computed, and the entry is
    added to the table in memory and enqueued for the encounters table. *)
Lemma add_encounter_num_new (mandatory_cols : row) (day time : Z) (s : state) :
  Dict.get "start_date" mandatory_cols = Some (VDateTime day time) ->
  is_in (VDate day) (loaded_encounters s) = false ->
  forallb number_or_missing (column snd (loaded_encounters s)) = true ->
  let s' := exec (add_encounter_num mandatory_cols) s in
  let id := next_encounter_num (loaded_encounters s) in
  outcome (add_encounter_num mandatory_cols) s
  = inr (Dict.set "encounter_num" id mandatory_cols)
  /\ encounters s' = Some (loaded_encounters s ++ [(VDate day, id)])
  /\ current_dwh_table_name s' = current_dwh_table_name s
  /\ forall t, enqueued t s'
       = if String.eqb t "encounters"
         then enqueued "encounters" s
              ++ [fill_missing (get_columns "encounters")
                    [("date", VDate day); ("encounter_num", id)]]
         else enqueued t s.
Proof.
  intros G Hin Hnum. cbv zeta. unfold add_encounter_num, exec, outcome.
  rewrite !(@bind_ok _ _ _ _ _ _ _ (load_encounters_run s)).
  destruct (next_encounter_num_run _ Hnum) as (top & Hmax & Hplus & _).
  unfold start_date_of. rewrite G. unfold lift, bind, ret. rewrite Hin, Hmax, Hplus.
  unfold modify. run_add_row. cbn [fst snd].
  unfold loaded_encounters in *.
  destruct (encounters s) eqn:E; simpl in *; repeat split; auto.
Qed.

Lemma wf_assemble (mandatory_cols : row) (catalog_row : catalog_rule) (v : value) :
  Dict.wf mandatory_cols -> Dict.wf (assemble mandatory_cols catalog_row v).
Proof.
  intros W. unfold assemble.
  repeat match goal with
         | |- Dict.wf (if ?b then _ else _) => destruct b
         | |- Dict.wf (Dict.set _ _ _) => apply wf_set
         end; assumption.
Qed.

Lemma get_assemble_encounter_num (mandatory_cols : row) (catalog_row : catalog_rule)
    (v : value) :
  target_column catalog_row <> "encounter_num" ->
  Dict.get "encounter_num" (assemble mandatory_cols catalog_row v)
  = Dict.get "encounter_num" mandatory_cols.
Proof.
  intros N. unfold assemble.
  repeat match goal with
         | |- context [if ?b then _ else _] => destruct b
         end;
    rewrite ?get_set_other; auto; discriminate.
Qed.

(** C10, as the code has it. For a source row sent to the observation
    table whose start date is a datetime of a day the encounter table lacks
    (the table holding numbers or missing values as encounter numbers), the
    encounter is assigned before any fan-out rule runs: exactly one row is
    enqueued for the [encounters] table, whatever the rules then do and
    even if none of them enqueues a row, and every row the rules enqueue
    for the observation table carries the number just assigned, provided
    no rule of the pair writes the [encounter_num] column itself. *)
Theorem encounter_assigned_before_fan_out (mandatory_cols org_row : row)
    (org_dwh_tbl_cat : list catalog_rule) (day time : Z) (s : state) :
  Dict.wf mandatory_cols ->
  current_dwh_table_name s = "observation_fact" ->
  Dict.get "start_date" mandatory_cols = Some (VDateTime day time) ->
  is_in (VDate day) (loaded_encounters s) = false ->
  forallb number_or_missing (column snd (loaded_encounters s)) = true ->
  (forall r, In r org_dwh_tbl_cat -> target_column r <> "encounter_num") ->
  let id := next_encounter_num (loaded_encounters s) in
  let mc := Dict.set "encounter_num" id mandatory_cols in
  let s' := exec (observation_fact_process mandatory_cols org_row org_dwh_tbl_cat) s in
  observation_fact_process mandatory_cols org_row org_dwh_tbl_cat s
  = for_each (evaluated_rules org_dwh_tbl_cat)
      (process_row_by_observation_fact_rules mc org_row)
      (exec (add_encounter_num mandatory_cols) s)
  /\ enqueued "encounters" (exec (add_encounter_num mandatory_cols) s)
     = enqueued "encounters" s
       ++ [fill_missing (get_columns "encounters")
             [("date", VDate day); ("encounter_num", id)]]
  /\ enqueued "encounters" s'
     = enqueued "encounters" s
       ++ [fill_missing (get_columns "encounters")
             [("date", VDate day); ("encounter_num", id)]]
  /\ exists rows,
       enqueued "observation_fact" s' = enqueued "observation_fact" s ++ rows
       /\ forall x, In x rows -> Dict.get "encounter_num" x = Some id.
Proof.
  intros W Hcur G Hin Hnum Htarget. cbv zeta.
  destruct (@add_encounter_num_new mandatory_cols day time s G Hin Hnum)
    as (Ho & _ & Hc & Henq).
  destruct (next_encounter_num_run _ Hnum) as (_ & _ & _ & Hid).
  set (id := next_encounter_num (loaded_encounters s)) in *.
  set (mc := Dict.set "encounter_num" id mandatory_cols) in *.
  assert (Hrun : observation_fact_process mandatory_cols org_row org_dwh_tbl_cat s
                 = for_each (evaluated_rules org_dwh_tbl_cat)
                     (process_row_by_observation_fact_rules mc org_row)
                     (exec (add_encounter_num mandatory_cols) s)).
  { rewrite observation_fact_process_run. unfold bind, exec, outcome in *.
    destruct (add_encounter_num mandatory_cols s) as [s1 [e|x]]; simpl in *;
      [discriminate Ho|]. now injection Ho as ->. }
  split; [exact Hrun|]. split; [apply Henq|].
  pose proof (Henq "observation_fact") as Hobs. cbn in Hobs.
  pose proof (Henq "encounters") as Henc. cbn in Henc.
  destruct (@fan_out_rules_rows mc org_row (evaluated_rules org_dwh_tbl_cat)
              (fun x => Dict.get "encounter_num" x = Some id)
              (exec (add_encounter_num mandatory_cols) s))
    as (_ & K2 & rows & K3 & _ & K5).
  - congruence.
  - intros r v new_row s0 Hr Gv Nv Hnew.
    apply In_evaluated_rules in Hr. destruct Hr as [Hr _].
    apply fill_missing_keeps.
    destruct (@translate_items_run (assemble mc r v) [] s0) as (r' & Hrun' & Hitems).
    { simpl. apply wf_assemble. unfold mc. now apply wf_set. }
    unfold translate_heb_words in Hnew. rewrite Hrun' in Hnew.
    injection Hnew as <-. simpl.
    apply translated_items_get with (items := assemble mc r v); auto.
    rewrite get_assemble_encounter_num by auto.
    unfold mc. apply get_set_same.
  - unfold exec in *. rewrite Hrun. split.
    + now rewrite K2.
    + exists rows. rewrite K3. split; auto. now rewrite Hobs.
Qed.

(** *** Rows handed to storage *)

Lemma completed_completes (table : string) (r : row) :
  completed table r -> exists r0, completes table r0 r.
Proof.
  intros [r0 ->]. exists r0. unfold completes. split; [reflexivity|].
  split; [intros; now apply fill_missing_has_columns|].
  split; [intros; now apply fill_missing_keeps|].
  split; [intros; now apply fill_missing_none|].
  intros k H. rewrite fill_missing_mem in H. apply orb_prop in H.
  destruct H as [H|H]; auto. right. now apply existsb_eqb_In.
Qed.

(** The first half of C5: no queue ever reaches the flush threshold once
    an enqueue call has returned. *)
Lemma queue_below_limit_after_enqueue (r : row) (t : string) (s : state) :
  queues_below_limit s ->
  outcome (add_row_to_batch r t) s = inr tt
  /\ forall t', (length (queued t' (exec (add_row_to_batch r t) s)) < que_limit)%nat.
Proof.
  intros I. split; [apply add_row_to_batch_returns | now apply below_limit_add_row].
Qed.


(** ** Further properties of the code *)

(** *** The batch writer, one call at a time *)

Lemma saved_add_row (r : row) (t : string) (s : state) :
  saved (exec (add_row_to_batch r t) s)
  = saved s
    ++ (let rows := queued t s ++ [fill_missing (get_columns t) r] in
        if (que_limit <=? length rows)%nat then [(t, rows)] else []).
Proof.
  unfold add_row_to_batch, queued. run.
  destruct (negb (t =? "exceptions")%string); simpl;
    destruct (Dict.get t (batch_que s)) as [q|] eqn:G; simpl;
    case_limit; simpl; now rewrite ?app_nil_r.
Qed.

Lemma progress_add_row (r : row) (t : string) (s : state) :
  progress (exec (add_row_to_batch r t) s)
  = progress s
    ++ [if String.eqb t "exceptions" then (current_dwh_table_name s, true)
        else (t, false)].
Proof.
  unfold add_row_to_batch. run.
  destruct (t =? "exceptions")%string; simpl; case_limit; reflexivity.
Qed.

Lemma wf_que_add_row (r : row) (t : string) :
  ensures (preserved (fun s => Dict.wf (batch_que s))) (add_row_to_batch r t).
Proof.
  intros s W. unfold add_row_to_batch. run.
  destruct (negb (t =? "exceptions")%string); simpl;
    case_limit; simpl; repeat apply wf_set; exact W.
Qed.

(** X1. Enqueuing a row never fails, the progress printer taking the
    report as it does throughout a run. The row, completed with [None] for
    the columns of its table that it lacks, goes to the end of what the
    table has been given; no other table receives or loses a row, and the
    dictionary, the encounter table, the current table names, the record of
    remote calls and the log file stay as they are. The progress printer is
    told once: a success for the table or, for a row of the [exceptions]
    table, a failure for the current target table. *)
Theorem enqueue_appends_completed_row (new_row : row) (table : string) (s : state) :
  let s' := exec (add_row_to_batch new_row table) s in
  outcome (add_row_to_batch new_row table) s = inr tt
  /\ enqueued table s'
     = enqueued table s ++ [fill_missing (get_columns table) new_row]
  /\ (forall t, t <> table ->
        written t s' = written t s
        /\ Dict.get t (batch_que s') = Dict.get t (batch_que s))
  /\ dwh_dictionary s' = dwh_dictionary s
  /\ encounters s' = encounters s
  /\ current_org_table_name s' = current_org_table_name s
  /\ current_dwh_table_name s' = current_dwh_table_name s
  /\ translated s' = translated s
  /\ log_file s' = log_file s
  /\ progress s'
     = progress s
       ++ [if String.eqb table "exceptions"
           then (current_dwh_table_name s, true)
           else (table, false)].
Proof.
  cbv zeta. split; [apply add_row_to_batch_returns|].
  split; [rewrite enqueued_add_row; now rewrite String.eqb_refl|].
  split.
  - intros t Ht. split.
    + rewrite written_add_row. apply String.eqb_neq in Ht. now rewrite Ht.
    + now apply get_que_add_row.
  - destruct (add_row_keeps new_row table s) as (H1 & H2 & H3 & H4 & H5 & H6).
    repeat (split; [assumption|]). apply progress_add_row.
Qed.

(** X2. The automatic flush. When the queue of the table, with the new row,
    has reached 100 rows, the whole queue is handed to storage in one call,
    in the order the rows were enqueued, and the queue is reset to the empty
    list; otherwise no storage call is made and the row waits at the end of
    the queue. If the queue was below 100 rows before, a flushed batch has
    exactly 100 rows. *)
Theorem enqueue_flushes_full_queue (new_row : row) (table : string) (s : state) :
  let rows := queued table s ++ [fill_missing (get_columns table) new_row] in
  let s' := exec (add_row_to_batch new_row table) s in
  (if (que_limit <=? length rows)%nat
   then saved s' = saved s ++ [(table, rows)]
        /\ Dict.get table (batch_que s') = Some []
   else saved s' = saved s
        /\ Dict.get table (batch_que s') = Some rows)
  /\ ((length (queued table s) < que_limit)%nat ->
      (que_limit <=? length rows)%nat = true -> length rows = que_limit).
Proof.
  cbv zeta. split.
  - rewrite saved_add_row, get_que_add_row_same. cbv zeta.
    case_limit; split; auto. now rewrite app_nil_r.
  - intros Hlt Hle. apply Nat.leb_le in Hle.
    rewrite length_app in *. simpl in *. lia.
Qed.

(** *** Guarantees that depend on the queues, the storage calls and the
    progress counts *)

Section BatchGuarantee.

Variable R : state -> state -> Prop.
Hypothesis R_refl : forall s, R s s.
Hypothesis R_trans : forall s1 s2 s3, R s1 s2 -> R s2 s3 -> R s1 s3.
Hypothesis R_frame :
  forall s s', saved s' = saved s -> batch_que s' = batch_que s ->
    progress s' = progress s -> R s s'.
Hypothesis R_add_row : forall r t, ensures R (add_row_to_batch r t).

Ltac batch_step :=
  first
    [ apply ensures_ret; exact R_refl
    | apply ensures_read; exact R_refl
    | apply ensures_lift; exact R_refl
    | apply R_add_row
    | apply ensures_bind; [exact R_trans | | intros]
    | match goal with
      | |- ensures _ (match ?x with _ => _ end) => destruct x
      end
    | (intros ?; apply R_frame; reflexivity) ].

Lemma batch_guarantee_row (org_row : row) :
  ensures R (process_org_row_into_dwh org_row).
Proof using R R_add_row R_frame R_refl R_trans count_lines data_catalog
  inspector_columns json_dumps now repr_row stored_dictionary
  stored_encounters str_of_value translate.
  apply ensures_process_org_row_into_dwh; auto.
  - intros r. unfold add_row_to_current_batch. repeat batch_step.
  - intros msg s. apply R_frame; reflexivity.
  - intros w. unfold translate_word, load_dictionary. repeat batch_step.
  - intros mc. unfold add_encounter_num, load_encounters. repeat batch_step.
  - intros t s. apply R_frame; reflexivity.
Qed.

Lemma batch_guarantee_rows (org_tables : Dict.t (list row)) :
  ensures R (process_rows_of_tables org_tables).
Proof using R R_add_row R_frame R_refl R_trans count_lines data_catalog
  inspector_columns json_dumps now repr_row stored_dictionary
  stored_encounters str_of_value translate.
  unfold process_rows_of_tables.
  apply ensures_for_each; auto. intros [name table]. simpl.
  apply ensures_bind; auto.
  - intros s. apply R_frame; reflexivity.
  - intros _. apply ensures_for_each; auto. apply batch_guarantee_row.
Qed.

End BatchGuarantee.


(** *** The flush that ends the run *)

Lemma written_add_saved (t t' : string) (rows : list row) (s : state) :
  written t' (add_saved t rows s)
  = written t' s ++ (if String.eqb t t' then rows else []).
Proof.
  unfold written. simpl. rewrite filter_app, map_app, concat_app. simpl.
  destruct (String.eqb t t'); simpl; now rewrite ?app_nil_r.
Qed.

Lemma In_get_wf {V} (k : string) (v : V) (d : Dict.t V) :
  Dict.wf d -> In (k, v) d -> Dict.get k d = Some v.
Proof.
  unfold Dict.wf. induction d as [|[k' v'] d IH]; simpl; [intros _ []|].
  intros W [E|H].
  - injection E as -> ->. now rewrite String.eqb_refl.
  - inversion W as [|? ? Hk Hd]; subst.
    destruct (String.eqb k k') eqn:E; [|auto].
    apply String.eqb_eq in E. subst k'.
    exfalso. apply Hk. apply in_map_iff. exists (k, v). auto.
Qed.

Lemma flush_entries_run (l : Dict.t (list row)) (s : state) :
  let flush := for_each l (fun entry =>
    if (0 <? length (snd entry))%nat
    then save_new_row_to_dwh (snd entry) (fst entry)
    else ret tt) in
  saved (exec flush s)
  = saved s ++ filter (fun entry => (0 <? length (snd entry))%nat) l
  /\ (Dict.wf l ->
      forall t, written t (exec flush s)
                = written t s ++ match Dict.get t l with
                                 | Some rows => rows
                                 | None => []
                                 end).
Proof.
  cbv zeta. revert s. induction l as [|[t0 rows0] l IH]; intros s.
  - simpl. split; [now rewrite app_nil_r | intros _ t; now rewrite app_nil_r].
  - simpl for_each. cbn [filter fst snd].
    set (s1 := if (0 <? length rows0)%nat then add_saved t0 rows0 s else s).
    assert (Hstep : forall rest : M unit,
               exec ((if (0 <? length rows0)%nat
                      then save_new_row_to_dwh rows0 t0 else ret tt) ;; rest) s
               = exec rest s1).
    { intros rest. unfold s1, exec, bind.
      destruct (0 <? length rows0)%nat; reflexivity. }
    rewrite Hstep. destruct (IH s1) as [Hs Hw]. split.
    + rewrite Hs. unfold s1. destruct (0 <? length rows0)%nat; simpl; auto.
      now rewrite <- app_assoc.
    + intros W t. inversion W as [|? ? Hk Hd]; subst.
      rewrite (Hw Hd t).
      assert (H1 : written t s1
                   = written t s ++ (if String.eqb t0 t then rows0 else [])).
      { unfold s1. destruct (0 <? length rows0)%nat eqn:E.
        - apply written_add_saved.
        - destruct rows0; [|discriminate E].
          destruct (String.eqb t0 t); now rewrite app_nil_r. }
      rewrite H1, <- app_assoc. f_equal. simpl.
      rewrite (String.eqb_sym t t0).
      destruct (String.eqb t0 t) eqn:E; [|reflexivity].
      apply String.eqb_eq in E. subst t0.
      destruct (Dict.get t l) as [rows|] eqn:G; [|now rewrite app_nil_r].
      exfalso. apply Hk. apply mem_In_keys. unfold Dict.mem. now rewrite G.
Qed.

Lemma flush_entries_fields (l : Dict.t (list row)) (s : state) :
  let s' := exec (for_each l (fun entry =>
    if (0 <? length (snd entry))%nat
    then save_new_row_to_dwh (snd entry) (fst entry)
    else ret tt)) s in
  dwh_dictionary s' = dwh_dictionary s /\ encounters s' = encounters s
  /\ translated s' = translated s /\ progress s' = progress s
  /\ log_file s' = log_file s.
Proof.
  cbv zeta. revert s. induction l as [|[t rows] l IH]; intros s; simpl; auto 10.
  unfold exec, bind in *. simpl.
  destruct (0 <? length rows)%nat; simpl.
  - apply (IH (add_saved t rows s)).
  - apply IH.
Qed.

Lemma save_all_fields (s : state) :
  let s' := exec save_all_rows_in_que s in
  dwh_dictionary s' = dwh_dictionary s /\ encounters s' = encounters s
  /\ translated s' = translated s /\ progress s' = progress s
  /\ log_file s' = log_file s.
Proof.
  pose proof (flush_entries_fields (batch_que s) s) as H.
  unfold save_all_rows_in_que, exec, bind, read in *. exact H.
Qed.

Lemma save_all_rows_in_que_run (s : state) :
  outcome save_all_rows_in_que s = inr tt
  /\ saved (exec save_all_rows_in_que s) = saved s ++ waiting_batches s
  /\ batch_que (exec save_all_rows_in_que s) = batch_que s
  /\ (Dict.wf (batch_que s) ->
      forall t, written t (exec save_all_rows_in_que s) = written t s ++ queued t s).
Proof.
  destruct (save_all_keeps_queues s) as [Hq Ho].
  destruct (flush_entries_run (batch_que s) s) as [Hs Hw].
  unfold save_all_rows_in_que, exec, outcome, bind, read in *.
  cbn [fst snd] in *.
  split; [exact Ho | split; [exact Hs | split; [exact Hq | exact Hw]]].
Qed.

(** X3. The flush that ends the run never fails. It hands every queue that
    holds a row to storage, one call per queue, in the order of the queue
    dictionary, and makes no call for an empty queue; the queues themselves
    stay as they are, and so does everything else the controller keeps.
    Each table has then been written every row that was waiting for it,
    after the rows written before. *)
Theorem flush_all_writes_waiting_rows (s : state) :
  Dict.wf (batch_que s) ->
  let s' := exec save_all_rows_in_que s in
  outcome save_all_rows_in_que s = inr tt
  /\ saved s' = saved s ++ waiting_batches s
  /\ Forall (fun call => snd call <> []) (waiting_batches s)
  /\ (forall t, written t s' = written t s ++ queued t s)
  /\ batch_que s' = batch_que s
  /\ dwh_dictionary s' = dwh_dictionary s
  /\ encounters s' = encounters s
  /\ translated s' = translated s
  /\ log_file s' = log_file s
  /\ progress s' = progress s.
Proof.
  intros W. cbv zeta.
  destruct (save_all_rows_in_que_run s) as (Ho & Hs & Hq & Hw).
  destruct (save_all_fields s) as (H1 & H2 & H3 & H4 & H5).
  split; [exact Ho | split; [exact Hs | split]].
  - apply Forall_forall. intros [t rows] Hin.
    apply filter_In in Hin. destruct Hin as [_ Hpos]. simpl in *.
    intros ->. discriminate Hpos.
  - split; [exact (Hw W)|]. auto 10.
Qed.

Lemma process_org_tables_into_dwh_run (org_tables : Dict.t (list row)) (s : state) :
  process_org_tables_into_dwh org_tables s
  = (process_rows_of_tables org_tables ;; save_all_rows_in_que) s.
Proof. reflexivity. Qed.

(** *** The storage calls of a run *)

Lemma batches_add_row (r : row) (t : string) :
  ensures
    (preserved (fun s => full_batches s /\ queues_below_limit s
                         /\ Dict.wf (batch_que s)))
    (add_row_to_batch r t).
Proof.
  intros s (F & B & W). split; [|split].
  - unfold full_batches. rewrite saved_add_row. apply Forall_app. split; auto.
    cbv zeta. case_limit; constructor; [|constructor]. simpl.
    apply Nat.leb_le in Heqb. specialize (B t).
    rewrite length_app in *. simpl in *. lia.
  - now apply below_limit_add_row.
  - now apply wf_que_add_row.
Qed.

Lemma batches_rows_of_tables (org_tables : Dict.t (list row)) :
  let s1 := exec (process_rows_of_tables org_tables) initial_state in
  full_batches s1 /\ queues_below_limit s1 /\ Dict.wf (batch_que s1).
Proof.
  apply (batch_guarantee_rows
           (R := preserved (fun s => full_batches s /\ queues_below_limit s
                                     /\ Dict.wf (batch_que s)))).
  - intros s I; exact I.
  - intros s1 s2 s3 H1 H2 I. auto.
  - intros s s' Hs Hq _ (F & B & W). unfold full_batches, queues_below_limit, queued.
    rewrite Hs, Hq. auto.
  - apply batches_add_row.
  - split; [constructor | split; [|constructor]].
    intros t. unfold queued, que_limit. simpl. lia.
Qed.

(** X4. The storage calls of a run. While the source rows are processed,
    every call hands over a batch of exactly 100 rows of one table, and no
    queue holds 100 rows. If the processing of a row fails, the run ends
    there with that failure: the final flush is not executed, so the rows
    still waiting are not written. Otherwise the final flush adds one call
    per queue that holds a row, each with 1 to 99 rows. *)
Theorem storage_receives_full_batches (org_tables : Dict.t (list row)) :
  let rows := process_rows_of_tables org_tables in
  let run := process_org_tables_into_dwh org_tables in
  let s1 := exec rows initial_state in
  full_batches s1
  /\ queues_below_limit s1
  /\ (forall e, outcome rows initial_state = inl e ->
        run initial_state = (s1, inl e))
  /\ (outcome rows initial_state = inr tt ->
        saved (exec run initial_state) = saved s1 ++ waiting_batches s1
        /\ Forall (fun call => (0 < length (snd call) < que_limit)%nat)
             (waiting_batches s1)).
Proof.
  cbv zeta. destruct (batches_rows_of_tables org_tables) as (F & B & W).
  split; [exact F | split; [exact B|]].
  unfold exec, outcome in *. rewrite process_org_tables_into_dwh_run.
  unfold bind.
  destruct (process_rows_of_tables org_tables initial_state) as [s1 [e|[]]];
    cbn [fst snd] in *.
  - split; [intros e' [= <-]; reflexivity | discriminate].
  - split; [discriminate | intros _].
    destruct (save_all_rows_in_que_run s1) as (_ & Hs & _).
    split; [exact Hs|].
    apply Forall_forall. intros [t q] Hin.
    apply filter_In in Hin. destruct Hin as [Hin Hpos]. simpl in *.
    apply Nat.ltb_lt in Hpos. split; [exact Hpos|].
    specialize (B t). unfold queued in B.
    now rewrite (In_get_wf t q W Hin) in B.
Qed.

(** X5. No row is lost and none is written twice: when the run ends
    normally, each table has been written exactly the rows that were
    enqueued for it while the source rows were processed, in the order they
    were enqueued. *)
Theorem normal_run_writes_every_row (org_tables : Dict.t (list row)) :
  outcome (process_org_tables_into_dwh org_tables) initial_state = inr tt ->
  forall t,
    written t (exec (process_org_tables_into_dwh org_tables) initial_state)
    = enqueued t (exec (process_rows_of_tables org_tables) initial_state).
Proof.
  intros Hrun t.
  destruct (batches_rows_of_tables org_tables) as (_ & _ & W).
  unfold exec, outcome in *. rewrite process_org_tables_into_dwh_run in *.
  unfold bind in *.
  destruct (process_rows_of_tables org_tables initial_state) as [s1 [e|[]]];
    cbn [fst snd] in *; [discriminate Hrun|].
  destruct (save_all_rows_in_que_run s1) as (_ & _ & _ & Hw).
  now apply Hw.
Qed.


(** *** The exception recorder, in full *)

Lemma handle_exception_state (org_row new_row : row) (e : exn) (s : state) :
  recoverable e = true ->
  exists message,
    handle_exception org_row new_row e s
    = add_row_to_batch
        (exception_record (next_log_index s) (current_dwh_table_name s)
           (current_org_table_name s) (target_col_of e) (org_col_of e) new_row)
        "exceptions"
        (set_log_file
           (log_file s ++ str_of_value (VInt (next_log_index s)) ++ ". " ++ message)%string
           s).
Proof.
  intros Hrec. unfold handle_exception, bind, read.
  destruct e; try discriminate Hrec;
    rewrite write_to_log_file_run; cbn [ret fst snd]; eexists; reflexivity.
Qed.

Lemma append_assoc (a b c : string) : ((a ++ b) ++ c = a ++ (b ++ c))%string.
Proof. induction a as [|x a IH]; simpl; [reflexivity | now rewrite IH]. Qed.

Lemma exception_message_ends_line (s : state) (org_row new_row : row) (e : exn) :
  recoverable e = true ->
  exists text,
    exception_message s org_row new_row e = (text ++ String "010" "")%string.
Proof.
  intros Hrec. destruct e; try discriminate Hrec; simpl;
    unfold missing_message, validation_message;
    eexists; rewrite <- !append_assoc; reflexivity.
Qed.

Lemma handle_exception_message (org_row new_row : row) (e : exn) (s : state) :
  recoverable e = true ->
  handle_exception org_row new_row e s
  = add_row_to_batch
      (exception_record (next_log_index s) (current_dwh_table_name s)
         (current_org_table_name s) (target_col_of e) (org_col_of e) new_row)
      "exceptions"
      (set_log_file
         (log_file s ++ str_of_value (VInt (next_log_index s)) ++ ". "
          ++ exception_message s org_row new_row e)%string
         s).
Proof.
  intros Hrec. unfold handle_exception, bind, read.
  destruct e; try discriminate Hrec;
    rewrite write_to_log_file_run; reflexivity.
Qed.

(** X6. The exception recorder, the log file being there to append to. It
    never fails. For a failure that is not one of the three recoverable
    kinds it does nothing at all. For a recoverable failure it hands
    [write_to_log_file] the message of the kind, which names the current
    target table and the field, holds the source row (or, for a failed
    validation, the new row) as text and ends with a line feed; the text
    appended to the log is the next index of the file (one more than the
    number of lines it holds), a period, a space and that message. One
    record is enqueued for the [exceptions] table: it carries that index,
    the current target and source table names, the serialized row, and the
    name of the field under [target_col] for a failed validation or under
    [org_col] for a missing source value, the other of the two being
    [None]. The progress printer is told of one failure for the current
    target table, and no other table receives a row. *)
Theorem exception_recorder_effect (org_row new_row : row) (e : exn) (s : state) :
  let s' := exec (handle_exception org_row new_row e) s in
  let message := exception_message s org_row new_row e in
  let record := recorded s new_row e in
  outcome (handle_exception org_row new_row e) s = inr tt
  /\ (recoverable e = false -> s' = s)
  /\ (recoverable e = true ->
      enqueued "exceptions" s' = enqueued "exceptions" s ++ [record]
      /\ record
         = fill_missing (get_columns "exceptions")
             [("log_file_id", VInt (next_log_index s));
              ("target_table", VStr (current_dwh_table_name s));
              ("org_table", VStr (current_org_table_name s));
              ("target_col", target_col_of e);
              ("org_col", org_col_of e);
              ("row_json", VStr (json_dumps new_row))]
      /\ Dict.get "log_file_id" record = Some (VInt (next_log_index s))
      /\ Dict.get "target_table" record = Some (VStr (current_dwh_table_name s))
      /\ Dict.get "org_table" record = Some (VStr (current_org_table_name s))
      /\ Dict.get "target_col" record = Some (target_col_of e)
      /\ Dict.get "org_col" record = Some (org_col_of e)
      /\ (target_col_of e = VNone \/ org_col_of e = VNone)
      /\ (exists c, target_col_of e = VStr c \/ org_col_of e = VStr c)
      /\ Dict.get "row_json" record = Some (VStr (json_dumps new_row))
      /\ next_log_index s = (Z.of_nat (count_lines (log_file s)) + 1)%Z
      /\ log_file s'
         = (log_file s ++ str_of_value (VInt (next_log_index s)) ++ ". "
            ++ message)%string
      /\ (exists text, message = (text ++ String "010" "")%string)
      /\ progress s' = progress s ++ [(current_dwh_table_name s, true)]
      /\ forall t, t <> "exceptions" -> enqueued t s' = enqueued t s).
Proof.
  cbv zeta. split; [apply handle_exception_returns | split].
  - intros Hrec. unfold handle_exception, exec, bind, read.
    destruct e; try discriminate Hrec; reflexivity.
  - intros Hrec.
    pose proof (handle_exception_message org_row new_row e s Hrec) as Hrun.
    unfold exec. rewrite Hrun. unfold recorded.
    set (s0 := set_log_file _ s).
    set (record := exception_record _ _ _ _ _ _).
    pose proof (fun t => enqueued_add_row record "exceptions" t s0) as Henq.
    pose proof (add_row_keeps record "exceptions" s0) as Hkeep.
    pose proof (progress_add_row record "exceptions" s0) as Hpro.
    unfold exec in Henq, Hkeep, Hpro. cbv zeta in Hkeep.
    destruct Hkeep as (_ & _ & _ & _ & _ & Hlog).
    split; [exact (Henq "exceptions")|].
    split; [reflexivity|].
    repeat (split; [apply fill_missing_keeps; reflexivity|]).
    split; [destruct e; try discriminate Hrec; simpl; auto|].
    split; [destruct e; try discriminate Hrec; simpl; eauto|].
    split; [apply fill_missing_keeps; reflexivity|].
    split; [reflexivity|].
    split; [exact Hlog|].
    split; [now apply exception_message_ends_line|].
    split; [exact Hpro|].
    intros t Ht. rewrite Henq. apply String.eqb_neq in Ht. now rewrite Ht.
Qed.

(** *** The mandatory columns, in full *)

Lemma fill_mandatory_ok (rules : list catalog_rule) (org_row acc : row) :
  (exists acc', fill_mandatory rules org_row acc = inr acc')
  <-> forall r, In r rules ->
        exists v, Dict.get (column_name r) org_row = Some v /\ pd_notna v = true.
Proof.
  revert acc. induction rules as [|r rules IH]; intros acc; simpl.
  - split; [intros _ r [] | eauto].
  - unfold org_value. destruct (Dict.get (column_name r) org_row) as [v|] eqn:G.
    + destruct (pd_notna v) eqn:N.
      * rewrite IH. split.
        -- intros H r' [<-|Hr]; eauto.
        -- intros H r' Hr. apply H. now right.
      * split; [intros [acc' H]; discriminate H|].
        intros H. destruct (H r (or_introl eq_refl)) as [w [Gw Nw]]. congruence.
    + split; [intros [acc' H]; discriminate H|].
      intros H. destruct (H r (or_introl eq_refl)) as [w [Gw Nw]]. congruence.
Qed.

Lemma fill_mandatory_error (rules : list catalog_rule) (org_row acc : row) (e : exn) :
  fill_mandatory rules org_row acc = inl e ->
  exists before r after,
    rules = before ++ r :: after
    /\ (forall b, In b before ->
          exists v, Dict.get (column_name b) org_row = Some v /\ pd_notna v = true)
    /\ ((Dict.get (column_name r) org_row = None /\ e = KeyError (column_name r))
        \/ (exists v, Dict.get (column_name r) org_row = Some v /\ pd_isna v = true
                      /\ e = MandatoryFieldMissing (column_name r))).
Proof.
  revert acc. induction rules as [|r rules IH]; intros acc; simpl; [discriminate|].
  unfold org_value. destruct (Dict.get (column_name r) org_row) as [v|] eqn:G.
  - destruct (pd_notna v) eqn:N.
    + intros H. destruct (IH _ H) as (before & r' & after & -> & Hb & Hr).
      exists (r :: before), r', after. split; [reflexivity|]. split; [|exact Hr].
      intros b [<-|Hin]; eauto.
    + intros [= <-]. exists [], r, rules. split; [reflexivity|].
      split; [intros b []|]. right. exists v. unfold pd_notna in N.
      destruct (pd_isna v); [auto | discriminate N].
  - intros [= <-]. exists [], r, rules. split; [reflexivity|].
    split; [intros b []|]. left. auto.
Qed.

Lemma fill_mandatory_untouched (rules : list catalog_rule) (org_row acc acc' : row)
    (k : string) :
  fill_mandatory rules org_row acc = inr acc' ->
  (forall r, In r rules -> target_column r <> k) ->
  Dict.get k acc' = Dict.get k acc.
Proof.
  revert acc. induction rules as [|r rules IH]; intros acc; simpl.
  - now intros [= <-].
  - destruct (org_value org_row (column_name r)) as [e|v]; [discriminate|].
    destruct (pd_notna v); [|discriminate].
    intros H Hk. rewrite (IH _ H) by (intros; apply Hk; now right).
    apply get_set_other. intros ->. now apply (Hk r (or_introl eq_refl)).
Qed.

Lemma fill_mandatory_last (before after : list catalog_rule) (r : catalog_rule)
    (org_row acc acc' : row) (v : value) :
  fill_mandatory (before ++ r :: after) org_row acc = inr acc' ->
  (forall a, In a after -> target_column a <> target_column r) ->
  Dict.get (column_name r) org_row = Some v ->
  Dict.get (target_column r) acc' = Some v.
Proof.
  revert acc. induction before as [|b before IH]; intros acc; simpl.
  - unfold org_value. intros H Ha G. rewrite G in H.
    destruct (pd_notna v); [|discriminate].
    rewrite (fill_mandatory_untouched _ _ _ H Ha). apply get_set_same.
  - destruct (org_value org_row (column_name b)) as [e|w]; [discriminate|].
    destruct (pd_notna w); [|discriminate]. apply IH.
Qed.

Lemma wf_seed_cols : Dict.wf seed_cols.
Proof.
  unfold Dict.wf. simpl.
  repeat (constructor;
          [simpl; intros H; repeat (destruct H as [H|H]; [discriminate H|]); exact H|]).
  constructor.
Qed.

(** X7. The mandatory columns of a (source table, target table) pair. The
    rules used are those of the pair with neither concept code nor modifier
    code, in catalog order. The call succeeds exactly when the source row
    has a non-null value for the source column of each of them. Otherwise
    it fails at the first rule that has none: with [KeyError] when the row
    lacks the column, with [MandatoryFieldMissing] when the value is null,
    both naming the column. On success the result is a dictionary that
    holds, for each target column, the source value of the last rule
    writing it, and the five bookkeeping entries wherever no rule writes
    their key. *)
Theorem mandatory_columns_characterised (org_dwh_tbl_cat : list catalog_rule)
    (org_row : row) :
  let rules := filter is_mandatory org_dwh_tbl_cat in
  let result := get_mandatory_cols org_dwh_tbl_cat org_row in
  (forall r, In r rules
     <-> In r org_dwh_tbl_cat /\ concept_cd r = None /\ modifier_cd r = None)
  /\ ((exists mc, result = inr mc)
      <-> forall r, In r rules ->
            exists v, Dict.get (column_name r) org_row = Some v /\ pd_notna v = true)
  /\ (forall e, result = inl e ->
        exists before r after,
          rules = before ++ r :: after
          /\ (forall b, In b before ->
                exists v, Dict.get (column_name b) org_row = Some v
                          /\ pd_notna v = true)
          /\ ((Dict.get (column_name r) org_row = None
               /\ e = KeyError (column_name r))
              \/ (exists v, Dict.get (column_name r) org_row = Some v
                            /\ pd_isna v = true
                            /\ e = MandatoryFieldMissing (column_name r))))
  /\ (forall mc, result = inr mc ->
        Dict.wf mc
        /\ (forall k, (forall r, In r rules -> target_column r <> k) ->
              Dict.get k mc = Dict.get k seed_cols)
        /\ (forall before r after v,
              rules = before ++ r :: after ->
              (forall a, In a after -> target_column a <> target_column r) ->
              Dict.get (column_name r) org_row = Some v ->
              Dict.get (target_column r) mc = Some v)).
Proof.
  cbv zeta. unfold get_mandatory_cols. split; [|split; [|split]].
  - intros r. rewrite filter_In. unfold is_mandatory.
    split; intros [H E]; split; auto.
    + destruct (concept_cd r), (modifier_cd r); try discriminate. auto.
    + destruct E as [-> ->]. reflexivity.
  - apply fill_mandatory_ok.
  - intros e. apply fill_mandatory_error.
  - intros mc H. split; [|split].
    + exact (fill_mandatory_wf _ _ wf_seed_cols H).
    + intros k Hk. exact (fill_mandatory_untouched _ _ _ H Hk).
    + intros before r after v E Ha G. rewrite E in H.
      exact (fill_mandatory_last _ _ _ _ _ H Ha G).
Qed.

(** *** The target tables of a source table *)




(** *** Translation, in closed form *)

Lemma translation_of_translate_word (w0 : string) (s : state) (v : value) :
  translation_of (exec (translate_word w0) s) v = translation_of s v.
Proof.
  pose proof (translate_word_run w0 s) as H. cbv zeta in H.
  destruct v as [| |w|n|d|d t]; simpl; try reflexivity.
  destruct (contains_hebrew w); [|reflexivity].
  destruct (is_in (VStr w0) (loaded_dictionary s)) eqn:Hin;
    destruct H as (_ & Hd & _);
    match type of Hd with
    | _ = Some ?d =>
        assert (Hl : loaded_dictionary (exec (translate_word w0) s) = d)
          by (unfold loaded_dictionary at 1; now rewrite Hd)
    end;
    rewrite Hl.
  - reflexivity.
  - rewrite is_in_app.
    destruct (is_in (VStr w) (loaded_dictionary s)) eqn:Hw; simpl.
    + now apply first_match_app_hit.
    + rewrite first_match_app_miss by assumption. simpl.
      unfold py_eq, value_eqb.
      destruct (String.eqb w0 w) eqn:E; simpl; [|reflexivity].
      apply String.eqb_eq in E. now subst.
Qed.

Lemma translate_value_run (v : value) (s : state) :
  outcome (translate_value v) s = inr (translation_of s v)
  /\ forall x, translation_of (exec (translate_value v) s) x = translation_of s x.
Proof.
  unfold translate_value.
  destruct v as [| |w|n|d|d t]; simpl; try (split; reflexivity).
  destruct (contains_hebrew w); [|split; reflexivity]. split.
  - pose proof (translate_word_run w s) as H. cbv zeta in H.
    destruct (is_in (VStr w) (loaded_dictionary s)); destruct H as [H _]; exact H.
  - intros x. apply translation_of_translate_word.
Qed.

Lemma translate_items_closed (items acc : row) (s : state) :
  NoDup (Dict.keys acc ++ Dict.keys items) ->
  outcome (translate_items items acc) s = inr (acc ++ translated_row s items).
Proof.
  revert acc s. induction items as [|[k v] items IH]; intros acc s ND; simpl.
  - now rewrite app_nil_r.
  - destruct (translate_value_run v s) as [Hv Hstable].
    unfold outcome, exec in Hv, Hstable, IH |- *. unfold bind.
    destruct (translate_value v s) as [s1 x]. cbn [fst snd] in Hv, Hstable. subst x.
    assert (Hfresh : Dict.mem k acc = false).
    { destruct (Dict.mem k acc) eqn:E; auto. apply mem_In_keys in E.
      simpl in ND. apply NoDup_remove_2 in ND. exfalso. apply ND.
      apply in_or_app. now left. }
    rewrite (set_snoc k (translation_of s v) acc Hfresh).
    rewrite IH.
    + rewrite <- app_assoc. simpl. do 3 f_equal.
      unfold translated_row. apply map_ext. intros item. now rewrite Hstable.
    + unfold Dict.keys in ND |- *. rewrite map_app. simpl. now rewrite <- app_assoc.
Qed.

Lemma get_translated_row (s : state) (r : row) (k : string) :
  Dict.get k (translated_row s r)
  = match Dict.get k r with
    | Some v => Some (translation_of s v)
    | None => None
    end.
Proof.
  induction r as [|[k' v'] r IH]; simpl; [reflexivity|].
  destruct (String.eqb k k'); auto.
Qed.

(** X9. Translating a row gives, key by key and in the same order, the
    translation of each value as the state before the call determines it:
    a string with a Hebrew letter becomes the entry the dictionary in
    memory has for it or, when it has none, the answer of the translation
    service; any other value is kept. The result therefore does not depend
    on the order of the fields, and equal Hebrew texts in one row get equal
    translations. *)
Theorem translation_closed_form (r : row) (s : state) :
  Dict.wf r ->
  outcome (translate_heb_words r) s = inr (translated_row s r)
  /\ (forall k, Dict.get k (translated_row s r)
        = match Dict.get k r with
          | Some v => Some (translation_of s v)
          | None => None
          end)
  /\ (forall w, contains_hebrew w = true ->
        translation_of s (VStr w)
        = if is_in (VStr w) (loaded_dictionary s)
          then first_match (VStr w) (loaded_dictionary s)
          else VStr (translate w))
  /\ (forall v, is_hebrew_text v = false -> translation_of s v = v).
Proof.
  intros W. split; [|split; [|split]].
  - apply (translate_items_closed r [] s W).
  - intros k. apply get_translated_row.
  - intros w Hw. simpl. now rewrite Hw.
  - intros v Hv. destruct v; simpl in *; try reflexivity. now rewrite Hv.
Qed.

(** *** The calls of the translation service in a run *)

Lemma remote_calls_frame (s s' : state) :
  dwh_dictionary s' = dwh_dictionary s -> translated s' = translated s ->
  preserved remote_calls_recorded s s'.
Proof.
  intros Hd Ht. unfold preserved, remote_calls_recorded, loaded_dictionary.
  now rewrite Hd, Ht.
Qed.

Lemma remote_calls_translate_word (w : string) :
  ensures (preserved remote_calls_recorded) (translate_word w).
Proof.
  intros s (Hd & Hn & Hs).
  pose proof (translate_word_run w s) as H. cbv zeta in H.
  destruct (is_in (VStr w) (loaded_dictionary s)) eqn:Hin;
    destruct H as (_ & Hd' & Ht' & _);
    match type of Hd' with
    | _ = Some ?d =>
        assert (Hl : loaded_dictionary (exec (translate_word w) s) = d)
          by (unfold loaded_dictionary at 1; now rewrite Hd')
    end;
    unfold remote_calls_recorded; rewrite Hl, Ht'.
  - auto.
  - rewrite Hd, is_in_app in Hin. apply orb_false_elim in Hin.
    destruct Hin as [Hstored Hcalls]. split; [|split].
    + now rewrite Hd, map_app, app_assoc.
    + apply NoDup_app; auto.
      * constructor; [intros [] | constructor].
      * intros x Hx [E|[]]. subst x.
        assert (K : is_in (VStr w)
                      (map (fun w => (VStr w, VStr (translate w))) (translated s))
                    = true).
        { unfold is_in. apply existsb_exists.
          exists (VStr w, VStr (translate w)). split.
          - apply in_map_iff. eauto.
          - simpl. apply py_eq_str_refl. }
        congruence.
    + intros x Hx. apply in_app_or in Hx. destruct Hx as [Hx|[<-|[]]]; auto.
Qed.

Lemma remote_calls_add_row (r : row) (t : string) :
  ensures (preserved remote_calls_recorded) (add_row_to_batch r t).
Proof.
  intros s. destruct (add_row_keeps r t s) as (H1 & _ & _ & _ & H5 & _).
  now apply remote_calls_frame.
Qed.

(** X10. In a run the translation service is never asked twice for the
    same text, and never for a text the stored dictionary has: at the end
    of the run the texts sent are pairwise different, none of them is in
    the stored dictionary, and the dictionary in memory is the stored one
    followed by one entry per call, in the order of the calls. *)
Theorem remote_service_called_once_per_text (org_tables : Dict.t (list row)) :
  let s := exec (process_org_tables_into_dwh org_tables) initial_state in
  NoDup (translated s)
  /\ (forall w, In w (translated s) -> is_in (VStr w) stored_dictionary = false)
  /\ loaded_dictionary s
     = stored_dictionary
       ++ map (fun w => (VStr w, VStr (translate w))) (translated s).
Proof.
  cbv zeta.
  assert (H : remote_calls_recorded
                (exec (process_org_tables_into_dwh org_tables) initial_state)).
  { apply (ensures_process_org_tables_into_dwh (R := preserved remote_calls_recorded)).
    - intros s I; exact I.
    - intros s1 s2 s3 H1 H2 I. auto.
    - intros r. apply ensures_bind.
      + intros s1 s2 s3 H1 H2 I. auto.
      + intros s I; exact I.
      + intros t. apply remote_calls_add_row.
    - intros r. apply remote_calls_add_row.
    - intros msg s. now apply remote_calls_frame.
    - apply remote_calls_translate_word.
    - intros mc. unfold add_encounter_num, load_encounters.
      repeat first
        [ apply ensures_ret; intros s I; exact I
        | apply ensures_read; intros s I; exact I
        | apply ensures_lift; intros s I; exact I
        | apply remote_calls_add_row
        | (intros s; now apply remote_calls_frame)
        | apply ensures_bind; [intros s1 s2 s3 H1 H2 I; auto | | intros]
        | match goal with
          | |- ensures _ (match ?x with _ => _ end) => destruct x
          end ].
    - intros t s. now apply remote_calls_frame.
    - intros t s. now apply remote_calls_frame.
    - intros s. destruct (save_all_fields s) as (H1 & _ & H3 & _).
      now apply remote_calls_frame.
    - unfold remote_calls_recorded, loaded_dictionary. simpl.
      split; [now rewrite app_nil_r | split; [constructor | intros w []]]. }
  destruct H as (H1 & H2 & H3). auto.
Qed.


(** *** The concept and patient transformers *)

Lemma translate_then_queue_run (org_row r : row) (table : string) (s : state) :
  Dict.wf r -> current_dwh_table_name s = table ->
  table <> "dictionary" -> table <> "exceptions" ->
  let m := (new_row <- translate_heb_words r ;;
            validate_and_queue org_row new_row) in
  outcome m s = inr tt
  /\ queued_or_recorded (translated_row s r) table s (exec m s).
Proof.
  intros W Hcur Nd Ne. cbv zeta.
  pose proof (translate_items_closed r [] s W) as Hnew. simpl in Hnew.
  destruct (translate_heb_words_only_dictionary r s) as (K1 & _ & _ & K4).
  unfold translate_heb_words, exec, outcome, bind in *.
  destruct (translate_items r [] s) as [s1 [e|x]]; cbn [fst snd] in *;
    [discriminate Hnew|].
  injection Hnew as ->.
  rewrite validate_and_queue_run, K1, Hcur. unfold queued_or_recorded.
  destruct (check_not_null_cases (get_not_null_columns table) (translated_row s r))
    as [H|[c [_ H]]]; rewrite H.
  - run_add_row. cbn [fst snd]. rewrite !Henq, String.eqb_refl.
    replace (String.eqb "exceptions" table) with false
      by (symmetry; apply String.eqb_neq; congruence).
    rewrite !K4 by congruence. auto.
  - destruct (@handle_exception_run org_row (translated_row s r)
                (NotNullColumnIsMissing c) s1 eq_refl) as (Ho & Hq & _).
    unfold exec, outcome in Ho, Hq. rewrite Ho. split; [reflexivity|].
    rewrite !Hq. cbn.
    replace (String.eqb table "exceptions") with false
      by (symmetry; apply String.eqb_neq; congruence).
    rewrite !K4 by congruence. split; [reflexivity|].
    eexists. split; [reflexivity|].
    destruct (recorded_org_col s1 (translated_row s r) (NotNullColumnIsMissing c))
      as (_ & H2 & H3).
    split; [exact H2 | now rewrite H3, K1, Hcur].
Qed.

(** X11. The concept transformer never fails and produces exactly one of
    two things. It copies [concept_desc], when the mandatory columns have
    it, to [name_char] and translates the row, so that both keys hold the
    same translated description. If the translated row passes the NOT NULL
    validation of [concept_dimension], the row, completed, is enqueued for
    that table and nothing is recorded; otherwise no concept row is
    enqueued and one exception record naming the first failing column is. *)
Theorem concept_row_or_exception (mandatory_cols org_row : row) (s : state) :
  Dict.wf mandatory_cols ->
  current_dwh_table_name s = "concept_dimension" ->
  let described :=
    match Dict.get "concept_desc" mandatory_cols with
    | Some desc => Dict.set "name_char" desc mandatory_cols
    | None => mandatory_cols
    end in
  let new_row := translated_row s described in
  let s' := exec (concept_dimension_process mandatory_cols org_row) s in
  outcome (concept_dimension_process mandatory_cols org_row) s = inr tt
  /\ (forall desc, Dict.get "concept_desc" mandatory_cols = Some desc ->
        Dict.get "name_char" new_row = Some (translation_of s desc)
        /\ Dict.get "concept_desc" new_row = Some (translation_of s desc))
  /\ queued_or_recorded new_row "concept_dimension" s s'.
Proof.
  intros W Hcur. cbv zeta.
  assert (Wd : Dict.wf match Dict.get "concept_desc" mandatory_cols with
                       | Some desc => Dict.set "name_char" desc mandatory_cols
                       | None => mandatory_cols
                       end).
  { destruct (Dict.get "concept_desc" mandatory_cols); auto. now apply wf_set. }
  destruct (@translate_then_queue_run org_row _ "concept_dimension" s Wd Hcur)
    as [Ho Hq]; try discriminate.
  split; [exact Ho | split; [|exact Hq]].
  intros desc G. rewrite G, !get_translated_row, get_set_same.
  rewrite get_set_other by discriminate. now rewrite G.
Qed.

Lemma merge_no_modifier_wf (rules : list catalog_rule) (org_row acc acc' : row) :
  Dict.wf acc -> merge_no_modifier rules org_row acc = inr acc' -> Dict.wf acc'.
Proof.
  revert acc. induction rules as [|r rules IH]; intros acc W; simpl.
  - now intros [= <-].
  - destruct (org_value org_row (column_name r)) as [e|v]; [discriminate|].
    apply IH. destruct (pd_notna v); auto. now apply wf_set.
Qed.





(** *** Rows that reach a warehouse table have passed validation *)

Lemma rows_satisfy_add_row (P : string -> row -> Prop) (r : row) (t : string)
    (s : state) :
  P t (fill_missing (get_columns t) r) ->
  rows_satisfy P s -> rows_satisfy P (exec (add_row_to_batch r t) s).
Proof.
  intros Hr [Is Iq].
  assert (Hrows : Forall (P t) (queued t s ++ [fill_missing (get_columns t) r])).
  { apply Forall_app. split.
    - unfold queued. destruct (Dict.get t (batch_que s)) eqn:G; [|constructor].
      apply Iq. now apply get_In.
    - constructor; [exact Hr | constructor]. }
  unfold queued in Hrows.
  unfold add_row_to_batch. run.
  destruct (negb (t =? "exceptions")%string); simpl;
    destruct (Dict.get t (batch_que s)) as [q|] eqn:G; simpl;
    case_limit; simpl; (split; simpl; intros t' rows' H);
    try apply in_app_or in H;
    repeat match goal with
           | H : In _ (Dict.set _ _ _) |- _ => apply In_set in H
           | H : _ \/ _ |- _ => destruct H
           | H : (_, _) = (_, _) |- _ => injection H as ? ?; subst
           | H : In _ [_] |- _ => destruct H as [H|[]]
           end;
    eauto.
Qed.

Lemma rows_satisfy_frame (P : string -> row -> Prop) (s s' : state) :
  saved s' = saved s -> batch_que s' = batch_que s ->
  rows_satisfy P s -> rows_satisfy P s'.
Proof. unfold rows_satisfy. intros -> ->. auto. Qed.

Lemma rows_satisfy_save_all (P : string -> row -> Prop) (s : state) :
  rows_satisfy P s -> rows_satisfy P (exec save_all_rows_in_que s).
Proof.
  intros [Is Iq].
  destruct (save_all_keeps_queues s) as [Hq _].
  destruct (flush_entries_run (batch_que s) s) as [Hs _].
  unfold save_all_rows_in_que, exec, bind, read in *. cbn [fst snd] in *.
  split; intros t rows H.
  - rewrite Hs in H. apply in_app_or in H. destruct H as [H|H]; eauto.
    apply filter_In in H. destruct H as [H _]. eauto.
  - rewrite Hq in H. eauto.
Qed.

Lemma populated_fill_missing (cols : list string) (r : row) (c : string) :
  populated r c = true ->
  exists v, Dict.get c (fill_missing cols r) = Some v /\ truthy v = true.
Proof.
  unfold populated. destruct (Dict.get c r) as [v|] eqn:G; [|discriminate].
  intros T. exists v. split; auto. now apply fill_missing_keeps.
Qed.

Lemma validated_handle_exception (org_row new_row : row) (e : exn) :
  ensures (preserved (rows_satisfy validated)) (handle_exception org_row new_row e).
Proof.
  intros s I. destruct (recoverable e) eqn:Hrec.
  - destruct (handle_exception_state org_row new_row e s Hrec) as [message Hrun].
    unfold exec. rewrite Hrun. apply rows_satisfy_add_row.
    + intros H. discriminate H.
    + revert I. now apply rows_satisfy_frame.
  - unfold handle_exception, exec, bind, read.
    destruct e; try discriminate Hrec; exact I.
Qed.

Lemma validated_validate_and_queue (org_row new_row : row) :
  ensures (preserved (rows_satisfy validated)) (validate_and_queue org_row new_row).
Proof.
  intros s I. unfold exec. rewrite validate_and_queue_run.
  destruct (check_not_null (get_not_null_columns (current_dwh_table_name s)) new_row)
    as [e|[]] eqn:H.
  - now apply validated_handle_exception.
  - apply rows_satisfy_add_row; auto.
    intros _ c Hc. apply populated_fill_missing.
    now apply (proj1 (check_not_null_ok _ _) H).
Qed.

Lemma validated_bookkeeping_row (r : row) (t : string) :
  bookkeeping_table t = true ->
  ensures (preserved (rows_satisfy validated)) (add_row_to_batch r t).
Proof.
  intros B s I. apply rows_satisfy_add_row; auto.
  intros H. congruence.
Qed.

Ltac validated_step :=
  first
    [ apply ensures_ret; intros ? I; exact I
    | apply ensures_read; intros ? I; exact I
    | apply ensures_lift; intros ? I; exact I
    | apply ensures_raise; intros ? I; exact I
    | apply validated_validate_and_queue
    | apply validated_handle_exception
    | apply validated_bookkeeping_row; reflexivity
    | apply ensures_bind; [intros ? ? ? H1 H2 I; auto | | intros]
    | apply ensures_for_each; [intros ? I; exact I | intros ? ? ? H1 H2 I; auto | intros]
    | match goal with
      | |- ensures _ (match ?x with _ => _ end) => destruct x
      end
    | (intros ?; unfold preserved; apply rows_satisfy_frame; reflexivity) ].

Lemma validated_translate_heb_words (r : row) :
  ensures (preserved (rows_satisfy validated)) (translate_heb_words r).
Proof.
  apply ensures_translate_heb_words.
  - intros s I; exact I.
  - intros s1 s2 s3 H1 H2 I. auto.
  - intros w. unfold translate_word, load_dictionary. repeat validated_step.
Qed.

Lemma validated_rule (mandatory_cols org_row : row) (catalog_row : catalog_rule) :
  ensures (preserved (rows_satisfy validated))
    (process_row_by_observation_fact_rules mandatory_cols org_row catalog_row).
Proof.
  unfold process_row_by_observation_fact_rules.
  validated_step; [validated_step|].
  match goal with |- ensures _ (if ?b then _ else _) => destruct b end;
    [validated_step|].
  validated_step; [apply validated_translate_heb_words | validated_step].
Qed.

Lemma validated_pair (org_row : row) (org_table dwh_table : string) :
  ensures (preserved (rows_satisfy validated))
    (process_pair org_row org_table dwh_table).
Proof.
  unfold process_pair. validated_step; [validated_step|].
  destruct (get_mandatory_cols _ _) as [e|mc]; [destruct e; validated_step|].
  unfold dispatch, concept_dimension_process, patient_dimension_process,
    observation_fact_process.
  destruct (String.eqb dwh_table "concept_dimension").
  { validated_step; [apply validated_translate_heb_words | validated_step]. }
  destruct (String.eqb dwh_table "patient_dimension").
  { validated_step; [validated_step|].
    validated_step; [apply validated_translate_heb_words | validated_step]. }
  destruct (String.eqb dwh_table "observation_fact"); [|validated_step].
  validated_step.
  - unfold add_encounter_num, load_encounters. repeat validated_step.
  - validated_step; validated_step; apply validated_rule.
Qed.

Lemma validated_row (org_row : row) :
  ensures (preserved (rows_satisfy validated)) (process_org_row_into_dwh org_row).
Proof.
  unfold process_org_row_into_dwh.
  validated_step; [validated_step|]. validated_step. apply validated_pair.
Qed.

(** X13. Every row a run hands to storage for a table other than
    [dictionary], [encounters] and [exceptions] has passed the validation
    of its table: each NOT NULL column of the table is a key of the row,
    with a truthy value. The rows of the three bookkeeping tables are
    written without that check. *)
Theorem written_rows_satisfy_not_null (org_tables : Dict.t (list row)) :
  Forall (fun call =>
            bookkeeping_table (fst call) = false ->
            Forall (fun r =>
                      forall c, In c (get_not_null_columns (fst call)) ->
                        exists v, Dict.get c r = Some v /\ truthy v = true)
              (snd call))
    (saved (exec (process_org_tables_into_dwh org_tables) initial_state)).
Proof.
  assert (H : rows_satisfy validated
                (exec (process_org_tables_into_dwh org_tables) initial_state)).
  { unfold exec. rewrite process_org_tables_into_dwh_run.
    assert (Hrows : ensures (preserved (rows_satisfy validated))
                      (process_rows_of_tables org_tables)).
    { unfold process_rows_of_tables. validated_step. validated_step.
      - validated_step.
      - validated_step. apply validated_row. }
    specialize (Hrows initial_state). unfold exec, bind in *.
    destruct (process_rows_of_tables org_tables initial_state) as [s1 [e|[]]];
      cbn [fst snd] in *.
    - apply Hrows. split; intros t rows [].
    - apply rows_satisfy_save_all. apply Hrows. split; intros t rows []. }
  destruct H as [Hs _]. apply Forall_forall. intros [t rows] Hin B.
  simpl in *. specialize (Hs t rows Hin).
  rewrite Forall_forall in *. intros r Hr. exact (Hs r Hr B).
Qed.


(** *** The encounter registrar, in full *)

Lemma series_max_shape (l : list value) (m : value) :
  series_max l = inr m -> m = VNaN \/ exists k, m = VInt k.
Proof.
  revert m. induction l as [|v l IH]; simpl; intros m.
  - intros [= <-]. auto.
  - destruct (series_max l) as [e|m0]; [discriminate|].
    destruct (IH m0 eq_refl) as [->|[k ->]];
      destruct v; intros H; try discriminate H; injection H as <-; eauto.
Qed.

Lemma series_max_is_max (l : list value) (top : Z) :
  series_max l = inr (VInt top) ->
  In (VInt top) l /\ forall n, In (VInt n) l -> (n <= top)%Z.
Proof.
  revert top. induction l as [|v l IH]; simpl; intros top; [discriminate|].
  destruct (series_max l) as [e|m0] eqn:Hm; [discriminate|].
  destruct (series_max_shape l Hm) as [->|[k ->]].
  - assert (Hnone : forall n, ~ In (VInt n) l).
    { clear IH. revert Hm. induction l as [|x l IHl]; simpl; [intros _ n []|].
      destruct (series_max l) as [e|m1] eqn:Hm1; [discriminate|].
      destruct (series_max_shape l Hm1) as [->|[k ->]];
        destruct x; intros H; try discriminate H;
        intros n0 [E|Hin]; try discriminate E; now apply (IHl eq_refl n0). }
    destruct v; intros H; try discriminate H; injection H as ->.
    split; [now left|]. intros n0 [[= ->]|Hin]; [lia | now apply Hnone in Hin].
  - destruct (IH k eq_refl) as [Hin Hle].
    destruct v; intros H; try discriminate H; injection H as <-.
    + split; [auto|]. intros n0 [E|Hn]; [discriminate E | auto].
    + split; [auto|]. intros n0 [E|Hn]; [discriminate E | auto].
    + split.
      * destruct (Z.max_spec n k) as [[_ ->]|[_ ->]]; auto.
      * intros n0 [[= ->]|Hn]; [lia|]. specialize (Hle n0 Hn). lia.
Qed.

Lemma series_max_of_numbers (l : list value) (n0 : Z) :
  forallb number_or_missing l = true -> In (VInt n0) l ->
  exists top, series_max l = inr (VInt top).
Proof.
  intros Hnum Hin. destruct (series_max_numbers l Hnum) as [H|H]; [|exact H].
  exfalso. revert Hnum H Hin. induction l as [|v l IH]; simpl; [intros _ _ []|].
  intros Hnum. apply andb_prop in Hnum. destruct Hnum as [Hv Hl].
  destruct (series_max_numbers l Hl) as [Hm|[k Hm]]; rewrite Hm.
  - destruct v; try discriminate; intros _ [E|H]; try discriminate E; auto.
  - destruct v; discriminate.
Qed.

Lemma is_in_date_In (day : Z) (table : list (value * value)) :
  is_in (VDate day) table = false -> ~ In (VDate day) (column fst table).
Proof.
  unfold is_in, column. intros H Hin. apply in_map_iff in Hin.
  destruct Hin as [[k v] [E Hin]]. simpl in E. subst k.
  assert (K : existsb (fun entry => py_eq (fst entry) (VDate day)) table = true).
  { apply existsb_exists. exists (VDate day, v). split; auto.
    simpl. apply Z.eqb_refl. }
  congruence.
Qed.

(** X14. When the encounter table holds numbers (or missing values) as
    encounter numbers, at least one of them a number, a request for a date
    the table lacks assigns the greatest number of the table plus one. The
    number is therefore new to the table; the entry (date, number) is put
    at the end of the table in memory, and dates and numbers that were
    pairwise different stay so. *)
Theorem new_encounter_number_is_fresh (mandatory_cols : row) (day time n0 : Z)
    (s : state) :
  Dict.get "start_date" mandatory_cols = Some (VDateTime day time) ->
  is_in (VDate day) (loaded_encounters s) = false ->
  forallb number_or_missing (column snd (loaded_encounters s)) = true ->
  In (VInt n0) (column snd (loaded_encounters s)) ->
  let table := loaded_encounters s in
  let s' := exec (add_encounter_num mandatory_cols) s in
  exists top,
    In (VInt top) (column snd table)
    /\ (forall n, In (VInt n) (column snd table) -> (n <= top)%Z)
    /\ outcome (add_encounter_num mandatory_cols) s
       = inr (Dict.set "encounter_num" (VInt (top + 1)) mandatory_cols)
    /\ encounters s' = Some (table ++ [(VDate day, VInt (top + 1))])
    /\ ~ In (VInt (top + 1)) (column snd table)
    /\ (NoDup (column fst table) ->
        NoDup (column fst (table ++ [(VDate day, VInt (top + 1))])))
    /\ (NoDup (column snd table) ->
        NoDup (column snd (table ++ [(VDate day, VInt (top + 1))]))).
Proof.
  intros G Hin Hnum Hn0. cbv zeta.
  destruct (series_max_of_numbers _ n0 Hnum Hn0) as [top Htop].
  destruct (series_max_is_max _ Htop) as [Hmem Hle].
  destruct (@add_encounter_num_new mandatory_cols day time s G Hin Hnum)
    as (Ho & He & _).
  assert (Hid : next_encounter_num (loaded_encounters s) = VInt (top + 1)).
  { unfold next_encounter_num. now rewrite Htop. }
  rewrite Hid in Ho, He.
  assert (Hnew : ~ In (VInt (top + 1)) (column snd (loaded_encounters s))).
  { intros H. specialize (Hle _ H). lia. }
  exists top. repeat (split; [assumption|]).
  unfold column in *. split; intros ND; rewrite map_app; simpl;
    apply NoDup_app; auto;
    try (constructor; [intros [] | constructor]);
    intros x Hx [<-|[]]; auto.
  now apply (is_in_date_In day (loaded_encounters s)).
Qed.

Lemma add_encounter_num_new_run (mandatory_cols : row) (day time : Z) (s : state) :
  Dict.get "start_date" mandatory_cols = Some (VDateTime day time) ->
  is_in (VDate day) (loaded_encounters s) = false ->
  match series_max (column snd (loaded_encounters s)) with
  | inl e => outcome (add_encounter_num mandatory_cols) s = inl e
  | inr top =>
      match plus_one top with
      | inl e => outcome (add_encounter_num mandatory_cols) s = inl e
      | inr id =>
          exists s1,
            add_encounter_num mandatory_cols s
            = (s1, inr (Dict.set "encounter_num" id mandatory_cols))
            /\ encounters s1 = Some (loaded_encounters s ++ [(VDate day, id)])
      end
  end.
Proof.
  intros G Hin. unfold add_encounter_num, outcome.
  rewrite !(@bind_ok _ _ _ _ _ _ _ (load_encounters_run s)).
  unfold start_date_of. rewrite G. unfold lift, bind, ret. rewrite Hin.
  destruct (series_max (column snd (loaded_encounters s))) as [e|top];
    [reflexivity|].
  destruct (plus_one top) as [e|id]; [reflexivity|].
  unfold modify. run_add_row. cbn [fst snd]. eexists. split; reflexivity.
Qed.

(** X15. A request that succeeded can be repeated at once: the second call
    returns the same row as the first and changes nothing - it finds the
    date in the table in memory, assigns no number and enqueues no row. *)
Theorem encounter_request_is_idempotent (mandatory_cols result : row) (s : state) :
  outcome (add_encounter_num mandatory_cols) s = inr result ->
  let s1 := exec (add_encounter_num mandatory_cols) s in
  add_encounter_num mandatory_cols s1 = (s1, inr result).
Proof.
  intros Ho. cbv zeta.
  assert (Hdate : exists day time,
             Dict.get "start_date" mandatory_cols = Some (VDateTime day time)).
  { unfold add_encounter_num, outcome in Ho.
    rewrite (@bind_ok _ _ _ _ _ _ _ (load_encounters_run s)) in Ho.
    unfold start_date_of in Ho.
    destruct (Dict.get "start_date" mandatory_cols) as [[]|];
      try discriminate Ho. eauto. }
  destruct Hdate as (day & time & G).
  assert (Hagain : forall s1 table,
             encounters s1 = Some table -> is_in (VDate day) table = true ->
             add_encounter_num mandatory_cols s1
             = (s1, inr (Dict.set "encounter_num" (first_match (VDate day) table)
                           mandatory_cols))).
  { intros s1 table E Hin.
    assert (Hl : loaded_encounters s1 = table)
      by (unfold loaded_encounters; now rewrite E).
    rewrite <- Hl in Hin.
    destruct (@add_encounter_num_known mandatory_cols day time s1 G Hin)
      as (H1 & _ & _ & _ & H5).
    specialize (H5 table E). unfold exec, outcome in H1, H5.
    destruct (add_encounter_num mandatory_cols s1) as [s2 x]. simpl in *.
    now rewrite H1, H5, Hl. }
  destruct (is_in (VDate day) (loaded_encounters s)) eqn:Hin.
  - destruct (@add_encounter_num_known mandatory_cols day time s G Hin)
      as (H1 & H2 & _).
    rewrite H1 in Ho. injection Ho as <-.
    now apply Hagain.
  - pose proof (@add_encounter_num_new_run mandatory_cols day time s G Hin) as Hnew.
    destruct (series_max (column snd (loaded_encounters s))) as [e|top];
      [congruence|].
    destruct (plus_one top) as [e|id]; [congruence|].
    destruct Hnew as (s1 & Hrun & Henc).
    unfold exec, outcome in *. rewrite Hrun in *. cbn [fst snd] in *.
    injection Ho as <-.
    rewrite (Hagain s1 _ Henc).
    + rewrite first_match_app_miss by assumption. simpl. now rewrite Z.eqb_refl.
    + rewrite is_in_app. simpl. rewrite Z.eqb_refl. apply orb_true_r.
Qed.

Lemma series_max_type_error (l : list value) :
  forallb number_or_missing l = false -> series_max l = inl TypeError.
Proof.
  induction l as [|v l IH]; simpl; [discriminate|].
  intros H. apply andb_false_iff in H.
  destruct (series_max l) as [e|m] eqn:Hm.
  - destruct H as [H|H]; [|now apply IH].
    clear IH. revert e Hm. induction l as [|x l IHl]; simpl; [discriminate|].
    intros e. destruct (series_max l) as [e'|m']; [intros [= <-]; eauto|].
    destruct x, m'; intros [= <-]; reflexivity.
  - destruct H as [H|H]; [|specialize (IH H); discriminate IH].
    destruct v; try discriminate H; reflexivity.
Qed.

Lemma add_encounter_num_run (mandatory_cols : row) (s : state) :
  add_encounter_num mandatory_cols s
  = let s0 := match encounters s with
              | Some _ => s
              | None => set_encounters stored_encounters s
              end in
    let table := loaded_encounters s in
    match start_date_of mandatory_cols with
    | inl e => (s0, inl e)
    | inr encounter_date =>
        if is_in encounter_date table
        then (s0, inr (Dict.set "encounter_num" (first_match encounter_date table)
                         mandatory_cols))
        else
          match series_max (column snd table) with
          | inl e => (s0, inl e)
          | inr top =>
              match plus_one top with
              | inl e => (s0, inl e)
              | inr id =>
                  (set_encounters (table ++ [(encounter_date, id)])
                     (exec (add_row_to_batch
                              [("date", encounter_date); ("encounter_num", id)]
                              "encounters") s0),
                   inr (Dict.set "encounter_num" id mandatory_cols))
              end
          end
    end.
Proof.
  cbv zeta. unfold add_encounter_num.
  rewrite !(@bind_ok _ _ _ _ _ _ _ (load_encounters_run s)).
  destruct (start_date_of mandatory_cols) as [e|d]; [reflexivity|].
  unfold lift, bind, ret.
  destruct (is_in d (loaded_encounters s)); [reflexivity|].
  destruct (series_max (column snd (loaded_encounters s))) as [e|top];
    [reflexivity|].
  destruct (plus_one top) as [e|id]; [reflexivity|].
  unfold modify, exec. run_add_row. reflexivity.
Qed.

(** X16. The failures of the encounter registrar. Without a [start_date]
    in the mandatory columns the request fails with [KeyError]; with a
    [start_date] that is not a datetime, with [AttributeError]; for a new
    date, when the table holds an encounter number that is neither a
    number nor missing, with [TypeError]. These are the only failures, and
    a failed request has only loaded the encounter table: it enqueues
    nothing, writes nothing and reports nothing to the progress printer. *)
Theorem encounter_request_failures (mandatory_cols : row) (s : state) :
  let request := add_encounter_num mandatory_cols in
  (Dict.get "start_date" mandatory_cols = None ->
     outcome request s = inl (KeyError "start_date"))
  /\ (forall v, Dict.get "start_date" mandatory_cols = Some v ->
        (forall day time, v <> VDateTime day time) ->
        outcome request s = inl AttributeError)
  /\ (forall day time,
        Dict.get "start_date" mandatory_cols = Some (VDateTime day time) ->
        is_in (VDate day) (loaded_encounters s) = false ->
        forallb number_or_missing (column snd (loaded_encounters s)) = false ->
        outcome request s = inl TypeError)
  /\ (forall e, outcome request s = inl e ->
        (e = KeyError "start_date" \/ e = AttributeError \/ e = TypeError)
        /\ encounters (exec request s) = Some (loaded_encounters s)
        /\ saved (exec request s) = saved s
        /\ batch_que (exec request s) = batch_que s
        /\ progress (exec request s) = progress s).
Proof.
  cbv zeta. unfold exec, outcome. rewrite add_encounter_num_run.
  assert (Hload : let s0 := match encounters s with
                            | Some _ => s
                            | None => set_encounters stored_encounters s
                            end in
                  encounters s0 = Some (loaded_encounters s)
                  /\ saved s0 = saved s /\ batch_que s0 = batch_que s
                  /\ progress s0 = progress s).
  { unfold loaded_encounters. destruct (encounters s) eqn:E; simpl; auto. }
  cbv zeta in Hload. unfold start_date_of. split; [|split; [|split]].
  - intros ->. reflexivity.
  - intros v -> Hv. destruct v; try reflexivity. now destruct (Hv day time).
  - intros day time -> Hin Hbad.
    now rewrite Hin, (series_max_type_error _ Hbad).
  - intros e.
    destruct (Dict.get "start_date" mandatory_cols) as [[| |w|n|d|day time]|];
      cbn [fst snd]; try (intros [= <-]; split; [auto | exact Hload]).
    destruct (is_in (VDate day) (loaded_encounters s)); [discriminate|].
    destruct (series_max (column snd (loaded_encounters s))) as [e'|top] eqn:Hm.
    + cbn [fst snd]. intros [= <-]. split; [|exact Hload].
      right. right.
      destruct (forallb number_or_missing (column snd (loaded_encounters s))) eqn:Hnum.
      * destruct (series_max_numbers _ Hnum) as [H|[n H]]; congruence.
      * rewrite (series_max_type_error _ Hnum) in Hm. congruence.
    + destruct (plus_one top) as [e'|id] eqn:Hp; [|discriminate].
      cbn [fst snd]. intros [= <-]. split; [|exact Hload].
      right. right. destruct top; try discriminate Hp; now injection Hp as <-.
Qed.


(** *** What the progress printer is told *)

Lemma count_reports_snoc (t : string) (failed : bool) (events : list (string * bool))
    (event : string * bool) :
  LogPrinter.count_reports t failed (events ++ [event])
  = (LogPrinter.count_reports t failed events
     + if String.eqb (fst event) t && Bool.eqb (snd event) failed then 1 else 0)%nat.
Proof.
  unfold LogPrinter.count_reports. rewrite filter_app, length_app. simpl.
  now destruct (String.eqb (fst event) t && Bool.eqb (snd event) failed).
Qed.

Lemma reports_add_row (r : row) (t : string) :
  ensures (preserved reports_match_queues) (add_row_to_batch r t).
Proof.
  intros s (H1 & H2 & H3).
  unfold reports_match_queues, reported in *.
  rewrite progress_add_row, filter_app, length_app.
  split; [|split].
  - intros t' Ht'. rewrite count_reports_snoc, enqueued_add_row, (H1 t' Ht').
    destruct (String.eqb t "exceptions") eqn:E; cbn [fst snd].
    + apply String.eqb_eq in E. subst t.
      apply String.eqb_neq in Ht'. rewrite Ht', andb_false_r. lia.
    + rewrite (String.eqb_sym t t'), andb_true_r.
      destruct (String.eqb t' t) eqn:Et; [|lia].
      apply String.eqb_eq in Et. subst t'. rewrite length_app. simpl. lia.
  - rewrite count_reports_snoc, H2.
    destruct (String.eqb t "exceptions") eqn:E; cbn [fst snd].
    + now rewrite andb_false_r.
    + now rewrite E.
  - rewrite enqueued_add_row, (String.eqb_sym "exceptions" t), H3.
    destruct (String.eqb t "exceptions") eqn:E; cbn [filter fst snd length].
    + apply String.eqb_eq in E. subst t. rewrite length_app. reflexivity.
    + lia.
Qed.

(** X17. What the progress printer is told agrees with the queues. While
    the source rows of a run are processed, the successes reported for a
    table other than [exceptions] are as many as the rows enqueued for
    it (whether or not they have reached storage yet), no success is ever
    reported for the [exceptions] table, and the failures reported are as
    many as the exception records enqueued. The final flush reports
    nothing. *)
Theorem progress_reports_match_queues (org_tables : Dict.t (list row)) :
  let s1 := exec (process_rows_of_tables org_tables) initial_state in
  let s2 := exec (process_org_tables_into_dwh org_tables) initial_state in
  (forall t, t <> "exceptions" -> reported t false s1 = length (enqueued t s1))
  /\ reported "exceptions" false s1 = 0%nat
  /\ length (filter snd (progress s1)) = length (enqueued "exceptions" s1)
  /\ progress s2 = progress s1.
Proof.
  cbv zeta.
  assert (H : reports_match_queues
                (exec (process_rows_of_tables org_tables) initial_state)).
  { apply (batch_guarantee_rows (R := preserved reports_match_queues)).
    - intros s I; exact I.
    - intros s1 s2 s3 H1 H2 I. auto.
    - intros s s' Hs Hq Hp.
      unfold preserved, reports_match_queues, reported, enqueued, written, queued.
      now rewrite Hs, Hq, Hp.
    - apply reports_add_row.
    - split; [intros t _; reflexivity | split; reflexivity]. }
  destruct H as (H1 & H2 & H3).
  split; [exact H1 | split; [exact H2 | split; [exact H3|]]].
  unfold exec. rewrite process_org_tables_into_dwh_run. unfold bind.
  destruct (process_rows_of_tables org_tables initial_state) as [s1 [e|[]]];
    cbn [fst snd]; [reflexivity|].
  now destruct (save_all_fields s1) as (_ & _ & _ & Hp & _).
Qed.

(** *** The cache of inspected tables *)

Lemma cached_columns_ok (t : string) (e : engine) :
  engine_ok e ->
  engine_ok (fst (cached_columns t e))
  /\ snd (cached_columns t e) = inspector_columns t
  /\ forall t', In t' (inspected (fst (cached_columns t e)))
                <-> In t' (inspected e) \/ t' = t.
Proof.
  intros (Hc & Hn & Hi). unfold cached_columns.
  destruct (Dict.get t (table_inspector_columns e)) as [cols|] eqn:G;
    cbn [fst snd].
  - split; [repeat split; auto; apply Hi | split; [now apply Hc|]].
    intros t'. split; [auto|]. intros [H| ->]; auto.
    apply Hi. unfold Dict.mem. now rewrite G.
  - assert (Hnew : ~ In t (inspected e)).
    { intros H. apply Hi in H. unfold Dict.mem in H. now rewrite G in H. }
    split; [split; [|split]|split; [reflexivity|]]; cbn [table_inspector_columns inspected].
    + intros t' cols. rewrite get_set.
      destruct (String.eqb t' t) eqn:E; [|apply Hc].
      apply String.eqb_eq in E. subst t'. now intros [= <-].
    + apply NoDup_app; auto.
      * constructor; [intros [] | constructor].
      * intros x Hx [<-|[]]. auto.
    + intros t'. rewrite mem_set, in_app_iff, orb_true_iff, Hi, String.eqb_eq.
      simpl. split; intros [H|H]; auto.
      destruct H as [H|[]]; auto.
    + intros t'. rewrite in_app_iff. simpl.
      split; intros [H|H]; auto. destruct H as [H|[]]; auto.
Qed.

Lemma engine_calls_ok (calls : list (bool * string)) (e : engine) :
  engine_ok e ->
  engine_ok (fst (engine_calls calls e))
  /\ snd (engine_calls calls e)
     = map (fun c : bool * string =>
              if fst c then get_not_null_columns (snd c) else get_columns (snd c))
         calls
  /\ forall t, In t (inspected (fst (engine_calls calls e)))
               <-> In t (inspected e) \/ In t (map snd calls).
Proof.
  revert e. induction calls as [|[not_null t] calls IH]; intros e Hok.
  - simpl. split; [exact Hok | split; [reflexivity|]].
    intros t. split; [auto | intros [H|[]]; exact H].
  - destruct (cached_columns_ok t Hok) as (Hok1 & Hcols & Hin1).
    simpl engine_calls.
    unfold engine_get_not_null_columns, engine_get_columns.
    destruct (cached_columns t e) as [e1 cols]. cbn [fst snd] in *. subst cols.
    assert (Hstep : (if not_null
                     then (e1, map col_name
                                 (filter (fun col => negb (nullable col))
                                    (inspector_columns t)))
                     else (e1, map col_name (inspector_columns t)))
                    = (e1, if not_null then get_not_null_columns t
                           else get_columns t)).
    { now destruct not_null. }
    rewrite Hstep. destruct (IH e1 Hok1) as (Hok2 & Hres & Hin2).
    destruct (engine_calls calls e1) as [e2 results]. cbn [fst snd] in *.
    split; [exact Hok2 | split; [now rewrite Hres|]].
    intros t'. rewrite Hin2, Hin1. simpl.
    split; [intros [[H|H]|H] | intros [H|[H|H]]]; auto.
Qed.

(** X18. The engine asks the inspector for the columns of a table the
    first time either [get_columns] or [get_not_null_columns] is called for
    it, and never again: over any sequence of calls on a new engine the
    tables inspected are exactly the tables asked for, each once, and every
    call returns what the inspector says of the table - all its column
    names, or those of its columns that are not nullable, in the
    inspector's order. *)
Theorem columns_are_inspected_once (calls : list (bool * string)) :
  let run := engine_calls calls (Engine [] []) in
  snd run
  = map (fun c : bool * string =>
           if fst c then get_not_null_columns (snd c) else get_columns (snd c))
      calls
  /\ NoDup (inspected (fst run))
  /\ (forall t, In t (inspected (fst run)) <-> In t (map snd calls))
  /\ (forall t c, In c (get_not_null_columns t) -> In c (get_columns t)).
Proof.
  cbv zeta.
  assert (Hok : engine_ok (Engine [] [])).
  { split; [intros t cols H; discriminate H | split; [constructor|]].
    intros t. simpl. split; [intros [] | discriminate]. }
  destruct (engine_calls_ok calls Hok) as ((_ & Hn & _) & Hres & Hin).
  split; [exact Hres | split; [exact Hn | split]].
  - intros t. rewrite Hin. simpl. split; [intros [[]|H]; exact H | auto].
  - intros t c. unfold get_not_null_columns, get_columns. rewrite !in_map_iff.
    intros [col [E H]]. apply filter_In in H. exists col. split; [exact E | apply H].
Qed.


(** *** The rows of the observation transformer *)

Lemma get_assemble (mandatory_cols : row) (catalog_row : catalog_rule) (v : value)
    (k : string) :
  k <> "concept_cd" -> k <> "modifier_cd" -> k <> "valtype_cd" ->
  Dict.get k (assemble mandatory_cols catalog_row v)
  = if String.eqb k (target_column catalog_row) then Some v
    else Dict.get k mandatory_cols.
Proof.
  intros N1 N2 N3. unfold assemble.
  repeat match goal with
         | |- context [if Dict.mem ?a ?b then _ else _] => destruct (Dict.mem a b)
         end;
    rewrite ?get_set_other by assumption; apply get_set.
Qed.

Lemma valtype_assemble (mandatory_cols : row) (catalog_row : catalog_rule) (v : value) :
  Dict.get "valtype_cd" (assemble mandatory_cols catalog_row v)
  = if String.eqb "tval_char" (target_column catalog_row)
       || Dict.mem "tval_char" mandatory_cols
    then Some (VStr "t")
    else if String.eqb "nval_num" (target_column catalog_row)
            || Dict.mem "nval_num" mandatory_cols
         then Some (VStr "n")
         else if String.eqb "valtype_cd" (target_column catalog_row) then Some v
              else Dict.get "valtype_cd" mandatory_cols.
Proof.
  unfold assemble. rewrite !mem_set.
  change (String.eqb "tval_char" "modifier_cd") with false.
  change (String.eqb "tval_char" "concept_cd") with false.
  change (String.eqb "nval_num" "modifier_cd") with false.
  change (String.eqb "nval_num" "concept_cd") with false.
  cbn [orb].
  destruct (String.eqb "tval_char" (target_column catalog_row)
            || Dict.mem "tval_char" mandatory_cols); [apply get_set_same|].
  destruct (String.eqb "nval_num" (target_column catalog_row)
            || Dict.mem "nval_num" mandatory_cols); [apply get_set_same|].
  rewrite !get_set_other by discriminate. apply get_set.
Qed.

(** X19. A fan-out rule of the observation transformer. The row it
    assembles is a copy of the mandatory columns with the source value
    under the target column of the rule and the concept and modifier codes
    of the rule; its [valtype_cd] is ['t'] when the row has a [tval_char]
    key, else ['n'] when it has an [nval_num] key, and is left alone
    otherwise. When the source row lacks the source column of the rule,
    the rule fails with [KeyError] and changes nothing. When the source
    value is not null, the rule never fails: the assembled row is
    translated and, if it passes the NOT NULL validation of
    [observation_fact], enqueued once for that table; if not, one
    exception record naming the first failing column is enqueued instead. *)
Theorem observation_rule_outcomes (mandatory_cols org_row : row)
    (catalog_row : catalog_rule) :
  let rule := process_row_by_observation_fact_rules mandatory_cols org_row catalog_row in
  (forall v,
     let new_row := assemble mandatory_cols catalog_row v in
     Dict.get "concept_cd" new_row = Some (str_or_none (concept_cd catalog_row))
     /\ Dict.get "modifier_cd" new_row = Some (str_or_none (modifier_cd catalog_row))
     /\ Dict.get "valtype_cd" new_row
        = (if String.eqb "tval_char" (target_column catalog_row)
              || Dict.mem "tval_char" mandatory_cols
           then Some (VStr "t")
           else if String.eqb "nval_num" (target_column catalog_row)
                   || Dict.mem "nval_num" mandatory_cols
                then Some (VStr "n")
                else if String.eqb "valtype_cd" (target_column catalog_row)
                     then Some v
                     else Dict.get "valtype_cd" mandatory_cols)
     /\ (forall k, k <> "concept_cd" -> k <> "modifier_cd" -> k <> "valtype_cd" ->
           Dict.get k new_row
           = if String.eqb k (target_column catalog_row) then Some v
             else Dict.get k mandatory_cols)
     /\ (Dict.wf mandatory_cols -> Dict.wf new_row))
  /\ (forall s, Dict.get (column_name catalog_row) org_row = None ->
        rule s = (s, inl (KeyError (column_name catalog_row))))
  /\ (forall v s,
        Dict.get (column_name catalog_row) org_row = Some v -> pd_isna v = false ->
        Dict.wf mandatory_cols -> current_dwh_table_name s = "observation_fact" ->
        outcome rule s = inr tt
        /\ queued_or_recorded
             (translated_row s (assemble mandatory_cols catalog_row v))
             "observation_fact" s (exec rule s)).
Proof.
  cbv zeta. split; [|split].
  - intros v. split; [|split; [|split; [|split]]].
    + unfold assemble.
      repeat match goal with
             | |- context [if Dict.mem ?a ?b then _ else _] => destruct (Dict.mem a b)
             end;
        rewrite ?get_set_other by discriminate; apply get_set_same.
    + unfold assemble.
      repeat match goal with
             | |- context [if Dict.mem ?a ?b then _ else _] => destruct (Dict.mem a b)
             end;
        rewrite ?get_set_other by discriminate; apply get_set_same.
    + apply valtype_assemble.
    + intros k. apply get_assemble.
    + apply wf_assemble.
  - intros s G. unfold process_row_by_observation_fact_rules, org_value.
    now rewrite G.
  - intros v s G N W Hcur.
    pose proof (wf_assemble catalog_row v W) as Wa.
    destruct (@translate_then_queue_run org_row _ "observation_fact" s Wa Hcur)
      as [Ho Hq]; try discriminate.
    unfold process_row_by_observation_fact_rules, org_value, exec, outcome in *.
    rewrite G. unfold lift, bind at 1 3, ret at 1 2. rewrite N.
    split; [exact Ho | exact Hq].
Qed.


(** *** The rows of the dictionary and encounters tables *)

Lemma bookkeeping_frame (s s' : state) :
  saved s' = saved s -> batch_que s' = batch_que s ->
  translated s' = translated s -> encounters s' = encounters s ->
  bookkeeping_consistent s -> bookkeeping_consistent s'.
Proof.
  unfold bookkeeping_consistent, enqueued, written, queued, loaded_encounters.
  intros -> -> -> ->. auto.
Qed.

Lemma bookkeeping_enqueued (s s' : state) :
  enqueued "dictionary" s' = enqueued "dictionary" s ->
  enqueued "encounters" s' = enqueued "encounters" s ->
  translated s' = translated s -> encounters s' = encounters s ->
  bookkeeping_consistent s -> bookkeeping_consistent s'.
Proof.
  unfold bookkeeping_consistent, loaded_encounters.
  intros -> -> -> ->. auto.
Qed.

Lemma bookkeeping_add_row (r : row) (t : string) :
  t <> "dictionary" -> t <> "encounters" ->
  ensures (preserved bookkeeping_consistent) (add_row_to_batch r t).
Proof.
  intros Nd Ne s.
  destruct (add_row_keeps r t s) as (_ & H2 & _ & _ & H5 & _).
  unfold preserved. apply bookkeeping_enqueued; auto; rewrite enqueued_add_row.
  - replace (String.eqb "dictionary" t) with false; auto.
    symmetry. apply String.eqb_neq. congruence.
  - replace (String.eqb "encounters" t) with false; auto.
    symmetry. apply String.eqb_neq. congruence.
Qed.

Lemma bookkeeping_translate_word (w : string) :
  ensures (preserved bookkeeping_consistent) (translate_word w).
Proof.
  intros s (Hd & He & Hn).
  pose proof (translate_word_run w s) as H. cbv zeta in H.
  destruct (translate_word_keeps w s) as (_ & _ & Henc).
  unfold bookkeeping_consistent, loaded_encounters in *. rewrite Henc.
  destruct (is_in (VStr w) (loaded_dictionary s));
    destruct H as (_ & _ & Ht & Hq); rewrite Ht, !Hq.
  - auto.
  - cbn. rewrite map_app, Hd. auto.
Qed.

Lemma bookkeeping_new_encounter (s0 s2 : state) (entry : value * value) :
  bookkeeping_consistent s0 ->
  enqueued "dictionary" s2 = enqueued "dictionary" s0 ->
  translated s2 = translated s0 ->
  loaded_encounters s2 = loaded_encounters s0 ++ [entry] ->
  enqueued "encounters" s2 = enqueued "encounters" s0 ++ [encounter_row entry] ->
  ~ In (fst entry) (column fst (loaded_encounters s0)) ->
  bookkeeping_consistent s2.
Proof.
  intros (Hd & (added & Ha & Hq) & Hn) Ed Et El Ee Hnew.
  unfold bookkeeping_consistent. rewrite Ed, Et, El, Ee.
  split; [exact Hd | split].
  - exists (added ++ [entry]). rewrite Ha, Hq, map_app, app_assoc. auto.
  - intros ND. specialize (Hn ND). unfold column in *. rewrite map_app. simpl.
    apply NoDup_app; auto.
    + constructor; [intros [] | constructor].
    + intros x Hx [<-|[]]. auto.
Qed.

Lemma bookkeeping_add_encounter_num (mandatory_cols : row) :
  ensures (preserved bookkeeping_consistent) (add_encounter_num mandatory_cols).
Proof.
  intros s I. unfold exec. rewrite add_encounter_num_run. cbv zeta.
  assert (Hload : bookkeeping_consistent
                    match encounters s with
                    | Some _ => s
                    | None => set_encounters stored_encounters s
                    end
                  /\ loaded_encounters
                       match encounters s with
                       | Some _ => s
                       | None => set_encounters stored_encounters s
                       end
                     = loaded_encounters s).
  { split.
    - unfold bookkeeping_consistent, loaded_encounters in *.
      destruct (encounters s) eqn:E; simpl; rewrite ?E; exact I.
    - unfold loaded_encounters.
      destruct (encounters s) eqn:E; simpl; now rewrite ?E. }
  destruct Hload as [I0 Hl0].
  set (s0 := match encounters s with
             | Some _ => s
             | None => set_encounters stored_encounters s
             end) in *.
  unfold start_date_of.
  destruct (Dict.get "start_date" mandatory_cols) as [[| |w|n|d|day time]|];
    try exact I0.
  destruct (is_in (VDate day) (loaded_encounters s)) eqn:Hin; [exact I0|].
  destruct (series_max (column snd (loaded_encounters s))) as [e|top]; [exact I0|].
  destruct (plus_one top) as [e|id]; [exact I0|]. cbn [fst snd].
  set (new_row := [("date", VDate day); ("encounter_num", id)]).
  apply (@bookkeeping_new_encounter s0 _ (VDate day, id) I0).
  - change (enqueued "dictionary" (exec (add_row_to_batch new_row "encounters") s0)
            = enqueued "dictionary" s0).
    now rewrite enqueued_add_row.
  - change (translated (exec (add_row_to_batch new_row "encounters") s0)
            = translated s0).
    apply add_row_keeps.
  - unfold loaded_encounters at 1. simpl. now rewrite Hl0.
  - change (enqueued "encounters" (exec (add_row_to_batch new_row "encounters") s0)
            = enqueued "encounters" s0 ++ [encounter_row (VDate day, id)]).
    now rewrite enqueued_add_row.
  - rewrite Hl0. simpl. now apply is_in_date_In.
Qed.

Lemma keeps_bookkeeping_refl (s : state) : keeps_bookkeeping s s.
Proof. intros F I. auto. Qed.

Lemma keeps_bookkeeping_trans (s1 s2 s3 : state) :
  keeps_bookkeeping s1 s2 -> keeps_bookkeeping s2 s3 -> keeps_bookkeeping s1 s3.
Proof. intros H1 H2 F I. destruct (H1 F I) as [I2 F2]. auto. Qed.

Lemma keeps_bookkeeping_intro (s s' : state) :
  current_dwh_table_name s' = current_dwh_table_name s ->
  preserved bookkeeping_consistent s s' -> keeps_bookkeeping s s'.
Proof.
  intros Hc Hp F I. split; [auto|]. unfold feeds_warehouse_table in *. now rewrite Hc.
Qed.

Lemma add_encounter_num_keeps_current (mandatory_cols : row) (s : state) :
  current_dwh_table_name (exec (add_encounter_num mandatory_cols) s)
  = current_dwh_table_name s.
Proof.
  unfold exec. rewrite add_encounter_num_run. cbv zeta.
  assert (H0 : current_dwh_table_name
                 match encounters s with
                 | Some _ => s
                 | None => set_encounters stored_encounters s
                 end
               = current_dwh_table_name s)
    by (destruct (encounters s); reflexivity).
  set (s0 := match encounters s with
             | Some _ => s
             | None => set_encounters stored_encounters s
             end) in *.
  destruct (start_date_of mandatory_cols) as [e|d]; [exact H0|].
  destruct (is_in d (loaded_encounters s)); [exact H0|].
  destruct (series_max (column snd (loaded_encounters s))) as [e|top]; [exact H0|].
  destruct (plus_one top) as [e|id]; [exact H0|]. cbn [fst snd].
  set (new_row := [("date", d); ("encounter_num", id)]).
  change (current_dwh_table_name (exec (add_row_to_batch new_row "encounters") s0)
          = current_dwh_table_name s).
  rewrite <- H0. apply add_row_keeps.
Qed.

Lemma keeps_bookkeeping_pair (org_row : row) (org_table dwh_table : string) :
  ensures (preserved bookkeeping_consistent) (process_pair org_row org_table dwh_table).
Proof.
  assert (Hexc : forall r, ensures (preserved bookkeeping_consistent)
                             (add_row_to_batch r "exceptions")).
  { intros r. apply bookkeeping_add_row; discriminate. }
  assert (Hlog : forall msg, ensures (preserved bookkeeping_consistent)
                               (write_to_log_file msg)).
  { intros msg s. unfold preserved. now apply bookkeeping_frame. }
  assert (Hrefl : forall s, preserved bookkeeping_consistent s s)
    by (intros s I; exact I).
  assert (Htrans : forall s1 s2 s3,
             preserved bookkeeping_consistent s1 s2 ->
             preserved bookkeeping_consistent s2 s3 ->
             preserved bookkeeping_consistent s1 s3)
    by (intros s1 s2 s3 H1 H2 I; auto).
  assert (Gcur : forall r, ensures keeps_bookkeeping (add_row_to_current_batch r)).
  { intros r s F I. unfold add_row_to_current_batch, exec, bind, read. cbn [fst snd].
    fold (exec (add_row_to_batch r (current_dwh_table_name s)) s).
    destruct (add_row_keeps r (current_dwh_table_name s) s) as (_ & _ & _ & H4 & _).
    split.
    - unfold feeds_warehouse_table in F. apply andb_prop in F.
      destruct F as [F1 F2]. apply negb_true_iff in F1, F2.
      apply String.eqb_neq in F1, F2. now apply bookkeeping_add_row.
    - unfold feeds_warehouse_table in *. now rewrite H4. }
  assert (Gexc : forall r, ensures keeps_bookkeeping (add_row_to_batch r "exceptions")).
  { intros r s. apply keeps_bookkeeping_intro; [apply add_row_keeps | apply Hexc]. }
  assert (Glog : forall msg, ensures keeps_bookkeeping (write_to_log_file msg)).
  { intros msg s. apply keeps_bookkeeping_intro; [reflexivity | apply Hlog]. }
  assert (Gword : forall w, ensures keeps_bookkeeping (translate_word w)).
  { intros w s. apply keeps_bookkeeping_intro;
      [apply translate_word_keeps | apply bookkeeping_translate_word]. }
  assert (Genc : forall mc, ensures keeps_bookkeeping (add_encounter_num mc)).
  { intros mc s. apply keeps_bookkeeping_intro;
      [apply add_encounter_num_keeps_current | apply bookkeeping_add_encounter_num]. }
  intros s I. unfold process_pair, exec, bind, modify. cbn [fst snd].
  set (s1 := set_current_dwh_table_name dwh_table s).
  assert (I1 : bookkeeping_consistent s1) by (revert I; now apply bookkeeping_frame).
  destruct (get_mandatory_cols (rules_of_pair org_table dwh_table) org_row) as [e|mc].
  - destruct e; try exact I1.
    exact (ensures_handle_exception Hrefl Htrans Hexc Hlog org_row []
             (MandatoryFieldMissing org_col_name) s1 I1).
  - unfold dispatch.
    destruct (String.eqb dwh_table "concept_dimension") eqn:E1.
    { apply String.eqb_eq in E1.
      apply (ensures_concept_dimension_process keeps_bookkeeping_refl
               keeps_bookkeeping_trans Gcur Gexc Glog Gword mc org_row s1);
        [|exact I1]. unfold feeds_warehouse_table, s1. simpl. now rewrite E1. }
    destruct (String.eqb dwh_table "patient_dimension") eqn:E2.
    { apply String.eqb_eq in E2.
      apply (ensures_patient_dimension_process keeps_bookkeeping_refl
               keeps_bookkeeping_trans Gcur Gexc Glog Gword mc org_row
               (rules_of_pair org_table dwh_table) s1);
        [|exact I1]. unfold feeds_warehouse_table, s1. simpl. now rewrite E2. }
    destruct (String.eqb dwh_table "observation_fact") eqn:E3; [|exact I1].
    apply String.eqb_eq in E3.
    apply (ensures_observation_fact_process keeps_bookkeeping_refl
             keeps_bookkeeping_trans Gcur Gexc Glog Gword Genc mc org_row
             (rules_of_pair org_table dwh_table) s1);
      [|exact I1]. unfold feeds_warehouse_table, s1. simpl. now rewrite E3.
Qed.

(** X20. What a run sends to the [dictionary] and [encounters] tables.
    While the source rows are processed, the [dictionary] table is given
    exactly one row per call of the translation service, in the order of
    the calls, holding the text and its translation; the [encounters]
    table is given exactly one row per entry the registrar added to the
    encounter table in memory, in the order they were added, holding the
    date and the number assigned; nothing else is ever enqueued for either
    table. If the dates of the stored encounter table are pairwise
    different, so are those of the table in memory: no date gets a second
    number. *)
Theorem bookkeeping_rows_of_a_run (org_tables : Dict.t (list row)) :
  let s := exec (process_rows_of_tables org_tables) initial_state in
  enqueued "dictionary" s = map dictionary_row (translated s)
  /\ (exists added,
        loaded_encounters s = stored_encounters ++ added
        /\ enqueued "encounters" s = map encounter_row added)
  /\ (NoDup (column fst stored_encounters) ->
      NoDup (column fst (loaded_encounters s))).
Proof.
  cbv zeta.
  assert (Hrows : ensures (preserved bookkeeping_consistent)
                    (process_rows_of_tables org_tables)).
  { unfold process_rows_of_tables.
    apply ensures_for_each;
      [intros s I; exact I | intros s1 s2 s3 H1 H2 I; auto |].
    intros [name table]. simpl.
    apply ensures_bind; [intros s1 s2 s3 H1 H2 I; auto | |].
    - intros s. unfold preserved. now apply bookkeeping_frame.
    - intros _. apply ensures_for_each;
        [intros s I; exact I | intros s1 s2 s3 H1 H2 I; auto |].
      intros org_row. unfold process_org_row_into_dwh.
      apply ensures_bind; [intros s1 s2 s3 H1 H2 I; auto | |].
      + apply ensures_read. intros s I; exact I.
      + intros org_table. apply ensures_for_each;
          [intros s I; exact I | intros s1 s2 s3 H1 H2 I; auto |].
        intros dwh_table. apply keeps_bookkeeping_pair. }
  apply Hrows. unfold bookkeeping_consistent, loaded_encounters. simpl.
  split; [reflexivity | split; [|auto]].
  exists []. now rewrite app_nil_r.
Qed.


(** *** Fan-out independence *)

Lemma translation_of_frame (s s' : state) (v : value) :
  dwh_dictionary s' = dwh_dictionary s -> translation_of s' v = translation_of s v.
Proof.
  intros H. unfold translation_of, loaded_dictionary. now rewrite H.
Qed.

(** The rules of the observation transformer leave every translation as
    it is: they only add to the dictionary the texts it lacks. *)
Lemma translation_of_rule (mandatory_cols org_row : row) (catalog_row : catalog_rule) :
  ensures (fun s s' => forall v, translation_of s' v = translation_of s v)
    (process_row_by_observation_fact_rules mandatory_cols org_row catalog_row).
Proof.
  apply ensures_process_row_by_observation_fact_rules.
  - intros s v. reflexivity.
  - intros s1 s2 s3 H1 H2 v. now rewrite H2, H1.
  - intros r s v. unfold add_row_to_current_batch, exec, bind, read. cbn [fst snd].
    apply translation_of_frame.
    apply (add_row_keeps r (current_dwh_table_name s) s).
  - intros r s v. apply translation_of_frame. apply (add_row_keeps r "exceptions" s).
  - intros msg s v. now apply translation_of_frame.
  - intros w s v. apply translation_of_translate_word.
Qed.

Lemma rows_of_rule_stable (s s' : state) (mandatory_cols org_row : row)
    (catalog_row : catalog_rule) :
  (forall v, translation_of s' v = translation_of s v) ->
  rows_of_rule s' mandatory_cols org_row catalog_row
  = rows_of_rule s mandatory_cols org_row catalog_row.
Proof.
  intros H. unfold rows_of_rule.
  destruct (Dict.get (column_name catalog_row) org_row) as [v|]; [|reflexivity].
  destruct (pd_isna v); [reflexivity|].
  replace (translated_row s' (assemble mandatory_cols catalog_row v))
    with (translated_row s (assemble mandatory_cols catalog_row v)); [reflexivity|].
  unfold translated_row. apply map_ext. intros item. now rewrite H.
Qed.

(** One rule: it gives the observation table the rows [rows_of_rule] tells,
    and the [exceptions] table one record when it gives no row. *)
Lemma fan_out_rule_step (mandatory_cols org_row : row) (catalog_row : catalog_rule)
    (s : state) :
  Dict.wf mandatory_cols ->
  current_dwh_table_name s = "observation_fact" ->
  Dict.mem (column_name catalog_row) org_row = true ->
  let rule := process_row_by_observation_fact_rules mandatory_cols org_row catalog_row in
  let rows := rows_of_rule s mandatory_cols org_row catalog_row in
  outcome rule s = inr tt
  /\ current_dwh_table_name (exec rule s) = "observation_fact"
  /\ enqueued "observation_fact" (exec rule s) = enqueued "observation_fact" s ++ rows
  /\ (length (enqueued "exceptions" (exec rule s)) + length rows
      = S (length (enqueued "exceptions" s)))%nat.
Proof.
  intros W Hcur Hmem. cbv zeta. unfold rows_of_rule.
  unfold Dict.mem in Hmem.
  destruct (Dict.get (column_name catalog_row) org_row) as [v|] eqn:G;
    [clear Hmem | discriminate Hmem].
  destruct (pd_isna v) eqn:N.
  - unfold exec, outcome.
    rewrite (missing_source_value_run mandatory_cols org_row catalog_row s G N).
    destruct (@handle_exception_run org_row mandatory_cols
                (OriginalDataFieldIsMissing (column_name catalog_row)) s eq_refl)
      as (Ho & Henq & Hsame).
    unfold exec, outcome in *. split; [exact Ho|].
    split; [destruct Hsame as (_ & _ & _ & H & _); congruence|].
    rewrite !Henq.
    change (String.eqb "observation_fact" "exceptions") with false.
    change (String.eqb "exceptions" "exceptions") with true.
    cbn iota. rewrite app_nil_r, length_app. simpl.
    split; [reflexivity | lia].
  - destruct (fan_out_rule_run mandatory_cols org_row catalog_row s G N Hcur)
      as (_ & _ & Ho & Hc & _).
    split; [exact Ho | split; [exact Hc|]].
    pose proof (wf_assemble catalog_row v W) as Wa.
    destruct (@translate_then_queue_run org_row _ "observation_fact" s Wa Hcur)
      as [_ Hq]; try discriminate.
    assert (E : exec (process_row_by_observation_fact_rules mandatory_cols org_row
                        catalog_row) s
                = exec (new_row <- translate_heb_words
                                     (assemble mandatory_cols catalog_row v) ;;
                        validate_and_queue org_row new_row) s).
    { unfold process_row_by_observation_fact_rules, org_value, exec.
      rewrite G. unfold lift, bind at 1, ret at 1. now rewrite N. }
    rewrite E. unfold queued_or_recorded, fan_out_rows in *.
    destruct (check_not_null (get_not_null_columns "observation_fact")
                (translated_row s (assemble mandatory_cols catalog_row v)))
      as [e|[]].
    + destruct Hq as (H1 & record & H2 & _). rewrite H1, H2, app_nil_r, length_app.
      simpl. split; [reflexivity | lia].
    + destruct Hq as (H1 & H2). rewrite H1, H2. simpl. split; [reflexivity | lia].
Qed.

(** The rules of a loop, each of which names a column of the source row. *)
Lemma fan_out_rules_step (mandatory_cols org_row : row) (rules : list catalog_rule)
    (s : state) :
  Dict.wf mandatory_cols ->
  current_dwh_table_name s = "observation_fact" ->
  (forall x, In x rules -> Dict.mem (column_name x) org_row = true) ->
  let run := for_each rules (process_row_by_observation_fact_rules mandatory_cols org_row) in
  let rows := concat (map (rows_of_rule s mandatory_cols org_row) rules) in
  outcome run s = inr tt
  /\ enqueued "observation_fact" (exec run s) = enqueued "observation_fact" s ++ rows
  /\ (length (enqueued "exceptions" (exec run s)) + length rows
      = length (enqueued "exceptions" s) + length rules)%nat.
Proof.
  intros W. cbv zeta. revert s.
  induction rules as [|r rules IH]; intros s Hcur Hmem.
  - simpl. rewrite app_nil_r. repeat split; lia.
  - destruct (@fan_out_rule_step mandatory_cols org_row r s W Hcur
                (Hmem r (or_introl eq_refl))) as (Ho & Hc & Hobs & Hexc).
    pose proof (translation_of_rule mandatory_cols org_row r s) as Hstable.
    simpl for_each. unfold exec, outcome, bind in *.
    destruct (process_row_by_observation_fact_rules mandatory_cols org_row r s)
      as [s1 [e|[]]]; cbn [fst snd] in *; [discriminate Ho|].
    destruct (IH s1 Hc) as (Ko & Kobs & Kexc).
    { intros x Hx. apply Hmem. now right. }
    assert (Hrows : map (rows_of_rule s1 mandatory_cols org_row) rules
                    = map (rows_of_rule s mandatory_cols org_row) rules).
    { apply map_ext. intros x. now apply rows_of_rule_stable. }
    rewrite Hrows in Kobs, Kexc.
    split; [exact Ko|]. cbn [map concat]. split.
    + rewrite Kobs, Hobs. now rewrite app_assoc.
    + rewrite length_app. simpl length. lia.
Qed.

(** C3, as the code has it. Take a source row that is processed into the
    observation table and the rules the transformer evaluates for it, in
    their order, each naming a column of the source row; let the source
    field of one of them be null. That rule gives no row: it records
    [OriginalDataFieldIsMissing] for its field, as one row for the
    [exceptions] table, and enqueues nothing else. Every sibling rule
    whose source field is not null gives its own row, the row it assembles,
    translated and completed, provided that row passes the NOT NULL
    validation of the observation table; if it does not, the sibling gives
    no row and one exception record naming the first failing column is
    enqueued for it. The loop ends normally; the
    observation table is given the rows of the siblings, in the order of
    the rules, and every rule has given either a row or an exception
    record. In every table but [exceptions] the loop enqueues exactly what
    it enqueues when the rule with the null field is not there. *)
Theorem fan_out_independence (mandatory_cols org_row : row)
    (before after : list catalog_rule) (catalog_row : catalog_rule) (v : value)
    (s : state) :
  Dict.wf mandatory_cols ->
  current_dwh_table_name s = "observation_fact" ->
  (forall x, In x (before ++ after) -> Dict.mem (column_name x) org_row = true) ->
  Dict.get (column_name catalog_row) org_row = Some v -> pd_isna v = true ->
  let rule := process_row_by_observation_fact_rules mandatory_cols org_row in
  let failure := OriginalDataFieldIsMissing (column_name catalog_row) in
  let rules := before ++ catalog_row :: after in
  let s' := exec (for_each rules rule) s in
  let rows_of := rows_of_rule s mandatory_cols org_row in
  (forall s0,
     outcome (rule catalog_row) s0 = inr tt
     /\ Dict.get "org_col" (recorded s0 mandatory_cols failure)
        = Some (VStr (column_name catalog_row))
     /\ forall t, enqueued t (exec (rule catalog_row) s0)
          = if String.eqb t "exceptions"
            then enqueued "exceptions" s0 ++ [recorded s0 mandatory_cols failure]
            else enqueued t s0)
  /\ rows_of catalog_row = []
  /\ (forall x w,
        In x (before ++ after) ->
        Dict.get (column_name x) org_row = Some w -> pd_isna w = false ->
        let new_row := translated_row s (assemble mandatory_cols x w) in
        rows_of x
        = match check_not_null (get_not_null_columns "observation_fact") new_row with
          | inr _ => [fill_missing (get_columns "observation_fact") new_row]
          | inl _ => []
          end)
  /\ (forall x w s0,
        In x (before ++ after) ->
        Dict.get (column_name x) org_row = Some w -> pd_isna w = false ->
        current_dwh_table_name s0 = "observation_fact" ->
        outcome (rule x) s0 = inr tt
        /\ queued_or_recorded (translated_row s0 (assemble mandatory_cols x w))
             "observation_fact" s0 (exec (rule x) s0))
  /\ outcome (for_each rules rule) s = inr tt
  /\ enqueued "observation_fact" s'
     = enqueued "observation_fact" s ++ concat (map rows_of (before ++ after))
  /\ (length (enqueued "exceptions" s')
      + length (concat (map rows_of (before ++ after)))
      = length (enqueued "exceptions" s) + length rules)%nat
  /\ forall t, t <> "exceptions" ->
       enqueued t s' = enqueued t (exec (for_each (before ++ after) rule) s).
Proof.
  intros W Hcur Hmem G N. cbv zeta.
  destruct (null_rule_is_skipped mandatory_cols org_row before after catalog_row s G N)
    as (H1 & _ & H3).
  assert (Hnull : rows_of_rule s mandatory_cols org_row catalog_row = []).
  { unfold rows_of_rule. now rewrite G, N. }
  assert (Hall : forall x, In x (before ++ catalog_row :: after) ->
                   Dict.mem (column_name x) org_row = true).
  { intros x Hx. apply in_app_or in Hx. destruct Hx as [Hx|[<-|Hx]].
    - apply Hmem, in_or_app. now left.
    - unfold Dict.mem. now rewrite G.
    - apply Hmem, in_or_app. now right. }
  destruct (@fan_out_rules_step mandatory_cols org_row
              (before ++ catalog_row :: after) s W Hcur Hall) as (Ko & Kobs & Kexc).
  assert (Hrows : concat (map (rows_of_rule s mandatory_cols org_row)
                            (before ++ catalog_row :: after))
                  = concat (map (rows_of_rule s mandatory_cols org_row)
                              (before ++ after))).
  { rewrite !map_app, !concat_app. cbn [map concat]. now rewrite Hnull. }
  rewrite Hrows in Kobs, Kexc.
  split; [exact H1 | split; [exact Hnull | split; [|split]]].
  - intros x w _ Gx Nx. unfold rows_of_rule, fan_out_rows. now rewrite Gx, Nx.
  - intros x w s0 _ Gx Nx Hcur0.
    pose proof (wf_assemble x w W) as Wa.
    destruct (@translate_then_queue_run org_row _ "observation_fact" s0 Wa Hcur0)
      as [Ho Hq]; try discriminate.
    unfold process_row_by_observation_fact_rules, org_value, exec, outcome in *.
    rewrite Gx. unfold lift, bind at 1 3, ret at 1 2. rewrite Nx.
    split; [exact Ho | exact Hq].
  - split; [exact Ko | split; [exact Kobs | split; [exact Kexc | exact H3]]].
Qed.


(** *** The rows handed to storage are the rows built, completed *)

Lemma org_table_kept (org_row : row) :
  ensures (fun s s' => current_org_table_name s' = current_org_table_name s)
    (process_org_row_into_dwh org_row).
Proof.
  apply ensures_process_org_row_into_dwh.
  - reflexivity.
  - intros s1 s2 s3 H1 H2. congruence.
  - intros r s. unfold add_row_to_current_batch, exec, bind, read. cbn [fst snd].
    apply (add_row_keeps r (current_dwh_table_name s) s).
  - intros r s. apply (add_row_keeps r "exceptions" s).
  - intros msg s. reflexivity.
  - intros w s. apply translate_word_keeps.
  - intros mc. unfold add_encounter_num, load_encounters.
    repeat first
      [ apply ensures_ret; reflexivity
      | apply ensures_read; reflexivity
      | apply ensures_lift; reflexivity
      | (intros s; apply add_row_keeps)
      | (intros s; reflexivity)
      | apply ensures_bind; [intros s1 s2 s3 H1 H2; congruence | | intros]
      | match goal with
        | |- ensures _ (match ?x with _ => _ end) => destruct x
        end ].
  - intros t s. reflexivity.
Qed.

Section Built.

Variable org_tables : Dict.t (list row).

Lemma built_add_row (r0 : row) (t : string) :
  built org_tables t r0 ->
  ensures (preserved (rows_built org_tables)) (add_row_to_batch r0 t).
Proof.
  intros B s I. apply rows_satisfy_add_row; [|exact I]. exists r0. auto.
Qed.

Ltac built_step :=
  first
    [ apply ensures_ret; intros ? I; exact I
    | apply ensures_read; intros ? I; exact I
    | apply ensures_lift; intros ? I; exact I
    | apply ensures_raise; intros ? I; exact I
    | apply built_add_row; constructor
    | apply ensures_bind; [intros ? ? ? H1 H2 I; auto | | intros]
    | match goal with
      | |- ensures _ (match ?x with _ => _ end) => destruct x
      end
    | (intros ?; unfold preserved, rows_built; apply rows_satisfy_frame;
       reflexivity) ].

Lemma built_handle_exception (org_row new_row : row) (e : exn) :
  ensures (preserved (rows_built org_tables))
    (handle_exception org_row new_row e).
Proof.
  intros s I. destruct (recoverable e) eqn:Hrec.
  - unfold exec. rewrite (handle_exception_message org_row new_row e s Hrec).
    apply built_add_row; [constructor|].
    revert I. now apply rows_satisfy_frame.
  - unfold handle_exception, exec, bind, read.
    destruct e; try discriminate Hrec; exact I.
Qed.

Lemma built_translate_heb_words (r : row) :
  ensures (preserved (rows_built org_tables)) (translate_heb_words r).
Proof.
  apply ensures_translate_heb_words.
  - intros s I; exact I.
  - intros s1 s2 s3 H1 H2 I. auto.
  - intros w. unfold translate_word, load_dictionary. repeat built_step.
Qed.

Lemma built_add_encounter_num (mandatory_cols : row) :
  ensures (preserved (rows_built org_tables))
    (add_encounter_num mandatory_cols).
Proof. unfold add_encounter_num, load_encounters. repeat built_step. Qed.

Lemma add_encounter_num_result (mandatory_cols result : row) (s : state) :
  outcome (add_encounter_num mandatory_cols) s = inr result ->
  exists encounter_num, result = Dict.set "encounter_num" encounter_num mandatory_cols.
Proof.
  unfold outcome. rewrite add_encounter_num_run. cbv zeta.
  destruct (start_date_of mandatory_cols) as [e|d]; [discriminate|].
  destruct (is_in d (loaded_encounters s)); [intros [= <-]; eauto|].
  destruct (series_max (column snd (loaded_encounters s))) as [e|top];
    [discriminate|].
  destruct (plus_one top) as [e|id]; [discriminate|].
  intros [= <-]. eauto.
Qed.

(** A row built for the current table is validated and, if it passes,
    enqueued. *)
Lemma built_validate_and_queue (org_row new_row : row) (s : state) :
  built org_tables (current_dwh_table_name s) new_row ->
  rows_built org_tables s ->
  rows_built org_tables (exec (validate_and_queue org_row new_row) s).
Proof.
  intros B I. unfold exec. rewrite validate_and_queue_run.
  destruct (check_not_null (get_not_null_columns (current_dwh_table_name s)) new_row)
    as [e|[]].
  - now apply built_handle_exception.
  - now apply built_add_row.
Qed.

Lemma built_translate_then_queue (org_row r : row) (s : state) :
  Dict.wf r ->
  built org_tables (current_dwh_table_name s) (translated_row s r) ->
  rows_built org_tables s ->
  rows_built org_tables
    (exec (new_row <- translate_heb_words r ;; validate_and_queue org_row new_row)
       s).
Proof.
  intros W B I.
  pose proof (translate_items_closed r [] s W) as Hnew. simpl in Hnew.
  destruct (translate_heb_words_only_dictionary r s) as (K1 & _).
  pose proof (@built_translate_heb_words r s I) as I1.
  unfold translate_heb_words, exec, outcome, bind in *.
  destruct (translate_items r [] s) as [s1 [e|x]]; cbn [fst snd] in *;
    [discriminate Hnew|].
  injection Hnew as ->.
  apply built_validate_and_queue; [now rewrite K1 | exact I1].
Qed.

(** From here on, [org_row] is a row of the table [org_table_name] of the
    run. *)
Variable org_table_name : string.
Variable org_table : list row.
Variable org_row : row.
Hypothesis table_of_run : In (org_table_name, org_table) org_tables.
Hypothesis row_of_table : In org_row org_table.

Lemma built_rules (mandatory_cols : row) (encounter_num : value)
    (rules : list catalog_rule) (s : state) :
  get_mandatory_cols (rules_of_pair org_table_name "observation_fact") org_row
  = inr mandatory_cols ->
  (forall r, In r rules ->
     In r (evaluated_rules (rules_of_pair org_table_name "observation_fact"))) ->
  current_dwh_table_name s = "observation_fact" ->
  rows_built org_tables s ->
  rows_built org_tables (exec (for_each rules
                (process_row_by_observation_fact_rules
                   (Dict.set "encounter_num" encounter_num mandatory_cols) org_row))
          s).
Proof using count_lines data_catalog inspector_columns json_dumps now
  org_row org_table org_table_name org_tables repr_row row_of_table
  stored_dictionary str_of_value table_of_run translate.
  intros Hmc. revert s. induction rules as [|r rules IH]; intros s Hin Hcur I.
  - exact I.
  - set (mc := Dict.set "encounter_num" encounter_num mandatory_cols) in *.
    assert (W : Dict.wf mc).
    { apply wf_set. exact (fill_mandatory_wf _ _ wf_seed_cols Hmc). }
    destruct (fan_out_rule_rows mc org_row r s Hcur) as (Hc & _).
    assert (I1 : rows_built org_tables
                   (exec (process_row_by_observation_fact_rules mc org_row r) s)).
    { unfold process_row_by_observation_fact_rules, org_value.
      destruct (Dict.get (column_name r) org_row) as [v|] eqn:G; [|exact I].
      unfold exec, lift, bind at 1, ret at 1.
      destruct (pd_isna v) eqn:N.
      - now apply built_handle_exception.
      - apply built_translate_then_queue; [now apply wf_assemble | | exact I].
        rewrite Hcur. unfold mc.
        eapply built_observation; eauto. apply Hin. now left. }
    simpl for_each. unfold exec, bind in *.
    destruct (process_row_by_observation_fact_rules mc org_row r s)
      as [s1 [e|[]]]; cbn [fst snd] in *; [exact I1|].
    apply IH; auto. intros x Hx. apply Hin. now right.
Qed.

Lemma built_pair (dwh_table : string) :
  ensures (preserved (rows_built org_tables))
    (process_pair org_row org_table_name dwh_table).
Proof using count_lines data_catalog inspector_columns json_dumps now
  org_row org_table org_table_name org_tables repr_row row_of_table
  stored_dictionary stored_encounters str_of_value table_of_run translate.
  intros s I. unfold process_pair, exec, bind, modify. cbn [fst snd].
  set (s1 := set_current_dwh_table_name dwh_table s).
  assert (I1 : rows_built org_tables s1)
    by (revert I; now apply rows_satisfy_frame).
  destruct (get_mandatory_cols (rules_of_pair org_table_name dwh_table) org_row)
    as [e|mc] eqn:Hmc.
  - destruct e; try exact I1. now apply built_handle_exception.
  - pose proof (fill_mandatory_wf _ _ wf_seed_cols Hmc) as W.
    unfold dispatch.
    destruct (String.eqb dwh_table "concept_dimension") eqn:E1.
    { apply String.eqb_eq in E1. subst dwh_table.
      unfold concept_dimension_process. fold (described mc).
      apply built_translate_then_queue; [| |exact I1].
      - unfold described. destruct (Dict.get "concept_desc" mc); auto.
        now apply wf_set.
      - eapply built_concept; eauto. }
    destruct (String.eqb dwh_table "patient_dimension") eqn:E2.
    { apply String.eqb_eq in E2. subst dwh_table.
      unfold patient_dimension_process.
      destruct (merge_no_modifier
                  (filter is_no_modifier
                     (rules_of_pair org_table_name "patient_dimension"))
                  org_row mc) as [e|merged] eqn:Hm; [exact I1|].
      unfold lift, bind at 1, ret at 1.
      apply built_translate_then_queue; [| |exact I1].
      - exact (merge_no_modifier_wf _ _ W Hm).
      - eapply built_patient; eauto. }
    destruct (String.eqb dwh_table "observation_fact") eqn:E3; [|exact I1].
    apply String.eqb_eq in E3. subst dwh_table.
    rewrite observation_fact_process_run.
    pose proof (@built_add_encounter_num mc s1 I1) as I2.
    pose proof (add_encounter_num_keeps_current mc s1) as Hc.
    unfold exec, bind in *.
    destruct (add_encounter_num mc s1) as [s2 [e|mc']] eqn:Hrun; cbn [fst snd] in *;
      [exact I2|].
    destruct (@add_encounter_num_result mc mc' s1) as [id ->].
    { unfold outcome. now rewrite Hrun. }
    apply (@built_rules mc id _ s2 Hmc); auto.
Qed.

Lemma built_row (s : state) :
  current_org_table_name s = org_table_name ->
  rows_built org_tables s ->
  rows_built org_tables (exec (process_org_row_into_dwh org_row) s).
Proof using count_lines data_catalog inspector_columns json_dumps now
  org_row org_table org_table_name org_tables repr_row row_of_table
  stored_dictionary stored_encounters str_of_value table_of_run translate.
  intros Horg I. unfold process_org_row_into_dwh, exec, bind, read. cbn [fst snd].
  rewrite Horg.
  apply (@ensures_for_each (preserved (rows_built org_tables))); auto.
  - intros s0 I0; exact I0.
  - intros s1 s2 s3 H1 H2 I0. auto.
  - intros t. apply built_pair.
Qed.

End Built.

Lemma built_rows_of_table (org_tables : Dict.t (list row)) (org_table_name : string)
    (org_table rows : list row) (s : state) :
  In (org_table_name, org_table) org_tables ->
  (forall org_row, In org_row rows -> In org_row org_table) ->
  current_org_table_name s = org_table_name ->
  rows_satisfy (built_and_completed org_tables) s ->
  rows_satisfy (built_and_completed org_tables)
    (exec (for_each rows process_org_row_into_dwh) s).
Proof.
  intros Ht. revert s. induction rows as [|org_row rows IH]; intros s Hin Horg I.
  - exact I.
  - pose proof (@built_row org_tables org_table_name org_table org_row Ht
                  (Hin org_row (or_introl eq_refl)) s Horg I) as I1.
    pose proof (org_table_kept org_row s) as Hk.
    simpl for_each. unfold exec, bind in *.
    destruct (process_org_row_into_dwh org_row s) as [s1 [e|[]]];
      cbn [fst snd] in *; [exact I1|].
    apply IH; auto; [|congruence]. intros x Hx. apply Hin. now right.
Qed.

Lemma built_rows_of_tables (org_tables tables : Dict.t (list row)) (s : state) :
  (forall entry, In entry tables -> In entry org_tables) ->
  rows_satisfy (built_and_completed org_tables) s ->
  rows_satisfy (built_and_completed org_tables)
    (exec (process_rows_of_tables tables) s).
Proof.
  unfold process_rows_of_tables. revert s.
  induction tables as [|[name rows] tables IH]; intros s Hin I.
  - exact I.
  - assert (I1 : rows_satisfy (built_and_completed org_tables)
                   (exec (for_each rows process_org_row_into_dwh)
                      (set_current_org_table_name name s))).
    { apply built_rows_of_table with (org_table_name := name) (org_table := rows);
        auto;
        first [ apply Hin; now left | revert I; now apply rows_satisfy_frame ]. }
    simpl for_each. unfold exec in *. unfold bind at 1 2, modify at 1.
    cbn [fst snd] in *.
    destruct (for_each rows process_org_row_into_dwh
                (set_current_org_table_name name s)) as [s1 [e|[]]];
      cbn [fst snd] in *; [exact I1|].
    apply IH; auto. intros x Hx. apply Hin. now right.
Qed.

Lemma fill_missing_completes (table : string) (r0 : row) :
  completes table r0 (fill_missing (get_columns table) r0).
Proof.
  unfold completes. split; [reflexivity|].
  split; [intros; now apply fill_missing_has_columns|].
  split; [intros; now apply fill_missing_keeps|].
  split; [intros; now apply fill_missing_none|].
  intros k H. rewrite fill_missing_mem in H. apply orb_prop in H.
  destruct H as [H|H]; auto. right. now apply existsb_eqb_In.
Qed.

(** C6, as the code has it. Every row handed to the storage write call in
    a run is a row the controller built for that table (the pair sent to
    the translation service, a new entry of the encounter table, the record
    of a failure, or the row a transformer made of a source row of the run
    with the catalog rules of its pair, translated), completed for the
    table: it has every column of the table as a key; it keeps every entry
    of the row built, whether or not its key is a column of the table; the
    columns the row built lacks hold [None]; and it has no key besides
    those of the row built and the columns. *)
Theorem rows_written_are_completed (org_tables : Dict.t (list row)) :
  Forall (fun call =>
            Forall (fun r =>
                      exists r0,
                        built org_tables (fst call) r0
                        /\ r = fill_missing (get_columns (fst call)) r0
                        /\ (forall c, In c (get_columns (fst call)) ->
                              Dict.mem c r = true)
                        /\ (forall k v, Dict.get k r0 = Some v ->
                              Dict.get k r = Some v)
                        /\ (forall c, In c (get_columns (fst call)) ->
                              Dict.mem c r0 = false -> Dict.get c r = Some VNone)
                        /\ (forall k, Dict.mem k r = true ->
                              Dict.mem k r0 = true
                              \/ In k (get_columns (fst call))))
              (snd call))
    (saved (exec (process_org_tables_into_dwh org_tables) initial_state)).
Proof.
  assert (H : rows_satisfy (built_and_completed org_tables)
                (exec (process_org_tables_into_dwh org_tables) initial_state)).
  { unfold exec. rewrite process_org_tables_into_dwh_run.
    assert (Hrows : rows_satisfy (built_and_completed org_tables)
                      (exec (process_rows_of_tables org_tables) initial_state)).
    { apply built_rows_of_tables; [auto|]. split; intros t rows []. }
    unfold exec, bind in *.
    destruct (process_rows_of_tables org_tables initial_state) as [s1 [e|[]]];
      cbn [fst snd] in *.
    - exact Hrows.
    - now apply rows_satisfy_save_all. }
  destruct H as [Hs _]. apply Forall_forall. intros [t rows] Hin.
  simpl in *. specialize (Hs t rows Hin).
  rewrite Forall_forall in *. intros r Hr.
  destruct (Hs r Hr) as (r0 & B & E). exists r0. split; [exact B|].
  rewrite E. apply fill_missing_completes.
Qed.

(** *** A mandatory field that is null, and one that is not there *)

(** A loop ends at the first element whose body fails. *)
Lemma for_each_fails {A} (l1 l2 : list A) (x : A) (body : A -> M unit) (s : state)
    (e : exn) :
  outcome (for_each l1 body) s = inr tt ->
  outcome (body x) (exec (for_each l1 body) s) = inl e ->
  for_each (l1 ++ x :: l2) body s = body x (exec (for_each l1 body) s).
Proof.
  rewrite for_each_app. unfold exec, outcome, bind.
  destruct (for_each l1 body s) as [s1 [e1|[]]]; cbn [fst snd]; [discriminate|].
  intros _. simpl for_each. unfold bind.
  destruct (body x s1) as [s2 [e2|[]]]; cbn [fst snd]; [reflexivity | discriminate].
Qed.

(** A source row whose processing fails ends the run, without the flush. *)
Lemma run_fails_at_row (tables_before tables_after : Dict.t (list row))
    (org_table : string) (rows_before rows_after : list row) (org_row : row)
    (e : exn) :
  let s1 := exec (process_rows_of_tables tables_before) initial_state in
  let s2 := exec (for_each rows_before process_org_row_into_dwh)
              (set_current_org_table_name org_table s1) in
  outcome (process_rows_of_tables tables_before) initial_state = inr tt ->
  outcome (for_each rows_before process_org_row_into_dwh)
    (set_current_org_table_name org_table s1) = inr tt ->
  outcome (process_org_row_into_dwh org_row) s2 = inl e ->
  process_org_tables_into_dwh
    (tables_before ++ (org_table, rows_before ++ org_row :: rows_after) :: tables_after)
    initial_state
  = process_org_row_into_dwh org_row s2
  /\ current_org_table_name s2 = org_table.
Proof.
  cbv zeta. intros H1 H2 H3. split.
  - rewrite process_org_tables_into_dwh_run. unfold process_rows_of_tables in *.
    unfold bind at 1.
    rewrite (for_each_fails _ tables_after _ _ _ (e := e) H1).
    + cbn [fst snd]. unfold bind at 1, modify at 1.
      rewrite (for_each_fails _ rows_after _ _ _ H2 H3).
      unfold outcome in H3.
      destruct (process_org_row_into_dwh org_row _) as [s3 [e3|[]]];
        [reflexivity | discriminate H3].
    + cbn [fst snd]. unfold outcome, bind at 1, modify at 1.
      rewrite (for_each_fails _ rows_after _ _ _ H2 H3). exact H3.
  - assert (K : ensures (fun s s' => current_org_table_name s'
                                      = current_org_table_name s)
                  (for_each rows_before process_org_row_into_dwh)).
    { apply ensures_for_each; [reflexivity | intros a b c E1 E2; congruence |].
      apply org_table_kept. }
    rewrite K. reflexivity.
Qed.

Lemma fill_mandatory_first_absent (before after : list catalog_rule)
    (catalog_row : catalog_rule) (org_row acc : row) :
  (forall b, In b before ->
     exists w, Dict.get (column_name b) org_row = Some w /\ pd_notna w = true) ->
  Dict.get (column_name catalog_row) org_row = None ->
  fill_mandatory (before ++ catalog_row :: after) org_row acc
  = inl (KeyError (column_name catalog_row)).
Proof.
  intros Hb G. revert acc. induction before as [|b before IH]; intros acc; simpl.
  - unfold org_value. now rewrite G.
  - destruct (Hb b (or_introl eq_refl)) as [w [Gw Nw]].
    unfold org_value. rewrite Gw, Nw. apply IH. intros; apply Hb; now right.
Qed.

(** C2, as the code has it. Let [catalog_row] be the first mandatory rule
    of a (source table, target table) pair for which the source row has no
    non-null value. If the row holds a null value ([None] or [nan]) in the
    column the rule names, [get_mandatory_cols] raises
    [MandatoryFieldMissing] naming that column; the pair then enqueues one
    record for the [exceptions] table, naming the column and the target
    table, and no row for any other table; it ends normally, and the loop
    over the target tables of the source row goes on with the remaining
    tables. The record is enqueued, not written: a run that ends normally
    has written every record enqueued for the [exceptions] table, but a run
    that fails ends without the flush. If the row does not have the column
    at all, [get_mandatory_cols] raises [KeyError]: the pair fails with it,
    having only set the current target table name, so that nothing is
    recorded or enqueued; the remaining target tables of the row are not
    processed, and the run ends there with the [KeyError], without the
    flush. *)
Theorem mandatory_field_missing (org_row : row) (org_table dwh_table : string)
    (before after : list catalog_rule) (catalog_row : catalog_rule) :
  filter is_mandatory (rules_of_pair org_table dwh_table)
  = before ++ catalog_row :: after ->
  (forall b, In b before ->
     exists w, Dict.get (column_name b) org_row = Some w /\ pd_notna w = true) ->
  let c := column_name catalog_row in
  let pair := process_pair org_row org_table in
  (forall v, Dict.get c org_row = Some v -> pd_isna v = true ->
     let failure := MandatoryFieldMissing c in
     get_mandatory_cols (rules_of_pair org_table dwh_table) org_row = inl failure
     /\ (forall s,
           let record := recorded (set_current_dwh_table_name dwh_table s) [] failure in
           outcome (pair dwh_table) s = inr tt
           /\ Dict.get "org_col" record = Some (VStr c)
           /\ Dict.get "target_table" record = Some (VStr dwh_table)
           /\ forall t, enqueued t (exec (pair dwh_table) s)
                = if String.eqb t "exceptions"
                  then enqueued "exceptions" s ++ [record]
                  else enqueued t s)
     /\ (forall done rest s,
           current_org_table_name s = org_table ->
           target_tables org_table = done ++ dwh_table :: rest ->
           outcome (for_each done pair) s = inr tt ->
           process_org_row_into_dwh org_row s
           = for_each rest pair (exec (pair dwh_table) (exec (for_each done pair) s))))
  /\ (forall org_tables,
        let rows := process_rows_of_tables org_tables in
        let run := process_org_tables_into_dwh org_tables in
        (outcome run initial_state = inr tt ->
         written "exceptions" (exec run initial_state)
         = enqueued "exceptions" (exec rows initial_state))
        /\ (forall e, outcome rows initial_state = inl e ->
              run initial_state = (exec rows initial_state, inl e)))
  /\ (Dict.get c org_row = None ->
      get_mandatory_cols (rules_of_pair org_table dwh_table) org_row
      = inl (KeyError c)
      /\ (forall s,
            pair dwh_table s
            = (set_current_dwh_table_name dwh_table s, inl (KeyError c)))
      /\ (forall done rest s,
            current_org_table_name s = org_table ->
            target_tables org_table = done ++ dwh_table :: rest ->
            outcome (for_each done pair) s = inr tt ->
            process_org_row_into_dwh org_row s
            = (set_current_dwh_table_name dwh_table (exec (for_each done pair) s),
               inl (KeyError c)))
      /\ (forall tables_before rows_before rows_after tables_after done rest,
            let s1 := exec (process_rows_of_tables tables_before) initial_state in
            let s2 := exec (for_each rows_before process_org_row_into_dwh)
                        (set_current_org_table_name org_table s1) in
            target_tables org_table = done ++ dwh_table :: rest ->
            outcome (process_rows_of_tables tables_before) initial_state = inr tt ->
            outcome (for_each rows_before process_org_row_into_dwh)
              (set_current_org_table_name org_table s1) = inr tt ->
            outcome (for_each done pair) s2 = inr tt ->
            process_org_tables_into_dwh
              (tables_before
               ++ (org_table, rows_before ++ org_row :: rows_after) :: tables_after)
              initial_state
            = (set_current_dwh_table_name dwh_table (exec (for_each done pair) s2),
               inl (KeyError c)))).
Proof.
  intros Hrules Hb. cbv zeta. split; [|split].
  - intros v G N.
    exact (@null_mandatory_field_skips_pair org_row org_table dwh_table before after
             catalog_row v Hrules Hb G N).
  - intros org_tables. split.
    + intros Hrun.
      destruct (batches_rows_of_tables org_tables) as (_ & _ & W).
      unfold exec, outcome in *. rewrite process_org_tables_into_dwh_run in *.
      unfold bind in *.
      destruct (process_rows_of_tables org_tables initial_state) as [s1 [e|[]]];
        cbn [fst snd] in *; [discriminate Hrun|].
      destruct (save_all_rows_in_que_run s1) as (_ & _ & _ & Hw).
      now apply Hw.
    + intros e He. unfold exec, outcome in *.
      rewrite process_org_tables_into_dwh_run. unfold bind.
      destruct (process_rows_of_tables org_tables initial_state) as [s1 [e'|[]]];
        cbn [fst snd] in *; [congruence | discriminate He].
  - intros G.
    assert (Hfail : get_mandatory_cols (rules_of_pair org_table dwh_table) org_row
                    = inl (KeyError (column_name catalog_row))).
    { unfold get_mandatory_cols. rewrite Hrules.
      now apply fill_mandatory_first_absent. }
    assert (Hpair : forall s,
               process_pair org_row org_table dwh_table s
               = (set_current_dwh_table_name dwh_table s,
                  inl (KeyError (column_name catalog_row)))).
    { intros s. unfold process_pair. rewrite Hfail. reflexivity. }
    assert (Hrow : forall done rest s,
               current_org_table_name s = org_table ->
               target_tables org_table = done ++ dwh_table :: rest ->
               outcome (for_each done (process_pair org_row org_table)) s = inr tt ->
               process_org_row_into_dwh org_row s
               = (set_current_dwh_table_name dwh_table
                    (exec (for_each done (process_pair org_row org_table)) s),
                  inl (KeyError (column_name catalog_row)))).
    { intros done rest s Horg Htables Hdone.
      unfold process_org_row_into_dwh, bind at 1, read. cbn [fst snd].
      rewrite Horg, Htables.
      rewrite (for_each_fails _ rest _ _ _ (e := KeyError (column_name catalog_row))
                 Hdone).
      - apply Hpair.
      - unfold outcome. now rewrite Hpair. }
    split; [exact Hfail | split; [exact Hpair | split; [exact Hrow|]]].
    intros tables_before rows_before rows_after tables_after done rest
      Htables H1 H2 Hdone.
    destruct (@run_fails_at_row tables_before tables_after org_table rows_before
                rows_after org_row (KeyError (column_name catalog_row)) H1 H2)
      as [Hrun Horg].
    + pose proof (fun Ho => Hrow done rest _ Ho Htables Hdone) as K.
      assert (Ho : current_org_table_name
                     (exec (for_each rows_before process_org_row_into_dwh)
                        (set_current_org_table_name org_table
                           (exec (process_rows_of_tables tables_before)
                              initial_state))) = org_table).
      { assert (E : ensures (fun s s' => current_org_table_name s'
                                          = current_org_table_name s)
                      (for_each rows_before process_org_row_into_dwh)).
        { apply ensures_for_each; [reflexivity | intros a b c0 E1 E2; congruence |].
          apply org_table_kept. }
        rewrite E. reflexivity. }
      unfold outcome. now rewrite (K Ho).
    + rewrite Hrun. now apply Hrow with (rest := rest).
Qed.

End Controller.


(** ** The progress printer *)

Section PrinterFacts.

Import LogPrinter.

Lemma count_of_count_row (t t' : string) (dic : Dict.t nat) :
  count_of t' (count_row t dic)
  = (count_of t' dic + if String.eqb t' t then 1 else 0)%nat.
Proof.
  unfold count_of, count_row.
  destruct (Dict.get t dic) as [n|] eqn:G; rewrite get_set;
    destruct (String.eqb t' t) eqn:E; try lia.
  - apply String.eqb_eq in E. subst t'. rewrite G. lia.
  - apply String.eqb_eq in E. subst t'. rewrite G. lia.
Qed.

Lemma ttl_rows_count_row (t : string) (dic : Dict.t nat) :
  ttl_rows (count_row t dic) = (ttl_rows dic + 1)%nat.
Proof.
  unfold ttl_rows, count_row. induction dic as [|[k n] dic IH]; simpl.
  - reflexivity.
  - destruct (String.eqb t k) eqn:E; simpl.
    + lia.
    + destruct (Dict.get t dic); simpl in *; lia.
Qed.

Lemma positive_count_row (t : string) (dic : Dict.t nat) :
  (forall k n, Dict.get k dic = Some n -> (0 < n)%nat) ->
  forall k n, Dict.get k (count_row t dic) = Some n -> (0 < n)%nat.
Proof.
  intros H k n. unfold count_row.
  destruct (Dict.get t dic) as [m|]; rewrite get_set;
    destruct (String.eqb k t); try apply H; intros [= <-]; lia.
Qed.

Lemma replay_app (calls1 calls2 : list call) (p : LogPrinter.t) :
  replay (calls1 ++ calls2) p
  = match replay calls1 p with
    | inl e => inl e
    | inr p' => replay calls2 p'
    end.
Proof.
  revert p. induction calls1 as [|c calls1 IH]; intros p; simpl; auto.
  destruct (step c p); auto.
Qed.

(** The reports made for one source row, on a printer that is working on a
    source table. *)
Lemma replay_reports (events : list (string * bool)) (p : LogPrinter.t)
    (org : string) (ok bad : Dict.t nat) :
  org_table_currently_processing p = org ->
  Dict.get org (dwh_rows_successfully_saved p) = Some ok ->
  Dict.get org (dwh_rows_failed_to_save p) = Some bad ->
  exists p' ok' bad',
    replay (reports events) p = inr p'
    /\ Dict.get org (dwh_rows_successfully_saved p') = Some ok'
    /\ Dict.get org (dwh_rows_failed_to_save p') = Some bad'
    /\ (forall t, count_of t ok' = (count_of t ok + count_reports t false events)%nat)
    /\ (forall t, count_of t bad' = (count_of t bad + count_reports t true events)%nat)
    /\ ttl_rows ok'
       = (ttl_rows ok + length (filter (fun event => negb (snd event)) events))%nat
    /\ ttl_rows bad' = (ttl_rows bad + length (filter snd events))%nat
    /\ ((forall k n, Dict.get k ok = Some n -> (0 < n)%nat) ->
        forall k n, Dict.get k ok' = Some n -> (0 < n)%nat)
    /\ ((forall k n, Dict.get k bad = Some n -> (0 < n)%nat) ->
        forall k n, Dict.get k bad' = Some n -> (0 < n)%nat)
    /\ ttl_org_data_rows_count p' = ttl_org_data_rows_count p
    /\ ttl_org_data_rows_processed p' = ttl_org_data_rows_processed p
    /\ tables_process_start_time p' = tables_process_start_time p
    /\ specific_table_process_start_time p' = specific_table_process_start_time p
    /\ org_table_currently_processing p' = org
    /\ ttl_table_rows_processed p' = ttl_table_rows_processed p
    /\ ttl_table_rows_to_process p' = ttl_table_rows_to_process p.
Proof.
  revert p ok bad. induction events as [|[t failed] events IH]; intros p ok bad Horg Hok Hbad.
  - exists p, ok, bad. simpl. unfold count_reports. simpl.
    repeat split; auto; intros; lia.
  - simpl. unfold dwh_row_process. rewrite Horg.
    destruct failed; unfold rows_dict; cbn [fst snd].
    + rewrite Hbad.
      destruct (IH (set_rows_dict true
                      (Dict.set org (count_row t bad) (dwh_rows_failed_to_save p)) p)
                  ok (count_row t bad))
        as (p' & ok' & bad' & H1 & H2 & H3 & H4 & H5 & H6 & H7 & H8 & H9 & H10);
        [exact Horg | exact Hok | apply get_set_same |].
      exists p', ok', bad'.
      split; [exact H1 | split; [exact H2 | split; [exact H3|]]].
      split; [|split; [|split; [|split; [|split; [|split]]]]].
      * intros t'. rewrite H4. unfold count_reports. simpl.
        now rewrite andb_false_r.
      * intros t'. rewrite H5, count_of_count_row. unfold count_reports. simpl.
        rewrite andb_true_r, (String.eqb_sym t t').
        destruct (String.eqb t' t); simpl; lia.
      * exact H6.
      * rewrite H7, ttl_rows_count_row. simpl. lia.
      * exact H8.
      * intros Hpos. apply H9. now apply positive_count_row.
      * exact H10.
    + rewrite Hok.
      destruct (IH (set_rows_dict false
                      (Dict.set org (count_row t ok) (dwh_rows_successfully_saved p)) p)
                  (count_row t ok) bad)
        as (p' & ok' & bad' & H1 & H2 & H3 & H4 & H5 & H6 & H7 & H8 & H9 & H10);
        [exact Horg | apply get_set_same | exact Hbad |].
      exists p', ok', bad'.
      split; [exact H1 | split; [exact H2 | split; [exact H3|]]].
      split; [|split; [|split; [|split; [|split; [|split]]]]].
      * intros t'. rewrite H4, count_of_count_row. unfold count_reports. simpl.
        rewrite andb_true_r, (String.eqb_sym t t').
        destruct (String.eqb t' t); simpl; lia.
      * intros t'. rewrite H5. unfold count_reports. simpl.
        now rewrite andb_false_r.
      * rewrite H6, ttl_rows_count_row. simpl. lia.
      * exact H7.
      * intros Hpos. apply H8. now apply positive_count_row.
      * exact H9.
      * exact H10.
Qed.

(** X21. The counts of the progress printer. Once the processing of a
    source table has been announced, the reports of enqueued rows never
    fail, and the two dictionaries of the table count them: for each
    status, the count kept for a target table is the number of reports
    made for it with that status (a table without a report has no entry),
    and the total the summary prints is the number of reports with that
    status. A report made when the current source table has not been
    announced fails with [KeyError]. *)
Theorem printer_counts_reports (p : LogPrinter.t) (org : string) (rows : nat)
    (events : list (string * bool)) :
  (forall t failed p0,
     Dict.get (org_table_currently_processing p0) (rows_dict failed p0) = None ->
     dwh_row_process t failed p0
     = inl (Raised (KeyError (org_table_currently_processing p0))))
  /\ exists p',
       replay (reports events) (specific_table_process_started org rows p) = inr p'
       /\ forall failed,
            exists dic,
              Dict.get org (rows_dict failed p') = Some dic
              /\ (forall t, Dict.get t dic
                    = if (count_reports t failed events =? 0)%nat then None
                      else Some (count_reports t failed events))
              /\ ttl_rows dic
                 = length (filter (fun event => Bool.eqb (snd event) failed) events).
Proof.
  split.
  - intros t failed p0 H. unfold dwh_row_process. now rewrite H.
  - destruct (@replay_reports events (specific_table_process_started org rows p)
                org [] [])
      as (p' & ok' & bad' & H1 & H2 & H3 & H4 & H5 & H6 & H7 & H8 & H9 & _);
      [reflexivity | apply get_set_same | apply get_set_same |].
    exists p'. split; [exact H1|].
    assert (Hget : forall (dic : Dict.t nat) k t,
               (forall t, count_of t dic = k t) ->
               (forall x n, Dict.get x dic = Some n -> (0 < n)%nat) ->
               Dict.get t dic = if (k t =? 0)%nat then None else Some (k t)).
    { intros dic k t Hc Hp. specialize (Hc t). unfold count_of in Hc.
      destruct (Dict.get t dic) as [n|] eqn:G.
      - specialize (Hp t n G). subst n.
        destruct (k t =? 0)%nat eqn:E; [apply Nat.eqb_eq in E; lia | reflexivity].
      - now rewrite <- Hc. }
    intros [|]; unfold rows_dict.
    + exists bad'. split; [exact H3 | split].
      * intros t. apply (Hget bad' (fun t => count_reports t true events));
          [intros; now rewrite H5|].
        apply H9. intros k n G. discriminate G.
      * rewrite H7. simpl. f_equal. apply filter_ext. intros [a []]; reflexivity.
    + exists ok'. split; [exact H2 | split].
      * intros t. apply (Hget ok' (fun t => count_reports t false events));
          [intros; now rewrite H4|].
        apply H8. intros k n G. discriminate G.
      * rewrite H6. reflexivity.
Qed.

Lemma working_on_started (org : string) (rows : nat) (p : LogPrinter.t) :
  tables_process_start_time p = true ->
  working_on org rows (specific_table_process_started org rows p).
Proof.
  intros H. unfold working_on, Dict.mem. simpl. rewrite !get_set_same. auto 10.
Qed.

Lemma replay_row (events : list (string * bool)) (p : LogPrinter.t) (org : string)
    (rows : nat) :
  working_on org rows p -> rows <> 0%nat -> ttl_org_data_rows_count p <> 0%nat ->
  exists p',
    replay (reports events ++ [RowProcessed]) p = inr p'
    /\ working_on org rows p'
    /\ ttl_org_data_rows_count p' = ttl_org_data_rows_count p
    /\ ttl_org_data_rows_processed p' = (ttl_org_data_rows_processed p + 1)%nat.
Proof.
  intros (W1 & W2 & W3 & W4 & W5 & W6) Hrows Hcount.
  unfold Dict.mem in W5, W6.
  destruct (Dict.get org (dwh_rows_successfully_saved p)) as [ok|] eqn:Hok;
    [|discriminate W5].
  destruct (Dict.get org (dwh_rows_failed_to_save p)) as [bad|] eqn:Hbad;
    [|discriminate W6].
  destruct (@replay_reports events p org ok bad W3 Hok Hbad)
    as (p1 & ok' & bad' & H1 & H2 & H3 & _ & _ & _ & _ & _ & _
        & K1 & K2 & K3 & K4 & K5 & K6 & K7).
  rewrite replay_app, H1. simpl. unfold row_processed.
  rewrite K5, K7, W4, K3, W1, K1. simpl.
  apply Nat.eqb_neq in Hrows, Hcount. rewrite Hrows, Hcount.
  eexists. split; [reflexivity|]. simpl.
  unfold working_on, Dict.mem. simpl. rewrite K4, H2, H3, K2. auto 10.
Qed.

Lemma replay_rows (org_table : list (list (string * bool))) (p : LogPrinter.t)
    (org : string) (rows : nat) :
  working_on org rows p -> (org_table <> [] -> rows <> 0%nat) ->
  ttl_org_data_rows_count p <> 0%nat ->
  exists p',
    replay (concat (map (fun events => reports events ++ [RowProcessed]) org_table)) p
    = inr p'
    /\ working_on org rows p'
    /\ ttl_org_data_rows_count p' = ttl_org_data_rows_count p
    /\ ttl_org_data_rows_processed p'
       = (ttl_org_data_rows_processed p + length org_table)%nat.
Proof.
  revert p. induction org_table as [|events org_table IH]; intros p W Hrows Hcount.
  - exists p. simpl. split; [reflexivity | split; [exact W | split; [reflexivity | lia]]].
  - assert (Hn : rows <> 0%nat) by (apply Hrows; discriminate).
    destruct (@replay_row events p org rows W Hn Hcount) as (p1 & H1 & W1 & C1 & P1).
    destruct (IH p1 W1 (fun _ => Hn)) as (p2 & H2 & W2 & C2 & P2); [congruence|].
    exists p2. cbn [map concat]. rewrite replay_app, H1, H2.
    split; [reflexivity | split; [exact W2 | split; [congruence|]]].
    rewrite P2, P1. simpl. lia.
Qed.

Lemma replay_table (org : string) (org_table : list (list (string * bool)))
    (p : LogPrinter.t) :
  tables_process_start_time p = true -> ttl_org_data_rows_count p <> 0%nat ->
  exists p',
    replay (calls_of_table org org_table) p = inr p'
    /\ tables_process_start_time p' = true
    /\ ttl_org_data_rows_count p' = ttl_org_data_rows_count p
    /\ ttl_org_data_rows_processed p'
       = (ttl_org_data_rows_processed p + length org_table)%nat.
Proof.
  intros Hstart Hcount. unfold calls_of_table.
  pose proof (working_on_started org (length org_table) p Hstart) as W.
  destruct (@replay_rows org_table _ org (length org_table) W)
    as (p1 & H1 & (W1 & W2 & W3 & W4 & W5 & W6) & C1 & P1).
  { intros H E. apply H. now apply length_zero_iff_nil. }
  { exact Hcount. }
  cbn [replay step]. rewrite replay_app, H1. simpl.
  unfold specific_table_process_ended. rewrite W4, W2. simpl.
  unfold Dict.mem in W5, W6.
  destruct (Dict.get org (dwh_rows_successfully_saved p1)); [|discriminate W5].
  destruct (Dict.get org (dwh_rows_failed_to_save p1)); [|discriminate W6].
  simpl in C1. rewrite C1. apply Nat.eqb_neq in Hcount. rewrite Hcount.
  eexists. split; [reflexivity|]. simpl. repeat split; auto.
Qed.

Lemma replay_tables (org_tables : Dict.t (list (list (string * bool))))
    (p : LogPrinter.t) :
  tables_process_start_time p = true -> ttl_org_data_rows_count p <> 0%nat ->
  exists p',
    replay (concat (map (fun entry => calls_of_table (fst entry) (snd entry))
                      org_tables)) p
    = inr p'
    /\ tables_process_start_time p' = true
    /\ ttl_org_data_rows_processed p'
       = (ttl_org_data_rows_processed p + total_rows org_tables)%nat.
Proof.
  revert p. induction org_tables as [|[org org_table] org_tables IH];
    intros p Hstart Hcount.
  - exists p. unfold total_rows. simpl.
    split; [reflexivity | split; [exact Hstart | lia]].
  - destruct (@replay_table org org_table p Hstart Hcount) as (p1 & H1 & S1 & C1 & P1).
    destruct (IH p1 S1) as (p2 & H2 & S2 & P2); [congruence|].
    exists p2. cbn [map concat fst snd]. rewrite replay_app, H1, H2.
    split; [reflexivity | split; [exact S2|]].
    rewrite P2, P1. unfold total_rows. simpl. lia.
Qed.

(** X22. The printer of a run. Over source tables that hold at least one
    row in all, none of the printer calls of a run fails, and the printer
    ends with as many rows processed as the tables hold. Over no table at
    all, none fails either. But over tables that are all empty the calls
    fail with [ZeroDivisionError]: with a total of zero rows, the call that
    ends a source table raises it, in the percentage of the rows processed.
    In [process_org_tables_into_dwh] that call comes before the final
    flush. *)
Theorem printer_fails_without_rows (org_tables : Dict.t (list (list (string * bool))))
    (to_process : Dict.t nat) (successfully_saved failed_to_save : Dict.t (Dict.t nat)) :
  let p := printer_of_run org_tables to_process successfully_saved failed_to_save in
  (org_tables = [] -> exists p', replay (calls_of_run org_tables) p = inr p')
  /\ (org_tables <> [] -> total_rows org_tables = 0%nat ->
      replay (calls_of_run org_tables) p = inl ZeroDivisionError)
  /\ ((0 < total_rows org_tables)%nat ->
      exists p',
        replay (calls_of_run org_tables) p = inr p'
        /\ ttl_org_data_rows_processed p' = total_rows org_tables)
  /\ (forall org rows p0,
        ttl_org_data_rows_count p0 = 0%nat ->
        specific_table_process_ended org
          (specific_table_process_started org rows p0)
        = inl ZeroDivisionError).
Proof.
  cbv zeta. unfold printer_of_run, calls_of_run. split; [|split; [|split]].
  - intros ->. simpl. eauto.
  - destruct org_tables as [|[org org_table] org_tables]; [congruence|].
    intros _ Hzero.
    destruct org_table; [|unfold total_rows in Hzero; simpl in Hzero; lia].
    rewrite Hzero. simpl.
    unfold specific_table_process_ended. simpl. now rewrite !get_set_same.
  - intros Hpos. cbn [replay step].
    destruct (@replay_tables org_tables
                (tables_process_started
                   (init (total_rows org_tables) to_process successfully_saved
                      failed_to_save)))
      as (p1 & H1 & S1 & P1); [reflexivity | simpl; lia |].
    rewrite replay_app, H1. simpl. unfold tables_process_ended. rewrite S1. simpl.
    eexists. split; [reflexivity|]. simpl. rewrite P1. reflexivity.
  - intros org rows p0 Hzero. unfold specific_table_process_ended. simpl.
    now rewrite !get_set_same, Hzero.
Qed.

End PrinterFacts.

(** ** The properties on the small warehouse *)

Lemma wf_visit : Dict.wf Demo.visit.
Proof.
  unfold Dict.wf. simpl.
  repeat (constructor;
          [simpl; intros H; repeat (destruct H as [H|H]; [discriminate H|]); exact H|]).
  constructor.
Defined.

Lemma wf_new_year_visit : Dict.wf Demo.new_year_visit.
Proof.
  unfold Dict.wf. simpl.
  repeat (constructor;
          [simpl; intros H; repeat (destruct H as [H|H]; [discriminate H|]); exact H|]).
  constructor.
Defined.

(** C9 on the visit: the complaint is translated, the other fields are kept. *)
Lemma translate_heb_words_frame_witness :
  let demo_translate_heb_words :=
    translate_heb_words Demo.table_columns [] Demo.translate in
  Dict.wf Demo.visit
  /\ exists r',
       outcome (demo_translate_heb_words Demo.visit) initial_state = inr r'
       /\ Dict.keys r' = Dict.keys Demo.visit
       /\ Forall2 translated_item Demo.visit r'
       /\ forall k v, Dict.get k Demo.visit = Some v -> is_hebrew_text v = false ->
            Dict.get k r' = Some v.
Proof.
  cbv zeta. split; [exact wf_visit|].
  exact (@translate_heb_words_frame Demo.table_columns [] Demo.translate
           Demo.visit initial_state wf_visit).
Defined.

(** C8 on the complaint of the visit. *)
Lemma translation_called_once_witness :
  let demo_translate_heb_words :=
    translate_heb_words Demo.table_columns [] Demo.translate in
  contains_hebrew Demo.pain = true
  /\ exists e,
       outcome (demo_translate_heb_words [("complaint", VStr Demo.pain)]) initial_state
       = inr [("complaint", e)]
       /\ forall s2,
            dictionary_extends
              (exec (demo_translate_heb_words [("complaint", VStr Demo.pain)])
                 initial_state) s2 ->
            demo_translate_heb_words [("note", VStr Demo.pain)] s2
            = (s2, inr [("note", e)]).
Proof.
  cbv zeta. split; [reflexivity|].
  destruct (@translation_called_once Demo.table_columns [] Demo.translate
              Demo.pain "complaint" "note" initial_state eq_refl) as (e & H1 & _ & H3).
  exists e. split; [exact H1 | exact H3].
Defined.

(** The mandatory columns of the visit (and of the visit without a weight)
    for the observation table. *)
Lemma wf_mandatory_cols_of_visit :
  Dict.wf (seed_cols Demo.now
           ++ [("patient_num", VInt 7); ("start_date", VDateTime 738900 0)]).
Proof.
  unfold Dict.wf. simpl.
  repeat (constructor;
          [simpl; intros H; repeat (destruct H as [H|H]; [discriminate H|]); exact H|]).
  constructor.
Defined.

(** C3 on the visit without a weight, at the point where the encounter
    registrar has given the visit the number 2: the rule of the weight
    gives no row and is recorded; the rule of the complaint before it and a
    rule of the height after it give their rows, which pass validation. *)
Lemma fan_out_independence_witness :
  let demo_rule :=
    process_row_by_observation_fact_rules Demo.table_columns [] Demo.translate
      Demo.str_of_value Demo.repr_row Demo.json_dumps Demo.count_lines in
  let org_row := Demo.visit_without_weight in
  let cat := rules_of_pair Demo.sorted_catalog "visits" "observation_fact" in
  let mandatory_cols :=
    seed_cols Demo.now
    ++ [("patient_num", VInt 7); ("start_date", VDateTime 738900 0)] in
  let request :=
    add_encounter_num Demo.table_columns [(VDate 738000, VInt 1)] mandatory_cols in
  let numbered := Dict.set "encounter_num" (VInt 2) mandatory_cols in
  let height_in_cm :=
    Rule "visits" "height" "observation_fact" "nval_num" (Some "HEIGHT") (Some "CM") in
  let rules := [Demo.complaint_rule] ++ Demo.weight_rule :: [height_in_cm] in
  let s := exec request Demo.filling_observations in
  let s' := exec (for_each rules (demo_rule numbered org_row)) s in
  get_mandatory_cols Demo.now cat org_row = inr mandatory_cols
  /\ outcome request Demo.filling_observations = inr numbered
  /\ Dict.wf numbered
  /\ current_dwh_table_name s = "observation_fact"
  /\ Dict.get (column_name Demo.weight_rule) org_row = Some VNone
  /\ pd_isna VNone = true
  /\ outcome (for_each rules (demo_rule numbered org_row)) s = inr tt
  /\ map (fun r => (Dict.get "concept_cd" r, Dict.get "tval_char" r,
                    Dict.get "nval_num" r, Dict.get "encounter_num" r))
       (enqueued "observation_fact" s')
     = [ (Some (VStr "COMPLAINT"), Some (VStr "pain"), Some VNone, Some (VInt 2));
         (Some (VStr "HEIGHT"), Some VNone, Some (VInt 180), Some (VInt 2)) ]
  /\ (length (enqueued "exceptions" s') + 2 = 0 + 3)%nat.
Proof.
  cbv zeta.
  assert (W : Dict.wf (Dict.set "encounter_num" (VInt 2)
                         (seed_cols Demo.now
                          ++ [("patient_num", VInt 7);
                              ("start_date", VDateTime 738900 0)]))).
  { apply wf_set. exact wf_mandatory_cols_of_visit. }
  split; [reflexivity | split; [reflexivity | split; [exact W|]]].
  split; [reflexivity | split; [reflexivity | split; [reflexivity|]]].
  assert (Hmem : forall x,
             In x ([Demo.complaint_rule]
                   ++ [Rule "visits" "height" "observation_fact" "nval_num"
                         (Some "HEIGHT") (Some "CM")]) ->
             Dict.mem (column_name x) Demo.visit_without_weight = true).
  { intros x [E|[E|[]]]; subst x; reflexivity. }
  destruct (@fan_out_independence Demo.table_columns [] Demo.translate
              Demo.str_of_value Demo.repr_row Demo.json_dumps Demo.count_lines
              (Dict.set "encounter_num" (VInt 2)
                 (seed_cols Demo.now
                  ++ [("patient_num", VInt 7); ("start_date", VDateTime 738900 0)]))
              Demo.visit_without_weight [Demo.complaint_rule]
              [Rule "visits" "height" "observation_fact" "nval_num" (Some "HEIGHT")
                 (Some "CM")]
              Demo.weight_rule VNone
              (exec (add_encounter_num Demo.table_columns [(VDate 738000, VInt 1)]
                       (seed_cols Demo.now
                        ++ [("patient_num", VInt 7);
                            ("start_date", VDateTime 738900 0)]))
                 Demo.filling_observations)
              W eq_refl Hmem eq_refl eq_refl)
    as (_ & _ & _ & _ & Ho & Hobs & Hexc & _).
  split; [exact Ho | split; [|exact Hexc]].
  rewrite Hobs. reflexivity.
Defined.

(** C2 on the visit without a patient, and on a row of a table that has no
    [patient_id] column. *)
Lemma mandatory_field_missing_witness :
  let demo_pair :=
    process_pair Demo.sorted_catalog Demo.table_columns [] [] Demo.translate
      Demo.now Demo.str_of_value Demo.repr_row Demo.json_dumps Demo.count_lines in
  let cat := rules_of_pair Demo.sorted_catalog "visits" "observation_fact" in
  filter is_mandatory cat = [] ++ Demo.patient_rule :: [Demo.date_rule]
  /\ Dict.get (column_name Demo.patient_rule) Demo.visit_without_patient = Some VNone
  /\ pd_isna VNone = true
  /\ get_mandatory_cols Demo.now cat Demo.visit_without_patient
     = inl (MandatoryFieldMissing "patient_id")
  /\ (forall s,
        let pair := demo_pair Demo.visit_without_patient "visits" "observation_fact" in
        outcome pair s = inr tt
        /\ forall t, t <> "exceptions" -> enqueued t (exec pair s) = enqueued t s)
  /\ Dict.get (column_name Demo.patient_rule) Demo.visit_of_other_table = None
  /\ get_mandatory_cols Demo.now cat Demo.visit_of_other_table
     = inl (KeyError "patient_id")
  /\ forall s,
       demo_pair Demo.visit_of_other_table "visits" "observation_fact" s
       = (set_current_dwh_table_name "observation_fact" s,
          inl (KeyError "patient_id")).
Proof.
  cbv zeta. split; [reflexivity | split; [reflexivity | split; [reflexivity|]]].
  destruct (@mandatory_field_missing Demo.sorted_catalog Demo.table_columns [] []
              Demo.translate Demo.now Demo.str_of_value Demo.repr_row Demo.json_dumps
              Demo.count_lines Demo.visit_without_patient "visits" "observation_fact"
              [] [Demo.date_rule] Demo.patient_rule eq_refl
              (fun b (H : In b []) => match H with end))
    as (Hnull & _ & _).
  destruct (Hnull VNone eq_refl eq_refl) as (H1 & H2 & _).
  split; [exact H1|]. split.
  { intros s. cbv zeta. destruct (H2 s) as (Ho & _ & _ & Henq).
    split; [exact Ho|].
    intros t Ht. rewrite (Henq t).
    apply String.eqb_neq in Ht. now rewrite Ht. }
  destruct (@mandatory_field_missing Demo.sorted_catalog Demo.table_columns [] []
              Demo.translate Demo.now Demo.str_of_value Demo.repr_row Demo.json_dumps
              Demo.count_lines Demo.visit_of_other_table "visits" "observation_fact"
              [] [Demo.date_rule] Demo.patient_rule eq_refl
              (fun b (H : In b []) => match H with end))
    as (_ & _ & Habsent).
  destruct (Habsent eq_refl) as (K1 & K2 & _).
  split; [reflexivity | split; [exact K1 | exact K2]].
Defined.

(** C10 on the visit, the encounter table holding one other day: the
    visit is given the number 2, and the rows of the complaint and of the
    weight carry it. *)
Lemma encounter_assigned_before_fan_out_witness :
  let table := [(VDate 738000, VInt 1)] in
  let cat := rules_of_pair Demo.sorted_catalog "visits" "observation_fact" in
  let mandatory_cols :=
    seed_cols Demo.now
    ++ [("patient_num", VInt 7); ("start_date", VDateTime 738900 0)] in
  let s' := exec (observation_fact_process Demo.table_columns [] table Demo.translate
                    Demo.str_of_value Demo.repr_row Demo.json_dumps Demo.count_lines
                    mandatory_cols Demo.visit cat) Demo.filling_observations in
  get_mandatory_cols Demo.now cat Demo.visit = inr mandatory_cols
  /\ Dict.wf mandatory_cols
  /\ is_in (VDate 738900) table = false
  /\ next_encounter_num table = VInt 2
  /\ (forall r, In r cat -> target_column r <> "encounter_num")
  /\ enqueued "encounters" s'
     = [[("date", VDate 738900); ("encounter_num", VInt 2)]]
  /\ exists rows,
       enqueued "observation_fact" s'
       = enqueued "observation_fact" Demo.filling_observations ++ rows
       /\ map (Dict.get "concept_cd") rows
          = [Some (VStr "COMPLAINT"); Some (VStr "WEIGHT")]
       /\ forall x, In x rows -> Dict.get "encounter_num" x = Some (VInt 2).
Proof.
  cbv zeta.
  split; [reflexivity | split; [exact wf_mandatory_cols_of_visit|]].
  split; [reflexivity | split; [reflexivity|]].
  assert (Htarget : forall r,
             In r (rules_of_pair Demo.sorted_catalog "visits" "observation_fact") ->
             target_column r <> "encounter_num").
  { intros r H. vm_compute in H.
    repeat (destruct H as [H|H]; [subst r; discriminate|]). destruct H. }
  split; [exact Htarget|].
  destruct (@encounter_assigned_before_fan_out Demo.table_columns []
              [(VDate 738000, VInt 1)] Demo.translate Demo.str_of_value Demo.repr_row
              Demo.json_dumps Demo.count_lines
              (seed_cols Demo.now
               ++ [("patient_num", VInt 7); ("start_date", VDateTime 738900 0)])
              Demo.visit
              (rules_of_pair Demo.sorted_catalog "visits" "observation_fact")
              738900%Z 0%Z Demo.filling_observations
              wf_mandatory_cols_of_visit eq_refl eq_refl eq_refl eq_refl Htarget)
    as (_ & _ & H3 & rows & H4 & H5).
  split; [rewrite H3; reflexivity|].
  exists rows. split; [exact H4 | split; [|exact H5]].
  apply app_inv_head in H4. rewrite <- H4. reflexivity.
Defined.

(** X3 on one encounter row waiting in its queue. *)
Lemma flush_all_writes_waiting_rows_witness :
  let new_row := [("date", VDate 738886); ("encounter_num", VInt 1)] in
  let s1 := exec (add_row_to_batch Demo.table_columns new_row "encounters")
              initial_state in
  Dict.wf (batch_que s1)
  /\ outcome save_all_rows_in_que s1 = inr tt
  /\ saved (exec save_all_rows_in_que s1) = [("encounters", [new_row])]
  /\ written "encounters" (exec save_all_rows_in_que s1) = [new_row].
Proof.
  cbv zeta.
  assert (W : Dict.wf
                (batch_que
                   (exec (add_row_to_batch Demo.table_columns
                            [("date", VDate 738886); ("encounter_num", VInt 1)]
                            "encounters") initial_state))).
  { unfold Dict.wf. vm_compute. constructor; [intros [] | constructor]. }
  split; [exact W|].
  destruct (@flush_all_writes_waiting_rows _ W) as (Ho & Hs & _ & Hw & _).
  split; [exact Ho | split; [rewrite Hs | rewrite Hw]]; reflexivity.
Defined.

(** X5 on a run over one visit. *)
Lemma normal_run_writes_every_row_witness :
  let demo_run :=
    process_org_tables_into_dwh Demo.catalog Demo.table_columns [] []
      Demo.translate Demo.now Demo.str_of_value Demo.repr_row Demo.json_dumps
      Demo.count_lines in
  let demo_rows :=
    process_rows_of_tables Demo.catalog Demo.table_columns [] []
      Demo.translate Demo.now Demo.str_of_value Demo.repr_row Demo.json_dumps
      Demo.count_lines in
  outcome (demo_run [("visits", [Demo.visit])]) initial_state = inr tt
  /\ forall t,
       written t (exec (demo_run [("visits", [Demo.visit])]) initial_state)
       = enqueued t (exec (demo_rows [("visits", [Demo.visit])]) initial_state).
Proof.
  cbv zeta. split; [vm_compute; reflexivity|].
  apply (@normal_run_writes_every_row Demo.catalog Demo.table_columns [] []
           Demo.translate Demo.now Demo.str_of_value Demo.repr_row Demo.json_dumps
           Demo.count_lines [("visits", [Demo.visit])]).
  vm_compute. reflexivity.
Defined.

(** X9 on the visit: only the complaint changes. *)
Lemma translation_closed_form_witness :
  Dict.wf Demo.visit
  /\ outcome (translate_heb_words Demo.table_columns [] Demo.translate Demo.visit)
       initial_state
     = inr [ ("patient_id", VInt 7); ("Entry_Date", VDateTime 738900 0);
             ("complaint", VStr "pain"); ("weight", VInt 70);
             ("height", VInt 180) ].
Proof.
  split; [exact wf_visit|].
  rewrite (proj1 (@translation_closed_form Demo.table_columns [] Demo.translate
                    Demo.visit initial_state wf_visit)).
  reflexivity.
Defined.

(** X11 on a concept described in Hebrew. *)
Lemma concept_row_or_exception_witness :
  let mandatory_cols := [("concept_desc", VStr Demo.pain)] in
  let s := set_current_dwh_table_name "concept_dimension"
             (set_current_org_table_name "visits" initial_state) in
  let run := concept_dimension_process Demo.table_columns [] Demo.translate
               Demo.str_of_value Demo.repr_row Demo.json_dumps Demo.count_lines
               mandatory_cols Demo.visit in
  let new_row := [("concept_desc", VStr "pain"); ("name_char", VStr "pain")] in
  Dict.wf mandatory_cols
  /\ current_dwh_table_name s = "concept_dimension"
  /\ outcome run s = inr tt
  /\ queued_or_recorded Demo.table_columns new_row "concept_dimension" s (exec run s).
Proof.
  cbv zeta.
  assert (W : Dict.wf [("concept_desc", VStr Demo.pain)]).
  { unfold Dict.wf. simpl. constructor; [intros [] | constructor]. }
  split; [exact W | split; [reflexivity|]].
  destruct (@concept_row_or_exception Demo.table_columns [] Demo.translate
              Demo.str_of_value Demo.repr_row Demo.json_dumps Demo.count_lines
              [("concept_desc", VStr Demo.pain)] Demo.visit
              (set_current_dwh_table_name "concept_dimension"
                 (set_current_org_table_name "visits" initial_state))
              W eq_refl) as (Ho & _ & Hq).
  split; [exact Ho | exact Hq].
Defined.


(** X14 on a visit of 2024-01-01, the encounter table holding one other
    day with the number 1: the visit gets the number 2. *)
Lemma new_encounter_number_is_fresh_witness :
  let table := [(VDate 738000, VInt 1)] in
  let request := add_encounter_num Demo.table_columns table Demo.new_year_visit in
  is_in (VDate 738886) table = false
  /\ forallb number_or_missing (column snd table) = true
  /\ outcome request initial_state
     = inr (Dict.set "encounter_num" (VInt 2) Demo.new_year_visit)
  /\ encounters (exec request initial_state)
     = Some (table ++ [(VDate 738886, VInt 2)]).
Proof.
  cbv zeta. split; [reflexivity | split; [reflexivity|]].
  destruct (@new_encounter_number_is_fresh Demo.table_columns
              [(VDate 738000, VInt 1)] Demo.new_year_visit 738886%Z 0%Z 1%Z
              initial_state eq_refl eq_refl eq_refl (or_introl eq_refl))
    as (top & Hin & _ & Ho & He & _).
  destruct Hin as [E|[]]. injection E as <-.
  split; [exact Ho | exact He].
Defined.

(** X15 on the same visit: the second request changes nothing. *)
Lemma encounter_request_is_idempotent_witness :
  let table := [(VDate 738000, VInt 1)] in
  let request := add_encounter_num Demo.table_columns table Demo.new_year_visit in
  let result := Dict.set "encounter_num" (VInt 2) Demo.new_year_visit in
  outcome request initial_state = inr result
  /\ request (exec request initial_state) = (exec request initial_state, inr result).
Proof.
  cbv zeta. split; [reflexivity|].
  exact (@encounter_request_is_idempotent Demo.table_columns
           [(VDate 738000, VInt 1)] Demo.new_year_visit
           (Dict.set "encounter_num" (VInt 2) Demo.new_year_visit)
           initial_state eq_refl).
Defined.

(** ** Where the code departs from the specification *)

(** C1: a rule with a concept code and no modifier code gives no row. The
    height rule of the catalog is such a rule and the visit has a height,
    yet the run enqueues no row for it and records no failure: the
    observation table receives the rows of the complaint and of the weight
    only, and the run is the same, state and outcome, as with the catalog
    that lacks the rule. It is so for every catalog: the observation
    transformer does what it does on the rules that have a modifier
    code. *)
Theorem concept_only_rule_gives_no_row :
  let demo_run := fun catalog =>
    process_org_tables_into_dwh catalog Demo.table_columns [] []
      Demo.translate Demo.now Demo.str_of_value Demo.repr_row Demo.json_dumps
      Demo.count_lines in
  let cat := rules_of_pair Demo.sorted_catalog "visits" "observation_fact" in
  let s' :=
    fst (demo_run Demo.sorted_catalog [("visits", [Demo.visit])] initial_state) in
  In Demo.height_rule cat
  /\ is_no_modifier Demo.height_rule = false
  /\ has_modifier Demo.height_rule = false
  /\ concept_cd Demo.height_rule = Some "HEIGHT"
  /\ modifier_cd Demo.height_rule = None
  /\ Dict.get (column_name Demo.height_rule) Demo.visit = Some (VInt 180)
  /\ snd (demo_run Demo.sorted_catalog [("visits", [Demo.visit])] initial_state)
     = inr tt
  /\ map (Dict.get "concept_cd") (written "observation_fact" s')
     = [Some (VStr "COMPLAINT"); Some (VStr "WEIGHT")]
  /\ written "exceptions" s' = []
  /\ demo_run Demo.sorted_catalog [("visits", [Demo.visit])] initial_state
     = demo_run Demo.catalog_without_height [("visits", [Demo.visit])]
         initial_state
  /\ forall inspector_columns stored_dictionary stored_encounters translate
       str_of_value repr_row json_dumps count_lines mandatory_cols org_row
       org_dwh_tbl_cat s,
       observation_fact_process inspector_columns stored_dictionary
         stored_encounters translate str_of_value repr_row json_dumps
         count_lines mandatory_cols org_row
         (filter has_modifier_cd org_dwh_tbl_cat) s
       = observation_fact_process inspector_columns stored_dictionary
           stored_encounters translate str_of_value repr_row json_dumps
           count_lines mandatory_cols org_row org_dwh_tbl_cat s.
Proof.
  cbv zeta.
  split; [vm_compute; right; right; right; right; left; reflexivity|].
  do 8 (split; [vm_compute; reflexivity|]).
  split; [vm_compute; reflexivity|].
  intros. apply rules_without_modifier_are_ignored.
Qed.

(** C2 fails for a column that the source table does not have, and for
    the record of a null field when the run fails later. The two rows of
    the table have no [patient_id] column, and the first has no complaint.
    For the concept table the null complaint is recorded: the pair is
    skipped and one record is enqueued. For the observation table the
    lookup of [patient_id] raises [KeyError], which nothing catches: no
    record is made of it, and the run stops there, without processing the
    second row and without the flush, so that the record of the null
    complaint is never written. *)
Lemma missing_source_column_aborts_run :
  let demo_run :=
    process_org_tables_into_dwh Demo.sorted_catalog Demo.table_columns [] []
      Demo.translate Demo.now Demo.str_of_value Demo.repr_row Demo.json_dumps
      Demo.count_lines in
  let first := Demo.visit_of_other_table_without_complaint in
  let rows := [first; Demo.visit_of_other_table] in
  let s' := fst (demo_run [("visits", rows)] initial_state) in
  Dict.keys first = Dict.keys Demo.visit_of_other_table
  /\ target_tables Demo.sorted_catalog "visits"
     = ["concept_dimension"; "observation_fact"; "patient_dimension"]
  /\ get_mandatory_cols Demo.now
       (rules_of_pair Demo.sorted_catalog "visits" "concept_dimension") first
     = inl (MandatoryFieldMissing "complaint")
  /\ In Demo.patient_rule
       (rules_of_pair Demo.sorted_catalog "visits" "observation_fact")
  /\ is_mandatory Demo.patient_rule = true
  /\ Dict.get (column_name Demo.patient_rule) first = None
  /\ get_mandatory_cols Demo.now
       (rules_of_pair Demo.sorted_catalog "visits" "observation_fact") first
     = inl (KeyError "patient_id")
  /\ snd (demo_run [("visits", rows)] initial_state) = inl (KeyError "patient_id")
  /\ map (Dict.get "org_col") (queued "exceptions" s') = [Some (VStr "complaint")]
  /\ saved s' = []
  /\ progress s' = [("concept_dimension", true)].
Proof.
  vm_compute. repeat split. left. reflexivity.
Qed.

(** C3 fails for a sibling rule whose row does not pass validation. The
    visit has no weight, and the patient is numbered 0. The rule of the
    weight is dropped and recorded; the rule of the complaint has a source
    value, yet it gives no row either: the row it assembles fails the
    validation of the observation table, the number 0 counting as a missing
    [patient_num], and is recorded in its turn. *)
Lemma sibling_failing_validation_gives_no_row :
  let demo_run :=
    process_org_tables_into_dwh Demo.sorted_catalog Demo.table_columns []
      [(VDate 738000, VInt 1)]
      Demo.translate Demo.now Demo.str_of_value Demo.repr_row Demo.json_dumps
      Demo.count_lines in
  let org_row := Demo.visit_of_patient_zero in
  let s' := fst (demo_run [("visits", [org_row])] initial_state) in
  evaluated_rules (rules_of_pair Demo.sorted_catalog "visits" "observation_fact")
  = [Demo.complaint_rule; Demo.weight_rule]
  /\ Dict.get (column_name Demo.weight_rule) org_row = Some VNone
  /\ Dict.get (column_name Demo.complaint_rule) org_row = Some (VStr Demo.pain)
  /\ pd_isna (VStr Demo.pain) = false
  /\ snd (demo_run [("visits", [org_row])] initial_state) = inr tt
  /\ written "observation_fact" s' = []
  /\ map (fun record => (Dict.get "target_table" record,
                         Dict.get "target_col" record,
                         Dict.get "org_col" record))
       (written "exceptions" s')
     = [ (Some (VStr "observation_fact"), Some (VStr "patient_num"), Some VNone);
         (Some (VStr "observation_fact"), Some VNone, Some (VStr "weight"));
         (Some (VStr "patient_dimension"), Some (VStr "patient_num"), Some VNone) ].
Proof.
  vm_compute. repeat split.
Qed.

(** C6 fails: the row written to the concept table keeps the key
    [concept_desc] that the transformation set, which is not a column of the
    table. *)
Lemma written_row_keeps_foreign_key :
  let demo_run :=
    process_org_tables_into_dwh Demo.sorted_catalog Demo.table_columns [] []
      Demo.translate Demo.now Demo.str_of_value Demo.repr_row Demo.json_dumps
      Demo.count_lines in
  let s' := fst (demo_run [("visits", [Demo.visit])] initial_state) in
  exists r,
    written "concept_dimension" s' = [r]
    /\ Dict.get "concept_desc" r = Some (VStr "pain")
    /\ ~ In "concept_desc" (get_columns Demo.table_columns "concept_dimension").
Proof.
  cbv zeta. eexists. split; [vm_compute; reflexivity | split; [reflexivity|]].
  vm_compute. intros H. repeat (destruct H as [H|H]; [discriminate H|]). exact H.
Qed.

(** C10 fails when a rule of the pair writes the [encounter_num] column.
    The visit is of a day the encounter table lacks and is given the
    encounter number 2, enqueued for the [encounters] table; the row of the
    complaint carries it, but the rule of the weight writes the weight, 70,
    over it in its own row. *)
Lemma encounter_num_rule_overwrites_assigned_id :
  let demo_run :=
    process_org_tables_into_dwh Demo.catalog_writing_encounter_num
      Demo.table_columns [] [(VDate 738000, VInt 1)]
      Demo.translate Demo.now Demo.str_of_value Demo.repr_row Demo.json_dumps
      Demo.count_lines in
  let s' := fst (demo_run [("visits", [Demo.visit])] initial_state) in
  is_in (VDate 738900) [(VDate 738000, VInt 1)] = false
  /\ snd (demo_run [("visits", [Demo.visit])] initial_state) = inr tt
  /\ written "encounters" s'
     = [[("date", VDate 738900); ("encounter_num", VInt 2)]]
  /\ map (Dict.get "concept_cd") (written "observation_fact" s')
     = [Some (VStr "COMPLAINT"); Some (VStr "WEIGHT")]
  /\ map (Dict.get "encounter_num") (written "observation_fact" s')
     = [Some (VInt 2); Some (VInt 70)].
Proof.
  vm_compute. repeat split.
Qed.

(** C4: with an empty encounter table the first request for a date does not
    give the number 1: the maximum of no number is [nan], and so is the
    number assigned, stored and enqueued. The second request for the date
    returns the same value and changes nothing. *)
Theorem first_encounter_number_is_nan :
  let request := add_encounter_num Demo.table_columns [] Demo.new_year_visit in
  let s1 := exec request initial_state in
  outcome request initial_state
  = inr (Dict.set "encounter_num" VNaN Demo.new_year_visit)
  /\ encounters s1 = Some [(VDate 738886, VNaN)]
  /\ queued "encounters" s1 = [[("date", VDate 738886); ("encounter_num", VNaN)]]
  /\ request s1 = (s1, inr (Dict.set "encounter_num" VNaN Demo.new_year_visit)).
Proof.
  vm_compute. repeat split.
Qed.

(** C5: the flush at the end of the run writes the waiting rows and leaves
    them in their queue; a second flush writes them again. At the end of a
    whole run over one visit, the two observation rows are still queued. *)
Theorem flush_all_keeps_the_queues :
  let new_row := [("date", VDate 738886); ("encounter_num", VInt 1)] in
  let s1 := exec (add_row_to_batch Demo.table_columns new_row "encounters")
              initial_state in
  let s2 := exec save_all_rows_in_que s1 in
  let demo_run :=
    process_org_tables_into_dwh Demo.catalog Demo.table_columns [] []
      Demo.translate Demo.now Demo.str_of_value Demo.repr_row Demo.json_dumps
      Demo.count_lines in
  let s_end := exec (demo_run [("visits", [Demo.visit])]) initial_state in
  outcome save_all_rows_in_que s1 = inr tt
  /\ written "encounters" s2 = [new_row]
  /\ queued "encounters" s2 = [new_row]
  /\ written "encounters" (exec save_all_rows_in_que s2) = [new_row; new_row]
  /\ outcome (demo_run [("visits", [Demo.visit])]) initial_state = inr tt
  /\ length (queued "observation_fact" s_end) = 2%nat
  /\ queued "observation_fact" s_end = written "observation_fact" s_end.
Proof.
  vm_compute. repeat split.
Qed.
